(** * Bradley-Terry rating engine: aggregation, MM fitter, Metropolis sampler,
      convergence trace.

    Shallow embedding of [bt_rating.py], [bt_rating_bayesian.py] and the pure
    parts of [app_.py].

    Conventions of the embedding.
    - Python [int] counters are [nat] (they only ever grow from zero); the one
      integer subtraction of the source is done in [Z].
    - Python [float] arithmetic is read as arithmetic on the real numbers
      ([R]): rounding, overflow to [inf], underflow to [0.0] and [nan] are not
      represented, and [math.exp] has no [OverflowError].  In this reading the
      MM loop always returns; the program itself can hold [inf] after two
      iterations (section "A fit that leaves the range of the doubles"), then
      returns [nan], and can raise [ZeroDivisionError] on line 92 when a sum
      of two strengths underflows.  The lemmas that say the loop returns are
      lemmas about the exact iteration; the properties of the fitted values
      are stated for one step from positive strengths, or for the case that
      the function returns.
    - A [dict] (or [defaultdict]) is an association list in insertion order, the
      order in which Python iterates it.
    - Exceptions are values of the error monad [result]. *)

From Stdlib Require Import List Arith Lia ZArith Bool Permutation Sorted.
From Stdlib Require Import Reals Lra.
From Stdlib Require String Ascii.
Import ListNotations.
Import String.StringSyntax.
Delimit Scope string_scope with string.

Set Implicit Arguments.

(** ** Exceptions *)

Inductive exn : Type :=
| ZeroDivisionError
| ValueError
| KeyError.

Inductive result (A : Type) : Type :=
| Ok (a : A)
| Raise (e : exn).

Arguments Ok {A} a.
Arguments Raise {A} e.

Definition bind {A B : Type} (c : result A) (k : A -> result B) : result B :=
  match c with
  | Ok a => k a
  | Raise e => Raise e
  end.

Declare Scope result_scope.
Delimit Scope result_scope with result.
Notation "x <- c ;; k" := (bind c (fun x => k))
  (at level 61, c at next level, right associativity) : result_scope.
Notation "' p <- c ;; k" := (bind c (fun p => k))
  (at level 61, p pattern, c at next level, right associativity) : result_scope.

Local Open Scope result_scope.

(** [for x in l: acc = f(acc, x)], stopping at the first exception. *)
Fixpoint foldM {A B : Type} (f : A -> B -> result A) (l : list B) (a : A)
  : result A :=
  match l with
  | [] => Ok a
  | x :: l' => a' <- f a x ;; foldM f l' a'
  end.

(** A comprehension [[f(x) for x in l]] whose body may raise. *)
Fixpoint mapM {A B : Type} (f : A -> result B) (l : list A) : result (list B) :=
  match l with
  | [] => Ok []
  | x :: l' => y <- f x ;; ys <- mapM f l' ;; Ok (y :: ys)
  end.

(** ** Dictionaries *)

Definition player := nat.

(** A match is the pair (winner, loser). *)
Definition game := (player * player)%type.

Definition dict (V : Type) := list (player * V).

Definition keys {V : Type} (d : dict V) : list player := map fst d.
Definition values {V : Type} (d : dict V) : list V := map snd d.

Fixpoint lookup {V : Type} (d : dict V) (k : player) : option V :=
  match d with
  | [] => None
  | (k', v) :: d' => if Nat.eqb k' k then Some v else lookup d' k
  end.

(** [d[k]] on a plain dict. *)
Definition getitem {V : Type} (d : dict V) (k : player) : result V :=
  match lookup d k with
  | Some v => Ok v
  | None => Raise KeyError
  end.

(** [d[k]] on a [defaultdict] whose factory yields [dflt]. *)
Definition get_dd {V : Type} (dflt : V) (d : dict V) (k : player) : V :=
  match lookup d k with
  | Some v => v
  | None => dflt
  end.

(** [d[k] = v]: an existing key keeps its position, a new key goes last. *)
Fixpoint setitem {V : Type} (d : dict V) (k : player) (v : V) : dict V :=
  match d with
  | [] => [(k, v)]
  | (k', v') :: d' =>
      if Nat.eqb k' k then (k', v) :: d' else (k', v') :: setitem d' k v
  end.

(** [row[j] += 1] on a [defaultdict(int)]. *)
Definition incr (row : dict nat) (j : player) : dict nat :=
  setitem row j (get_dd 0%nat row j + 1)%nat.

(** [d[i][j] += 1] on a [defaultdict(lambda: defaultdict(int))]. *)
Definition incr2 (d : dict (dict nat)) (i j : player) : dict (dict nat) :=
  setitem d i (incr (get_dd [] d i) j).

(** [d[i][j]] read through both default factories. *)
Definition get2 (d : dict (dict nat)) (i j : player) : nat :=
  get_dd 0%nat (get_dd [] d i) j.

(** [s.add(x)] on a set kept as a duplicate-free list. *)
Fixpoint set_add (s : list player) (x : player) : list player :=
  match s with
  | [] => [x]
  | y :: s' => if Nat.eqb y x then s else y :: set_add s' x
  end.

(** ** [aggregate_matches] *)

Record tallies : Type := mkTallies {
  players : list player;
  w : dict (dict nat);
  n : dict (dict nat)
}.

Definition empty_tallies : tallies := mkTallies [] [] [].

(** Body of the loop [for winner, loser in matches]. *)
Definition aggregate_step (acc : tallies) (m : game) : tallies :=
  let '(winner, loser) := m in
  mkTallies (set_add (set_add (players acc) winner) loser)
            (incr2 (w acc) winner loser)
            (incr2 (incr2 (n acc) winner loser) loser winner).

Definition aggregate_from (acc : tallies) (matches : list game) : tallies :=
  fold_left aggregate_step matches acc.

Definition aggregate_matches (matches : list game) : tallies :=
  aggregate_from empty_tallies matches.

(** [sorted(players)]: insertion sort, ascending. *)
Fixpoint insert_sorted (x : player) (l : list player) : list player :=
  match l with
  | [] => [x]
  | y :: l' => if Nat.leb x y then x :: l else y :: insert_sorted x l'
  end.

Fixpoint sorted (l : list player) : list player :=
  match l with
  | [] => []
  | x :: l' => insert_sorted x (sorted l')
  end.

(** ** Partial arithmetic of the interpreter *)

Local Open Scope R_scope.

(** [x / y] on floats. *)
Definition pydiv (x y : R) : result R :=
  if Req_dec_T y 0 then Raise ZeroDivisionError else Ok (x / y).

(** [math.log(x)]. *)
Definition pylog (x : R) : result R :=
  if Rlt_dec 0 x then Ok (ln x) else Raise ValueError.

(** [a % b] on non-negative ints. *)
Definition pymod (a b : nat) : result nat :=
  match b with
  | O => Raise ZeroDivisionError
  | S _ => Ok (Nat.modulo a b)
  end.

(** [sum(l)]: left to right from [0]. *)
Definition pysum (l : list R) : R := fold_left Rplus l 0.

Definition sum_counts (l : list nat) : nat := fold_left Nat.add l 0%nat.

(** ** [fit_bradley_terry] *)

Definition epsilon : R := / IZR (10 ^ 300).

Definition default_tol : R := / IZR (10 ^ 12).

Definition default_max_iter : nat := (100 * 100)%nat.

(** Lines 87-92: the denominator of player [i]. *)
Definition mm_denom (n : dict (dict nat)) (p : dict R) (i : player) : result R :=
  foldM (fun denom (e : player * nat) =>
           let '(j, nij) := e in
           if Nat.leb nij 0 then Ok denom
           else p_i <- getitem p i ;;
                p_j <- getitem p j ;;
                q <- pydiv (INR nij) (p_i + p_j) ;;
                Ok (denom + q))
        (get_dd [] n i) 0.

(** Lines 94-98: the guarded division. *)
Definition mm_update (t : dict nat) (p : dict R) (i : player) (denom : R)
  : result R :=
  if Rlt_dec 0 denom
  then t_i <- getitem t i ;; pydiv (INR t_i) denom
  else getitem p i.

Definition mm_player (t : dict nat) (n : dict (dict nat)) (p : dict R)
  (i : player) : result R :=
  denom <- mm_denom n p i ;; mm_update t p i denom.

(** Lines 104-105. *)
Definition clamp_all (players : list player) (p_new : dict R) : result (dict R) :=
  foldM (fun d i => v <- getitem d i ;; Ok (setitem d i (Rmax v epsilon)))
        players p_new.

(** Lines 110-114: rescale and track the largest relative change. *)
Definition rescale_all (players : list player) (p : dict R) (factor : R)
  (p_new : dict R) : result (dict R * R) :=
  foldM (fun (st : dict R * R) i =>
           let '(d, max_rel_change) := st in
           v <- getitem d i ;;
           let d' := setitem d i (v * factor) in
           v' <- getitem d' i ;;
           p_i <- getitem p i ;;
           rel_change <- pydiv (Rabs (v' - p_i)) (Rmax p_i epsilon) ;;
           if Rlt_dec max_rel_change rel_change
           then Ok (d', rel_change)
           else Ok (d', max_rel_change))
        players (p_new, 0).

(** Lines 83-115: one full MM iteration; returns [p_new] and
    [max_rel_change]. *)
Definition mm_iteration (players : list player) (t : dict nat)
  (n : dict (dict nat)) (p : dict R) : result (dict R * R) :=
  p_new <- foldM (fun d i => v <- mm_player t n p i ;; Ok (setitem d i v))
                 players [] ;;
  p_new <- clamp_all players p_new ;;
  logs <- mapM pylog (values p_new) ;;
  mean_log <- pydiv (pysum logs) (INR (length p_new)) ;;
  let factor := exp (- mean_log) in
  rescale_all players p factor p_new.

(** Lines 82-121: at most [iters] iterations, leaving early on convergence. *)
Fixpoint mm_loop (iters : nat) (players : list player) (t : dict nat)
  (n : dict (dict nat)) (tol : R) (p : dict R) : result (dict R) :=
  match iters with
  | O => Ok p
  | S k =>
      '(p_new, max_rel_change) <- mm_iteration players t n p ;;
      if Rlt_dec max_rel_change tol then Ok p_new
      else mm_loop k players t n tol p_new
  end.

(** The same loop, recording the strength vector held after each iteration. *)
Fixpoint mm_trace (iters : nat) (players : list player) (t : dict nat)
  (n : dict (dict nat)) (tol : R) (p : dict R) : result (list (dict R)) :=
  match iters with
  | O => Ok []
  | S k =>
      '(p_new, max_rel_change) <- mm_iteration players t n p ;;
      if Rlt_dec max_rel_change tol then Ok [p_new]
      else rest <- mm_trace k players t n tol p_new ;; Ok (p_new :: rest)
  end.

(** Line 70: [t = {i: sum(w[i].values()) for i in players}]. *)
Definition total_wins (players : list player) (w : dict (dict nat)) : dict nat :=
  map (fun i => (i, sum_counts (values (get_dd [] w i)))) players.

(** Line 73: [p = {i: 1.0 for i in players}]. *)
Definition initial_strengths (players : list player) : dict R :=
  map (fun i => (i, 1)) players.

(** Lines 124-126. *)
Definition log_ratings_of (players : list player) (p : dict R)
  : result (dict R) :=
  logp <- mapM (fun (e : player * R) =>
                  let '(i, v) := e in l <- pylog v ;; Ok (i, l)) p ;;
  mean_logp <- pydiv (pysum (values logp)) (INR (length logp)) ;;
  mapM (fun i => l <- getitem logp i ;; Ok (i, l - mean_logp)) players.

(** The isolated-player list of lines 76-80 only feeds a [verbose] message
    and is left out. *)
Definition fit_bradley_terry (matches : list game) (max_iter : nat) (tol : R)
  : result (dict R * dict R) :=
  let agg := aggregate_matches matches in
  let players := sorted (players agg) in
  match players with
  | [] => Ok ([], [])
  | _ :: _ =>
      let t := total_wins players (w agg) in
      p <- mm_loop max_iter players t (n agg) tol (initial_strengths players) ;;
      ratings <- log_ratings_of players p ;;
      Ok (ratings, p)
  end.

(** The strength vectors the loop of [fit_bradley_terry] holds: the initial
    one, then one per completed iteration. *)
Definition fit_iterates (matches : list game) (max_iter : nat) (tol : R)
  : result (list (dict R)) :=
  let agg := aggregate_matches matches in
  let players := sorted (players agg) in
  match players with
  | [] => Ok []
  | _ :: _ =>
      let t := total_wins players (w agg) in
      rest <- mm_trace max_iter players t (n agg) tol
                       (initial_strengths players) ;;
      Ok (initial_strengths players :: rest)
  end.

(** ** [analyze_rating_convergence] *)

(** A [max_rating_change]: a float or [float('inf')]. *)
Inductive change : Type :=
| Finite (r : R)
| Infinite.

Record convergence_point : Type := mkPoint {
  num_matches : nat;
  max_rating_change : change;
  ratings : dict R
}.

(** [range(start, stop, step)] for non-negative arguments. *)
Definition py_range (start stop step : nat) : result (list nat) :=
  match step with
  | O => Raise ValueError
  | S _ => Ok (map (fun k => (start + k * step)%nat)
                   (seq 0 ((stop - start + step - 1) / step)))
  end.

(** [max(changes)] on a non-empty list. *)
Definition pymax (l : list R) : R :=
  match l with
  | [] => 0
  | x :: l' => fold_left Rmax l' x
  end.

(** Lines 215-224 (and 240-248): the change against the previous snapshot. *)
Definition rating_change (ratings : dict R) (prev_ratings : option (dict R))
  : result change :=
  match prev_ratings with
  | None => Ok Infinite
  | Some prev =>
      let common_players :=
        filter (fun p => existsb (Nat.eqb p) (keys prev)) (keys ratings) in
      match common_players with
      | [] => Ok Infinite
      | _ :: _ =>
          changes <- mapM (fun p => a <- getitem ratings p ;;
                                    b <- getitem prev p ;;
                                    Ok (Rabs (a - b))) common_players ;;
          Ok (Finite (pymax changes))
      end
  end.

(** Lines 212-235: body of the loop over prefix sizes. *)
Definition convergence_step (matches : list game)
  (st : list convergence_point * option (dict R)) (i : nat)
  : result (list convergence_point * option (dict R)) :=
  let '(results, prev_ratings) := st in
  '(ratings, _) <- fit_bradley_terry (firstn i matches)
                                     default_max_iter default_tol ;;
  max_change <- rating_change ratings prev_ratings ;;
  Ok (results ++ [mkPoint i max_change ratings], Some ratings).

Definition analyze_rating_convergence (matches : list game) (step_size : nat)
  : result (list convergence_point) :=
  match matches with
  | [] => Ok []
  | _ :: _ =>
      sizes <- py_range step_size (length matches + 1) step_size ;;
      '(results, prev_ratings) <-
         foldM (convergence_step matches) sizes ([], None) ;;
      r <- pymod (length matches) step_size ;;
      if negb (Nat.eqb r 0) then
        '(ratings, _) <- fit_bradley_terry matches
                                           default_max_iter default_tol ;;
        max_change <- rating_change ratings prev_ratings ;;
        Ok (results ++ [mkPoint (length matches) max_change ratings])
      else Ok results
  end.

(** ** [log_posterior] *)

Definition log_posterior (log_ratings : dict R) (wins matches : dict (dict nat))
  (prior_std : R) : result R :=
  log_prob <-
    foldM (fun log_prob (ei : player * dict nat) =>
             let '(i, row) := ei in
             foldM (fun log_prob (ej : player * nat) =>
                      let '(j, w_ij) := ej in
                      let n_ij := get2 matches i j in
                      if Nat.ltb 0 n_ij then
                        let w_ji := (Z.of_nat n_ij - Z.of_nat w_ij)%Z in
                        r_i <- getitem log_ratings i ;;
                        r_j <- getitem log_ratings j ;;
                        let max_r := Rmax r_i r_j in
                        l <- pylog (exp (r_i - max_r) + exp (r_j - max_r)) ;;
                        let log_sum := max_r + l in
                        Ok (log_prob + INR w_ij * (r_i - log_sum)
                                     + IZR w_ji * (r_j - log_sum))
                      else Ok log_prob)
                   row log_prob)
          wins 0 ;;
  foldM (fun log_prob (e : player * R) =>
           let '(_, rating) := e in
           q <- pydiv rating prior_std ;;
           Ok (log_prob - (1 / 2) * q ^ 2))
        log_ratings log_prob.

(** ** [mcmc_bradley_terry] *)

Record chain : Type := mkChain {
  current_ratings : dict R;
  current_log_prob : R;
  accept_count : nat;
  total_proposals : nat
}.

Record summary : Type := mkSummary {
  mean : dict R;
  median : dict R;
  std : dict R;
  ci_lower : dict R;
  ci_upper : dict R;
  samples : dict (list R)
}.

(** What the function returns: [{}] or the dict of six entries. *)
Inductive mcmc_output : Type :=
| EmptyDict
| Results (s : summary).

(** NumPy is outside the repository.  Its process-wide generator is a state
    of type [G] that every draw reads and advances; its reductions over
    arrays are taken as given. *)
Record numpy (G : Type) : Type := mkNumpy {
  random_normal : R -> R -> G -> R * G;
  random_random : G -> R * G;
  np_mean : list R -> R;
  np_median : list R -> R;
  np_std : list R -> R;
  np_percentile : list R -> R -> R
}.

Section Sampler.

Variable G : Type.
Variable np : numpy G.

(** Computations that read and advance the generator and may raise. *)
Definition sampler (A : Type) : Type := G -> result A * G.

Definition retS {A : Type} (a : A) : sampler A := fun g => (Ok a, g).

Definition bindS {A B : Type} (c : sampler A) (k : A -> sampler B) : sampler B :=
  fun g => match c g with
           | (Ok a, g') => k a g'
           | (Raise e, g') => (Raise e, g')
           end.

Definition liftS {A : Type} (c : result A) : sampler A := fun g => (c, g).

Definition draw_normal (loc scale : R) : sampler R :=
  fun g => let '(z, g') := random_normal np loc scale g in (Ok z, g').

Definition draw_random : sampler R :=
  fun g => let '(u, g') := random_random np g in (Ok u, g').

Fixpoint foldS {A B : Type} (f : A -> B -> sampler A) (l : list B) (a : A)
  : sampler A :=
  match l with
  | [] => retS a
  | x :: l' => bindS (f a x) (foldS f l')
  end.

(** Lines 94-109: the proposal for one player. *)
Definition propose (wins matches : dict (dict nat)) (proposal_std prior_std : R)
  (st : chain) (player : player) : sampler chain :=
  bindS (liftS (getitem (current_ratings st) player)) (fun r =>
  bindS (draw_normal 0 proposal_std) (fun z =>
  let proposed_ratings := setitem (current_ratings st) player (r + z) in
  bindS (liftS (log_posterior proposed_ratings wins matches prior_std))
        (fun proposed_log_prob =>
  let log_accept_ratio := proposed_log_prob - current_log_prob st in
  bindS draw_random (fun u =>
  bindS (liftS (pylog u)) (fun log_u =>
  if Rlt_dec log_u log_accept_ratio
  then retS (mkChain proposed_ratings proposed_log_prob
                     (S (accept_count st)) (S (total_proposals st)))
  else retS (mkChain (current_ratings st) (current_log_prob st)
                     (accept_count st) (S (total_proposals st)))))))).

(** Lines 93-109: one pass over the players. *)
Definition sweep (players : list player) (wins matches : dict (dict nat))
  (proposal_std prior_std : R) (st : chain) : sampler chain :=
  foldS (propose wins matches proposal_std prior_std) players st.

(** Lines 112-115. *)
Definition recenter (players : list player) (wins matches : dict (dict nat))
  (prior_std : R) (st : chain) : result chain :=
  mean_rating <- pydiv (pysum (values (current_ratings st)))
                       (INR (length (current_ratings st))) ;;
  centered <- foldM (fun d p => v <- getitem d p ;;
                                Ok (setitem d p (v - mean_rating)))
                    players (current_ratings st) ;;
  log_prob <- log_posterior centered wins matches prior_std ;;
  Ok (mkChain centered log_prob (accept_count st) (total_proposals st)).

(** Lines 118-120. *)
Definition store_sample (players : list player) (burn_in thin iteration : nat)
  (current : dict R) (samples : dict (list R)) : result (dict (list R)) :=
  if Nat.leb burn_in iteration then
    r <- pymod (iteration - burn_in) thin ;;
    if Nat.eqb r 0 then
      foldM (fun s p => l <- getitem s p ;;
                        v <- getitem current p ;;
                        Ok (setitem s p (l ++ [v])))
            players samples
    else Ok samples
  else Ok samples.

(** Lines 91-120: body of the loop over [range(n_samples + burn_in)]. *)
Definition mcmc_iteration (players : list player) (wins matches : dict (dict nat))
  (burn_in thin : nat) (proposal_std prior_std : R)
  (st : chain * dict (list R)) (iteration : nat)
  : sampler (chain * dict (list R)) :=
  let '(c, samples) := st in
  bindS (sweep players wins matches proposal_std prior_std c) (fun c =>
  bindS (liftS (recenter players wins matches prior_std c)) (fun c =>
  bindS (liftS (store_sample players burn_in thin iteration
                             (current_ratings c) samples)) (fun samples =>
  retS (c, samples)))).

(** Lines 137-144. *)
Definition summarize (players : list player) (kept : dict (list R))
  : result summary :=
  foldM (fun (s : summary) p =>
           arr <- getitem kept p ;;
           Ok (mkSummary (setitem (mean s) p (np_mean np arr))
                         (setitem (median s) p (np_median np arr))
                         (setitem (std s) p (np_std np arr))
                         (setitem (ci_lower s) p (np_percentile np arr (5 / 2)))
                         (setitem (ci_upper s) p (np_percentile np arr (195 / 2)))
                         (setitem (samples s) p arr)))
        players (mkSummary [] [] [] [] [] []).

(** Lines 74-126: the chain and the retained samples. *)
Definition mcmc_chain (matches_list : list game) (n_samples burn_in thin : nat)
  (proposal_std prior_std : R) : sampler (chain * dict (list R)) :=
  let agg := aggregate_matches matches_list in
  let players := sorted (players agg) in
  let current_ratings := map (fun p => (p, 0)) players in
  bindS (liftS (log_posterior current_ratings (w agg) (n agg) prior_std))
        (fun current_log_prob =>
  let samples := map (fun p => (p, @nil R)) players in
  foldS (mcmc_iteration players (w agg) (n agg) burn_in thin
                        proposal_std prior_std)
        (seq 0 (n_samples + burn_in))
        (mkChain current_ratings current_log_prob 0 0, samples)).

Definition mcmc_bradley_terry (matches_list : list game)
  (n_samples burn_in thin : nat) (proposal_std prior_std : R)
  : sampler mcmc_output :=
  let players := sorted (players (aggregate_matches matches_list)) in
  match players with
  | [] => retS EmptyDict
  | _ :: _ =>
      bindS (mcmc_chain matches_list n_samples burn_in thin
                        proposal_std prior_std) (fun st =>
      bindS (liftS (summarize players (snd st))) (fun s =>
      retS (Results s)))
  end.

End Sampler.

(** ** [ratings_to_elo] and [log_base] ([bt_rating.py], lines 131-145) *)

Definition ratings_to_elo (ratings : dict R) (scale base : R)
  : result (dict R) :=
  l <- pylog base ;;
  factor <- pydiv scale l ;;
  Ok (map (fun e : player * R => let '(i, r) := e in (i, factor * r)) ratings).

Definition default_scale : R := 400.
Definition default_base : R := 10.

Definition log_base (x : R) : result R := pylog x.

(** ** [calculate_win_probabilities] ([app_.py], lines 22-46) *)

(** Lines 37-44: the row of [p1], filled by the inner loop. *)
Definition win_row (ratings : dict R) (players : list player) (p1 : player)
  : result (dict R) :=
  foldM (fun row p2 =>
           if Nat.eqb p1 p2 then Ok (setitem row p2 (1 / 2))
           else r1 <- getitem ratings p1 ;;
                r2 <- getitem ratings p2 ;;
                prob <- pydiv 1 (1 + exp (- (r1 - r2))) ;;
                Ok (setitem row p2 prob))
        players [].

Definition calculate_win_probabilities (ratings : dict R)
  : result (dict (dict R)) :=
  let players := keys ratings in
  foldM (fun win_probs p1 =>
           row <- win_row ratings players p1 ;;
           Ok (setitem win_probs p1 row))
        players [].

(** ** Reading matches from CSV rows

    [load_matches_from_csv] ([bt_rating.py], lines 148-192) and the upload
    handler ([app_.py], lines 81-104) both start from [rows], the list of
    rows [csv.reader] yields; opening and parsing the file is the standard
    library's work and the model starts at [rows].  A cell is a string;
    [str.strip] is the interpreter's and is a parameter.  A column given as an
    [int] is taken non-negative. *)

Inductive column : Type :=
| ColName (name : String.string)
| ColIndex (k : nat).

(** [header.index(name)]. *)
Fixpoint list_index (name : String.string) (header : list String.string)
  : result nat :=
  match header with
  | [] => Raise ValueError
  | c :: header' =>
      if String.eqb c name then Ok 0%nat
      else k <- list_index name header' ;; Ok (S k)
  end.

(** Truth value of a string: non-empty. *)
Definition nonempty (s : String.string) : bool :=
  match s with
  | String.EmptyString => false
  | String.String _ _ => true
  end.

Section Rows.

Variable strip : String.string -> String.string.

(** The loop over the data rows ([bt_rating.py] lines 185-190, and again
    [app_.py] lines 95-101).  The length test keeps both indexings in
    range. *)
Definition collect_matches (data_rows : list (list String.string))
  (winner_idx loser_idx : nat) : list (String.string * String.string) :=
  fold_left (fun matches row =>
               if Nat.ltb (Nat.max winner_idx loser_idx) (length row) then
                 let winner := strip (nth winner_idx row String.EmptyString) in
                 let loser := strip (nth loser_idx row String.EmptyString) in
                 if nonempty winner && nonempty loser
                 then matches ++ [(winner, loser)]
                 else matches
               else matches)
            data_rows [].

Definition load_matches_from_csv (rows : list (list String.string))
  (winner_col loser_col : column) (has_header : bool)
  : result (list (String.string * String.string)) :=
  match rows with
  | [] => Ok []
  | header :: data_rows =>
      if has_header then
        winner_idx <- match winner_col with
                      | ColName name => list_index name header
                      | ColIndex k => Ok k
                      end ;;
        loser_idx <- match loser_col with
                     | ColName name => list_index name header
                     | ColIndex k => Ok k
                     end ;;
        Ok (collect_matches data_rows winner_idx loser_idx)
      else
        let winner_idx := match winner_col with
                          | ColIndex k => k
                          | ColName _ => 0%nat
                          end in
        let loser_idx := match loser_col with
                         | ColIndex k => k
                         | ColName _ => 1%nat
                         end in
        Ok (collect_matches rows winner_idx loser_idx)
  end.

(** What the upload handler does with the rows: a 400 response with one of
    three messages, a 500 response for an exception that escapes, or the
    match list it goes on with. *)
Inductive rejection : Type :=
| TooFewRows
| ColumnsNotFound
| NoValidMatches.

Inductive upload_parse : Type :=
| Rejected (why : rejection)
| ServerError (e : exn)
| Parsed (matches : list (String.string * String.string)).

(** [app_.py], lines 81-104. *)
Definition upload_matches (rows : list (list String.string))
  (winner_col loser_col : String.string) : upload_parse :=
  if Nat.ltb (length rows) 2 then Rejected TooFewRows
  else
    match rows with
    | [] => Rejected TooFewRows
    | header :: data_rows =>
        match (winner_idx <- list_index winner_col header ;;
               loser_idx <- list_index loser_col header ;;
               Ok (winner_idx, loser_idx)) with
        | Raise ValueError => Rejected ColumnsNotFound
        | Raise e => ServerError e
        | Ok (winner_idx, loser_idx) =>
            match collect_matches data_rows winner_idx loser_idx with
            | [] => Rejected NoValidMatches
            | m :: ms => Parsed (m :: ms)
            end
        end
    end.

End Rows.

(** [app_.py], lines 119-120: the step size the upload handler chooses and
    the trace it asks for. *)
Definition upload_step_size (matches : list game) : nat :=
  Nat.max 1 (length matches / 20).

Definition upload_convergence (matches : list game)
  : result (list convergence_point) :=
  analyze_rating_convergence matches (upload_step_size matches).

(** ** The isolated-player list of [fit_bradley_terry] (line 75)

    [[i for i in players if t[i] == 0 and not any(n[i].values())]]; it is
    only looked at to print a warning. *)
Definition isolated_players (players : list player) (t : dict nat)
  (n : dict (dict nat)) : result (list player) :=
  foldM (fun isolated i =>
           t_i <- getitem t i ;;
           if Nat.eqb t_i 0
              && negb (existsb (fun c => negb (Nat.eqb c 0))
                               (values (get_dd [] n i)))
           then Ok (isolated ++ [i])
           else Ok isolated)
        players [].

(** * Specification-side definitions *)

(** The tally invariant of one accumulator state. *)
Definition tally_balanced (a : tallies) : Prop :=
  forall i j, get2 (n a) i j = (get2 (w a) i j + get2 (w a) j i)%nat.

(** [{i: f(i) for i in l}]. *)
Definition tabulate {V : Type} (f : player -> V) (l : list player) : dict V :=
  map (fun i => (i, f i)) l.

(** Sum of a list of reals, right to left. *)
Definition Rsum (l : list R) : R := fold_right Rplus 0 l.

(** Sum over the entries [(j, c)] of a row of [c * g j]. *)
Definition wsum (g : player -> R) (row : dict nat) : R :=
  Rsum (map (fun e : player * nat => INR (snd e) * g (fst e)) row).

(** Sum over the matches player [i] took part in of [g] at the opponent. *)
Definition opponent_sum (g : player -> R) (matches : list game) (i : player) : R :=
  Rsum (map (fun m : game =>
               (if Nat.eqb (fst m) i then g (snd m) else 0)
               + (if Nat.eqb (snd m) i then g (fst m) else 0)) matches).

(** Number of matches won by [i]. *)
Definition wins_of (matches : list game) (i : player) : nat :=
  length (filter (fun m : game => Nat.eqb (fst m) i) matches).

(** Keys of every row of [n] are players. *)
Definition rows_closed (a : tallies) : Prop :=
  forall i j, In j (keys (get_dd [] (n a) i)) -> In j (players a).

(** *** One MM iteration on strength functions

    The quantities computed by [mm_iteration], written on a strength
    function [q] instead of a dict. *)

Definition denom_of (n : dict (dict nat)) (q : player -> R) (i : player) : R :=
  wsum (fun j => / (q i + q j)) (get_dd [] n i).

Definition update_of (tw : player -> nat) (n : dict (dict nat))
  (q : player -> R) (i : player) : R :=
  if Rlt_dec 0 (denom_of n q i) then INR (tw i) / denom_of n q i else q i.

Definition clamped_of (tw : player -> nat) (n : dict (dict nat))
  (q : player -> R) (i : player) : R :=
  Rmax (update_of tw n q i) epsilon.

Definition factor_of (P : list player) (c : player -> R) : R :=
  exp (- (Rsum (map (fun i => ln (c i)) P) / INR (length P))).

Definition next_of (P : list player) (tw : player -> nat) (n : dict (dict nat))
  (q : player -> R) (i : player) : R :=
  clamped_of tw n q i * factor_of P (clamped_of tw n q).

Definition max_rel_change_of (P : list player) (q q' : player -> R) : R :=
  fold_left (fun m i =>
               let rel_change := Rabs (q' i - q i) / Rmax (q i) epsilon in
               if Rlt_dec m rel_change then rel_change else m) P 0.

(** The loop of [fit_bradley_terry] on strength functions. *)
Fixpoint loop_of (iters : nat) (P : list player) (tw : player -> nat)
  (n : dict (dict nat)) (tol : R) (q : player -> R) : player -> R :=
  match iters with
  | O => q
  | S k =>
      let q' := next_of P tw n q in
      if Rlt_dec (max_rel_change_of P q q') tol then q'
      else loop_of k P tw n tol q'
  end.

Fixpoint trace_of (iters : nat) (P : list player) (tw : player -> nat)
  (n : dict (dict nat)) (tol : R) (q : player -> R) : list (player -> R) :=
  match iters with
  | O => []
  | S k =>
      let q' := next_of P tw n q in
      if Rlt_dec (max_rel_change_of P q q') tol then [q']
      else q' :: trace_of k P tw n tol q'
  end.

(** The sorted player list, the win totals and the final strengths of a fit. *)
Definition fit_players (matches : list game) : list player :=
  sorted (players (aggregate_matches matches)).

Definition fit_wins (matches : list game) (i : player) : nat :=
  sum_counts (values (get_dd [] (w (aggregate_matches matches)) i)).

Definition fit_strength (matches : list game) (max_iter : nat) (tol : R)
  : player -> R :=
  loop_of max_iter (fit_players matches) (fit_wins matches)
          (n (aggregate_matches matches)) tol (fun _ => 1).

Definition fit_rating (matches : list game) (max_iter : nat) (tol : R)
  (i : player) : R :=
  ln (fit_strength matches max_iter tol i)
  - Rsum (map (fun j => ln (fit_strength matches max_iter tol j))
              (fit_players matches))
    / INR (length (fit_players matches)).

(** [mean(d.values())]. *)
Definition mean_of (d : dict R) : R := Rsum (values d) / INR (length d).

(** The prefix sizes visited by [analyze_rating_convergence]: the multiples
    of [step_size] up to the length, then the length itself when it is not
    one of them. *)
Definition prefix_sizes (len step_size : nat) : list nat :=
  map (fun k => (k * step_size)%nat) (seq 1 (len / step_size))
  ++ (if Nat.eqb (len mod step_size) 0 then [] else [len]).

(** A trace point holds the ratings fitted on the prefix of its size. *)
Definition fitted_on_prefix (matches : list game) (pt : convergence_point)
  : Prop :=
  exists strengths,
    fit_bradley_terry (firstn (num_matches pt) matches)
                      default_max_iter default_tol
    = Ok (ratings pt, strengths).

(** Every key of a nested dict, outer or inner, is in [P]. *)
Definition keys_within (d : dict (dict nat)) (P : list player) : Prop :=
  forall i row, In (i, row) d ->
    In i P /\ forall j, In j (keys row) -> In j P.

(** The [k]-th retained sample as a vector over the players. *)
Definition sample_vector (P : list player) (kept : dict (list R)) (k : nat)
  : list R :=
  map (fun i => nth k (get_dd [] kept i) 0) P.

(** Number of matches in which [i] beat [j]. *)
Definition games_won (matches : list game) (i j : player) : nat :=
  length (filter (fun m : game => Nat.eqb (fst m) i && Nat.eqb (snd m) j)
                 matches).

(** *** The Bradley-Terry model

    [P(i beats j) = s_i / (s_i + s_j)]; the log-likelihood of a match list is
    the sum over its matches of the log-probability of the recorded
    outcome. *)
Definition bt_log_likelihood (matches : list game) (s : player -> R) : R :=
  Rsum (map (fun m : game => ln (s (fst m) / (s (fst m) + s (snd m)))) matches).

(** Strength function of a dict of strengths. *)
Definition strength_fn (p : dict R) (i : player) : R := get_dd 0 p i.

(** Independent Gaussian log-prior, mean 0 and standard deviation
    [prior_std], on every rating (up to the additive constant). *)
Definition gaussian_log_prior (log_ratings : dict R) (prior_std : R) : R :=
  Rsum (map (fun r => - ((1 / 2) * (r / prior_std) ^ 2)) (values log_ratings)).

(** The log-posterior of the spec: the likelihood of the matches at
    strengths [exp(rating)] plus the prior. *)
Definition bt_log_posterior (matches : list game) (log_ratings : dict R)
  (prior_std : R) : R :=
  bt_log_likelihood matches (fun i => exp (get_dd 0 log_ratings i))
  + gaussian_log_prior log_ratings prior_std.

(** *** Invariants of the sampler *)

(** The current ratings hold exactly one entry per player, in order. *)
Definition shaped (P : list player) (st : chain) : Prop :=
  exists f, current_ratings st = tabulate f P.

(** The retained samples: one list per player, all of one length, and every
    sample vector sums to zero. *)
Definition samples_centered (P : list player) (kept : dict (list R)) : Prop :=
  exists (S : player -> list R) (m : nat),
    kept = tabulate S P
    /\ (forall i, In i P -> length (S i) = m)
    /\ forall k, Rsum (map (fun i => nth k (S i) 0) P) = 0.

(** *** One sweep, as the spec words it

    For each player in order: propose [r_i + Normal(0, proposal_std)],
    compute the difference of log-posteriors, accept (replace the rating and
    the current log-posterior) iff [log(Uniform(0,1))] is below it; the
    state left by one player is the state the next one starts from. *)
Section SweepSpec.

Variable G : Type.
Variable np : numpy G.
Variable logpost : dict R -> result R.
Variable proposal_std : R.


End SweepSpec.

(** *** A concrete generator for examples

    The state counts the draws made so far.  Every uniform draw is [1/2];
    the normal draw made at state [4] is [loc + scale], every other one is
    [loc]. *)
Definition counting_numpy : numpy nat :=
  mkNumpy (fun loc scale g =>
             (if Nat.eqb g 4 then loc + scale else loc, S g))
          (fun g => (1 / 2, S g))
          (fun arr => Rsum arr / INR (length arr))
          (fun arr => nth (length arr / 2) arr 0)
          (fun arr => 0)
          (fun arr q => nth 0 arr 0).

(** [mean(l)]. *)
Definition mean_list (l : list R) : R := Rsum l / INR (length l).

(** *** A two-player example for the sampler

    One match, player 0 beat player 1; [pair_log_posterior a b] is the value
    [log_posterior] computes there at ratings [a] and [b] with
    [prior_std = 2]. *)
Definition pair_wins : dict (dict nat) := [(0, [(1, 1)])]%nat.
Definition pair_matches : dict (dict nat) := [(0, [(1, 1)]); (1, [(0, 1)])]%nat.

Definition pair_log_posterior (a b : R) : R :=
  let log_sum := Rmax a b + ln (exp (a - Rmax a b) + exp (b - Rmax a b)) in
  0 + INR 1 * (a - log_sum) + IZR (Z.of_nat 1 - Z.of_nat 1) * (b - log_sum)
  - 1 / 2 * (a / 2) ^ 2 - 1 / 2 * (b / 2) ^ 2.

(** *** A star tournament: players [1 .. K] each beat player [0] once. *)
Definition star (K : nat) : list game := map (fun j => (S j, 0%nat)) (seq 0 K).

(** The largest finite double, [sys.float_info.max]:
    [(2^53 - 1) * 2^971]. *)
Definition float_max : R := IZR ((2 ^ 53 - 1) * 2 ^ 971).

(** One player who beat two others once each: [[(A, B), (A, C)]]. *)
Definition two_wins : list game := [(0, 1); (0, 2)]%nat.

(** No match of the list has its reverse in the list: no two players have
    beaten each other (and nobody played against itself). *)
Definition no_reciprocated (matches : list game) : bool :=
  forallb (fun m : game =>
             negb (existsb (fun m' : game =>
                              Nat.eqb (fst m') (snd m) && Nat.eqb (snd m') (fst m))
                           matches))
          matches.

(** Sum over all entries [(i, (j, c))] of a nested dict of [c * g i j]. *)
Definition wsum2 (g : player -> player -> R) (d : dict (dict nat)) : R :=
  Rsum (map (fun e : player * dict nat => wsum (g (fst e)) (snd e)) d).

(** Keys are distinct at both levels of a nested dict. *)
Definition distinct_keys (d : dict (dict nat)) : Prop :=
  NoDup (keys d) /\ forall i row, In (i, row) d -> NoDup (keys row).

(** Every count stored in a nested dict is at least one. *)
Definition counts_positive (d : dict (dict nat)) : Prop :=
  forall i row j c, In (i, row) d -> In (j, c) row -> (1 <= c)%nat.

(** A trace point whose change is a number, and not negative. *)
Definition finite_change (pt : convergence_point) : Prop :=
  exists c, max_rating_change pt = Finite c /\ 0 <= c.

(** [d[i][j]] on a plain nested dict. *)
Definition getitem2 {V : Type} (d : dict (dict V)) (i j : player) : result V :=
  row <- getitem d i ;; getitem row j.

(** The entry [calculate_win_probabilities] stores for the pair [(p1, p2)],
    as a function of the ratings. *)
Definition win_probability_of (r : player -> R) (p1 p2 : player) : R :=
  if Nat.eqb p1 p2 then 1 / 2 else 1 / (1 + exp (- (r p1 - r p2))).

(** A data row the loop over the CSV rows keeps: long enough, and both
    cells non-empty once stripped; and the match it yields. *)
Definition valid_row (strip : String.string -> String.string)
  (winner_idx loser_idx : nat) (row : list String.string) : bool :=
  Nat.ltb (Nat.max winner_idx loser_idx) (length row)
  && (nonempty (strip (nth winner_idx row String.EmptyString))
      && nonempty (strip (nth loser_idx row String.EmptyString))).

Definition row_match (strip : String.string -> String.string)
  (winner_idx loser_idx : nat) (row : list String.string)
  : String.string * String.string :=
  (strip (nth winner_idx row String.EmptyString),
   strip (nth loser_idx row String.EmptyString)).

(** A column given by a name the header does not hold. *)
Definition column_missing (c : column) (header : list String.string) : Prop :=
  match c with
  | ColName name => ~ In name header
  | ColIndex _ => False
  end.

(** [str.strip] on cells whose only white space is the blank; for
    examples. *)
Definition blank : Ascii.ascii :=
  Ascii.Ascii false false false false false true false false.

Fixpoint drop_blanks (l : list Ascii.ascii) : list Ascii.ascii :=
  match l with
  | [] => []
  | c :: l' => if Ascii.eqb c blank then drop_blanks l' else l
  end.

Definition strip_blanks (s : String.string) : String.string :=
  String.string_of_list_ascii
    (rev (drop_blanks (rev (drop_blanks (String.list_ascii_of_string s))))).

(** A small file: a header, two good rows, a short row and a row with an
    empty loser. *)
Definition sample_rows : list (list String.string) :=
  [["winner"; "loser"]; [" ann"; "bob "]; ["cid"]; ["bob"; "  "];
   ["cid"; "ann"]]%string.

(** The first loop of [log_posterior] (lines 30-42): the likelihood part. *)
Definition likelihood_part (log_ratings : dict R)
  (wins matches : dict (dict nat)) : result R :=
  foldM (fun log_prob (ei : player * dict nat) =>
           let '(i, row) := ei in
           foldM (fun log_prob (ej : player * nat) =>
                    let '(j, w_ij) := ej in
                    let n_ij := get2 matches i j in
                    if Nat.ltb 0 n_ij then
                      let w_ji := (Z.of_nat n_ij - Z.of_nat w_ij)%Z in
                      r_i <- getitem log_ratings i ;;
                      r_j <- getitem log_ratings j ;;
                      let max_r := Rmax r_i r_j in
                      l <- pylog (exp (r_i - max_r) + exp (r_j - max_r)) ;;
                      let log_sum := max_r + l in
                      Ok (log_prob + INR w_ij * (r_i - log_sum)
                                   + IZR w_ji * (r_j - log_sum))
                    else Ok log_prob)
                 row log_prob)
        wins 0.

(** Whether [iteration] passes the test of line 118 of
    [mcmc_bradley_terry], and how many of the first [k] iterations do. *)
Definition keeps_sample (burn_in thin iteration : nat) : bool :=
  Nat.leb burn_in iteration && Nat.eqb ((iteration - burn_in) mod thin) 0.

Definition kept_count (burn_in thin k : nat) : nat :=
  length (filter (keeps_sample burn_in thin) (seq 0 k)).

(** The retained samples: one list of [m] values per player. *)
Definition samples_count (P : list player) (kept : dict (list R)) (m : nat)
  : Prop :=
  exists S : player -> list R,
    kept = tabulate S P /\ forall i, In i P -> length (S i) = m.

(** A generator whose uniform draws are all [0.0], the lower end of the
    range of [np.random.random]. *)
Definition stalled_numpy : numpy nat :=
  mkNumpy (fun loc scale g => (loc, S g))
          (fun g => (0, S g))
          (fun arr => Rsum arr / INR (length arr))
          (fun arr => nth (length arr / 2) arr 0)
          (fun arr => 0)
          (fun arr q => nth 0 arr 0).

(** * Properties *)

(** ** The error monad *)

Lemma mapM_ok {A B : Type} (f : A -> result B) (g : A -> B) (l : list A) :
  (forall x, In x l -> f x = Ok (g x)) -> mapM f l = Ok (map g l).
Proof.
  induction l as [|x l IH]; intros H; simpl; [reflexivity|].
  rewrite (H x (or_introl eq_refl)). simpl.
  rewrite IH by (intros y Hy; apply H; right; exact Hy).
  reflexivity.
Qed.

Lemma foldM_ext {A B : Type} (f g : A -> B -> result A) (l : list B) (a : A) :
  (forall a x, In x l -> f a x = g a x) -> foldM f l a = foldM g l a.
Proof.
  revert a. induction l as [|x l IH]; intros a H; simpl; [reflexivity|].
  rewrite (H a x (or_introl eq_refl)).
  destruct (g a x) as [a'|e]; simpl; [|reflexivity].
  apply IH. intros a0 y Hy. apply H. right. exact Hy.
Qed.

(** ** Dictionaries *)

Lemma lookup_setitem_eq {V : Type} (d : dict V) k v :
  lookup (setitem d k v) k = Some v.
Proof.
  induction d as [|[k' v'] d IH]; simpl.
  - rewrite Nat.eqb_refl. reflexivity.
  - destruct (Nat.eqb k' k) eqn:E; simpl; rewrite E; auto.
Qed.

Lemma lookup_setitem_neq {V : Type} (d : dict V) k k' v :
  k <> k' -> lookup (setitem d k v) k' = lookup d k'.
Proof.
  intros Hne. induction d as [|[k0 v0] d IH]; simpl.
  - destruct (Nat.eqb_spec k k'); [contradiction|reflexivity].
  - destruct (Nat.eqb_spec k0 k) as [->|Hk]; simpl.
    + destruct (Nat.eqb_spec k k'); [contradiction|reflexivity].
    + rewrite IH. reflexivity.
Qed.

Lemma get_dd_setitem {V : Type} (dflt : V) (d : dict V) k k' v :
  get_dd dflt (setitem d k v) k' = if Nat.eqb k k' then v else get_dd dflt d k'.
Proof.
  unfold get_dd. destruct (Nat.eqb_spec k k') as [->|Hne].
  - rewrite lookup_setitem_eq. reflexivity.
  - rewrite lookup_setitem_neq by exact Hne. reflexivity.
Qed.

Lemma keys_setitem_in {V : Type} (d : dict V) k v :
  In k (keys d) -> keys (setitem d k v) = keys d.
Proof.
  induction d as [|[k0 v0] d IH]; simpl; intros H; [contradiction|].
  destruct (Nat.eqb_spec k0 k) as [->|Hk]; simpl; [reflexivity|].
  f_equal. apply IH. destruct H; [contradiction|assumption].
Qed.

Lemma keys_setitem_notin {V : Type} (d : dict V) k v :
  ~ In k (keys d) -> keys (setitem d k v) = keys d ++ [k].
Proof.
  induction d as [|[k0 v0] d IH]; simpl; intros H; [reflexivity|].
  destruct (Nat.eqb_spec k0 k) as [->|Hk]; simpl.
  - exfalso. apply H. left. reflexivity.
  - f_equal. apply IH. intros Hin. apply H. right. exact Hin.
Qed.

Lemma lookup_in_keys {V : Type} (d : dict V) k :
  In k (keys d) -> exists v, lookup d k = Some v.
Proof.
  induction d as [|[k0 v0] d IH]; simpl; intros H; [contradiction|].
  destruct (Nat.eqb_spec k0 k) as [->|Hk]; [eauto|].
  apply IH. destruct H; [contradiction|assumption].
Qed.

Lemma lookup_notin_keys {V : Type} (d : dict V) k :
  ~ In k (keys d) -> lookup d k = None.
Proof.
  induction d as [|[k0 v0] d IH]; simpl; intros H; [reflexivity|].
  destruct (Nat.eqb_spec k0 k) as [->|Hk].
  - exfalso. apply H. left. reflexivity.
  - apply IH. intros Hin. apply H. right. exact Hin.
Qed.

Lemma lookup_some_in {V : Type} (d : dict V) k v :
  lookup d k = Some v -> In (k, v) d.
Proof.
  induction d as [|[k0 v0] d IH]; simpl; intros H; [discriminate|].
  destruct (Nat.eqb_spec k0 k) as [->|Hk].
  - inversion H. left. reflexivity.
  - right. apply IH. exact H.
Qed.

Lemma lookup_map_const {V : Type} (f : player -> V) (l : list player) k :
  In k l -> lookup (map (fun i => (i, f i)) l) k = Some (f k).
Proof.
  induction l as [|x l IH]; simpl; intros H; [contradiction|].
  destruct (Nat.eqb_spec x k) as [->|Hk]; [reflexivity|].
  apply IH. destruct H; [contradiction|assumption].
Qed.

Lemma keys_map_const {V : Type} (f : player -> V) (l : list player) :
  keys (map (fun i => (i, f i)) l) = l.
Proof.
  unfold keys. rewrite map_map. simpl. apply map_id.
Qed.

(** ** Tallies *)

Lemma get_dd_incr2 (d : dict (dict nat)) a b i :
  get_dd [] (incr2 d a b) i =
  if Nat.eqb a i then incr (get_dd [] d i) b else get_dd [] d i.
Proof.
  unfold incr2. rewrite get_dd_setitem.
  destruct (Nat.eqb_spec a i) as [->|]; reflexivity.
Qed.

Lemma get_dd_incr (row : dict nat) b j :
  get_dd 0%nat (incr row b) j =
  (get_dd 0%nat row j + if Nat.eqb b j then 1 else 0)%nat.
Proof.
  unfold incr. rewrite get_dd_setitem.
  destruct (Nat.eqb_spec b j) as [->|]; lia.
Qed.

Lemma get2_incr2 (d : dict (dict nat)) a b i j :
  get2 (incr2 d a b) i j =
  (get2 d i j + if Nat.eqb a i && Nat.eqb b j then 1 else 0)%nat.
Proof.
  unfold get2. rewrite get_dd_incr2.
  destruct (Nat.eqb a i); simpl; [apply get_dd_incr|lia].
Qed.

Lemma aggregate_step_balanced a m :
  tally_balanced a -> tally_balanced (aggregate_step a m).
Proof.
  intros H i j. destruct m as [winner loser]. simpl.
  rewrite !get2_incr2, (H i j).
  destruct (Nat.eqb winner i), (Nat.eqb loser j),
           (Nat.eqb loser i), (Nat.eqb winner j); simpl; lia.
Qed.

Lemma aggregate_from_balanced matches a :
  tally_balanced a -> tally_balanced (aggregate_from a matches).
Proof.
  revert a. induction matches as [|m ms IH]; intros a H; simpl; [exact H|].
  apply IH. apply aggregate_step_balanced. exact H.
Qed.

(** C10: every recorded game between [i] and [j] is a win for exactly one of
    them: [n[i][j] = w[i][j] + w[j][i]] for all players, hence
    [0 <= w[i][j] <= n[i][j]], and the loser-side count is
    [n[i][j] - w[i][j]]. *)
Theorem aggregate_matches_balanced (matches : list game) (i j : player) :
  let a := aggregate_matches matches in
  get2 (n a) i j = (get2 (w a) i j + get2 (w a) j i)%nat
  /\ (0 <= get2 (w a) i j <= get2 (n a) i j)%nat
  /\ (Z.of_nat (get2 (n a) i j) - Z.of_nat (get2 (w a) i j))%Z
     = Z.of_nat (get2 (w a) j i).
Proof.
  intros a.
  assert (H : tally_balanced a).
  { apply aggregate_from_balanced. intros x y. reflexivity. }
  specialize (H i j). repeat split; lia.
Qed.

(** ** Dictionaries built over a list of keys *)

Lemma lookup_app {V : Type} (d1 d2 : dict V) k :
  lookup (d1 ++ d2) k =
  match lookup d1 k with Some v => Some v | None => lookup d2 k end.
Proof.
  induction d1 as [|[k0 v0] d1 IH]; simpl; [reflexivity|].
  destruct (Nat.eqb k0 k); [reflexivity|exact IH].
Qed.

Lemma setitem_app_notin {V : Type} (d1 d2 : dict V) k v :
  ~ In k (keys d1) -> setitem (d1 ++ d2) k v = d1 ++ setitem d2 k v.
Proof.
  induction d1 as [|[k0 v0] d1 IH]; simpl; intros H; [reflexivity|].
  destruct (Nat.eqb_spec k0 k) as [->|Hk].
  - exfalso. apply H. left. reflexivity.
  - f_equal. apply IH. intros Hin. apply H. right. exact Hin.
Qed.

Lemma keys_tabulate {V : Type} (f : player -> V) l : keys (tabulate f l) = l.
Proof. apply keys_map_const. Qed.

Lemma values_tabulate {V : Type} (f : player -> V) l :
  values (tabulate f l) = map f l.
Proof. unfold values, tabulate. rewrite map_map. reflexivity. Qed.

Lemma length_tabulate {V : Type} (f : player -> V) l :
  length (tabulate f l) = length l.
Proof. apply length_map. Qed.

Lemma lookup_tabulate {V : Type} (f : player -> V) l k :
  In k l -> lookup (tabulate f l) k = Some (f k).
Proof. apply lookup_map_const. Qed.

Lemma getitem_tabulate {V : Type} (f : player -> V) l k :
  In k l -> getitem (tabulate f l) k = Ok (f k).
Proof. intros H. unfold getitem. rewrite lookup_tabulate by exact H. reflexivity. Qed.

Lemma tabulate_ext {V : Type} (f g : player -> V) l :
  (forall i, In i l -> f i = g i) -> tabulate f l = tabulate g l.
Proof. intros H. apply map_ext_in. intros i Hi. rewrite H by exact Hi. reflexivity. Qed.

(** A loop [for i in l: d[i] = f(i)] over fresh keys builds the table of [f]. *)
Lemma foldM_build {V : Type} (f : player -> result V) (g : player -> V)
  (l : list player) (d : dict V) :
  NoDup l -> (forall i, In i l -> ~ In i (keys d)) ->
  (forall i, In i l -> f i = Ok (g i)) ->
  foldM (fun d i => v <- f i ;; Ok (setitem d i v)) l d
  = Ok (d ++ tabulate g l).
Proof.
  revert d. induction l as [|i l IH]; intros d Hnd Hfresh Hf; simpl.
  - rewrite app_nil_r. reflexivity.
  - rewrite (Hf i (or_introl eq_refl)). simpl.
    inversion Hnd as [|? ? Hi Hnd']; subst.
    rewrite IH; try assumption.
    + replace (setitem d i (g i)) with (d ++ [(i, g i)]).
      * rewrite <- app_assoc. reflexivity.
      * rewrite <- (app_nil_r d) at 2.
        rewrite setitem_app_notin by (apply Hfresh; left; reflexivity).
        reflexivity.
    + intros j Hj Hin.
      destruct (Nat.eq_dec i j) as [->|Hne]; [contradiction|].
      assert (Hk : In j (keys d)).
      { destruct (in_dec Nat.eq_dec i (keys d)) as [Hi'|Hi'].
        - rewrite keys_setitem_in in Hin by exact Hi'. exact Hin.
        - rewrite keys_setitem_notin in Hin by exact Hi'.
          apply in_app_or in Hin. destruct Hin as [Hin|[Hin|[]]];
            [exact Hin|contradiction]. }
      exact (Hfresh j (or_intror Hj) Hk).
    + intros j Hj. apply Hf. right. exact Hj.
Qed.

(** A loop [for i in l: d[i] = h(i, d[i])] over the keys of [d], in order,
    rewrites every entry by [h]. *)
Lemma foldM_adjust_gen {V : Type} (h : player -> V -> V)
  (f : player -> V) (done : dict V) (l : list player) :
  NoDup l -> (forall i, In i l -> ~ In i (keys done)) ->
  foldM (fun d i => v <- getitem d i ;; Ok (setitem d i (h i v)))
        l (done ++ tabulate f l)
  = Ok (done ++ tabulate (fun i => h i (f i)) l).
Proof.
  revert done. induction l as [|i l IH]; intros done Hnd Hfresh; simpl.
  - reflexivity.
  - inversion Hnd as [|? ? Hi Hnd']; subst.
    assert (Hdone : ~ In i (keys done)) by (apply Hfresh; left; reflexivity).
    unfold getitem at 1. rewrite lookup_app, (lookup_notin_keys _ _ Hdone).
    simpl. rewrite Nat.eqb_refl. simpl.
    rewrite setitem_app_notin by exact Hdone. simpl. rewrite Nat.eqb_refl.
    change (done ++ (i, h i (f i)) :: tabulate f l)
      with (done ++ [(i, h i (f i))] ++ tabulate f l).
    rewrite app_assoc, IH; try assumption.
    + rewrite <- app_assoc. reflexivity.
    + intros j Hj Hin. unfold keys in Hin. rewrite map_app in Hin.
      apply in_app_or in Hin. destruct Hin as [Hin|[Hin|[]]].
      * exact (Hfresh j (or_intror Hj) Hin).
      * simpl in Hin. subst j. contradiction.
Qed.

Lemma foldM_adjust {V : Type} (h : player -> V -> V) (f : player -> V)
  (l : list player) :
  NoDup l ->
  foldM (fun d i => v <- getitem d i ;; Ok (setitem d i (h i v)))
        l (tabulate f l)
  = Ok (tabulate (fun i => h i (f i)) l).
Proof.
  intros Hnd. apply (foldM_adjust_gen h f [] Hnd). intros i _ [].
Qed.

(** ** Sums *)

Lemma fold_left_Rplus_acc (l : list R) (a : R) :
  fold_left Rplus l a = a + Rsum l.
Proof.
  revert a. induction l as [|x l IH]; intros a; simpl; [lra|].
  rewrite IH. lra.
Qed.

Lemma pysum_Rsum (l : list R) : pysum l = Rsum l.
Proof. unfold pysum. rewrite fold_left_Rplus_acc. lra. Qed.

Lemma Rsum_cons (x : R) (l : list R) : Rsum (x :: l) = x + Rsum l.
Proof. reflexivity. Qed.

Lemma Rsum_perm (l1 l2 : list R) : Permutation l1 l2 -> Rsum l1 = Rsum l2.
Proof. induction 1; simpl; lra. Qed.

Lemma Rsum_map_plus {A : Type} (f g : A -> R) (l : list A) :
  Rsum (map (fun x => f x + g x) l) = Rsum (map f l) + Rsum (map g l).
Proof. induction l as [|x l IH]; simpl; [lra|rewrite IH; lra]. Qed.

Lemma Rsum_map_minus {A : Type} (f g : A -> R) (l : list A) :
  Rsum (map (fun x => f x - g x) l) = Rsum (map f l) - Rsum (map g l).
Proof. induction l as [|x l IH]; simpl; [lra|rewrite IH; lra]. Qed.

Lemma Rsum_map_scal {A : Type} (c : R) (f : A -> R) (l : list A) :
  Rsum (map (fun x => c * f x) l) = c * Rsum (map f l).
Proof. induction l as [|x l IH]; simpl; [lra|rewrite IH; lra]. Qed.

Lemma Rsum_map_const {A : Type} (c : R) (l : list A) :
  Rsum (map (fun _ => c) l) = INR (length l) * c.
Proof.
  induction l as [|x l IH]; [simpl; lra|].
  cbn [map Rsum fold_right length]. fold (Rsum (map (fun _ : A => c) l)).
  rewrite IH, S_INR. lra.
Qed.

Lemma Rsum_map_ext {A : Type} (f g : A -> R) (l : list A) :
  (forall x, In x l -> f x = g x) -> Rsum (map f l) = Rsum (map g l).
Proof. intros H. f_equal. apply map_ext_in. exact H. Qed.

Lemma Rsum_map_le {A : Type} (f g : A -> R) (l : list A) :
  (forall x, In x l -> f x <= g x) -> Rsum (map f l) <= Rsum (map g l).
Proof.
  induction l as [|x l IH]; intros H; simpl; [lra|].
  assert (f x <= g x) by (apply H; left; reflexivity).
  assert (Rsum (map f l) <= Rsum (map g l))
    by (apply IH; intros y Hy; apply H; right; exact Hy).
  unfold Rsum in *. lra.
Qed.

Lemma Rsum_map_nonneg {A : Type} (f : A -> R) (l : list A) :
  (forall x, In x l -> 0 <= f x) -> 0 <= Rsum (map f l).
Proof.
  intros H. replace 0 with (Rsum (map (fun _ : A => 0) l)).
  - apply Rsum_map_le. exact H.
  - rewrite Rsum_map_const. lra.
Qed.

Lemma Rsum_map_zero {A : Type} (f : A -> R) (l : list A) :
  (forall x, In x l -> f x = 0) -> Rsum (map f l) = 0.
Proof.
  intros H. rewrite (Rsum_map_ext f (fun _ => 0) l H), Rsum_map_const. lra.
Qed.

(** Exchanging two finite sums. *)
Lemma Rsum_swap {A B : Type} (f : A -> B -> R) (la : list A) (lb : list B) :
  Rsum (map (fun a => Rsum (map (fun b => f a b) lb)) la)
  = Rsum (map (fun b => Rsum (map (fun a => f a b) la)) lb).
Proof.
  induction la as [|a la IH]; simpl.
  - rewrite Rsum_map_const. lra.
  - fold (Rsum (map (fun a0 => Rsum (map (fun b => f a0 b) lb)) la)).
    rewrite IH. rewrite <- Rsum_map_plus. reflexivity.
Qed.

(** Summing an indicator over a duplicate-free list picks one term. *)
Lemma Rsum_indicator (h : player -> R) (l : list player) (k : player) :
  NoDup l -> In k l ->
  Rsum (map (fun i => if Nat.eqb k i then h i else 0) l) = h k.
Proof.
  induction l as [|x l IH]; intros Hnd Hin; [contradiction|].
  inversion Hnd as [|? ? Hx Hnd']; subst. simpl.
  fold (Rsum (map (fun i => if Nat.eqb k i then h i else 0) l)).
  destruct (Nat.eqb_spec k x) as [->|Hne].
  - rewrite Rsum_map_zero; [lra|]. intros y Hy.
    destruct (Nat.eqb_spec x y) as [->|]; [contradiction|reflexivity].
  - rewrite IH; [lra|assumption|].
    destruct Hin as [->|Hin]; [contradiction|exact Hin].
Qed.

(** ** Rows of the tallies as weighted sums *)

Lemma incr_cons k v (row : dict nat) b :
  incr ((k, v) :: row) b =
  if Nat.eqb k b then (k, (v + 1)%nat) :: row else (k, v) :: incr row b.
Proof.
  unfold incr, get_dd. simpl.
  destruct (Nat.eqb k b); reflexivity.
Qed.

Lemma wsum_incr (g : player -> R) (row : dict nat) b :
  wsum g (incr row b) = wsum g row + g b.
Proof.
  induction row as [|[k v] row IH].
  - unfold incr, wsum. simpl. lra.
  - rewrite incr_cons. destruct (Nat.eqb_spec k b) as [->|Hne].
    + unfold wsum. simpl. rewrite plus_INR. simpl. lra.
    + unfold wsum in *. simpl. unfold Rsum in *. rewrite IH. lra.
Qed.

Lemma keys_incr (row : dict nat) b j :
  In j (keys (incr row b)) -> j = b \/ In j (keys row).
Proof.
  unfold incr. intros H.
  destruct (in_dec Nat.eq_dec b (keys row)) as [Hb|Hb].
  - rewrite keys_setitem_in in H by exact Hb. right. exact H.
  - rewrite keys_setitem_notin in H by exact Hb.
    apply in_app_or in H. destruct H as [H|[H|[]]]; [right|left]; auto.
Qed.

Lemma wsum_row_step (g : player -> R) (d : dict (dict nat)) a b i :
  wsum g (get_dd [] (incr2 d a b) i)
  = wsum g (get_dd [] d i) + (if Nat.eqb a i then g b else 0).
Proof.
  rewrite get_dd_incr2. destruct (Nat.eqb a i); [apply wsum_incr|lra].
Qed.

Lemma wsum_n_from (g : player -> R) (matches : list game) (a : tallies) i :
  wsum g (get_dd [] (n (aggregate_from a matches)) i)
  = wsum g (get_dd [] (n a) i) + opponent_sum g matches i.
Proof.
  revert a. induction matches as [|[winner loser] ms IH]; intros a.
  - unfold opponent_sum. simpl. lra.
  - change (aggregate_from a ((winner, loser) :: ms))
      with (aggregate_from (aggregate_step a (winner, loser)) ms).
    rewrite IH. cbn [aggregate_step n].
    rewrite !wsum_row_step. unfold opponent_sum. cbn [map fst snd].
    rewrite Rsum_cons. lra.
Qed.

Lemma wsum_w_from (g : player -> R) (matches : list game) (a : tallies) i :
  wsum g (get_dd [] (w (aggregate_from a matches)) i)
  = wsum g (get_dd [] (w a) i)
    + Rsum (map (fun m : game => if Nat.eqb (fst m) i then g (snd m) else 0)
                matches).
Proof.
  revert a. induction matches as [|[winner loser] ms IH]; intros a.
  - simpl. lra.
  - change (aggregate_from a ((winner, loser) :: ms))
      with (aggregate_from (aggregate_step a (winner, loser)) ms).
    rewrite IH. cbn [aggregate_step w].
    rewrite wsum_row_step. cbn [map fst snd]. rewrite Rsum_cons. lra.
Qed.

(** [n[i]] weighs each opponent by the number of games played against it. *)
Lemma wsum_n (g : player -> R) (matches : list game) i :
  wsum g (get_dd [] (n (aggregate_matches matches)) i)
  = opponent_sum g matches i.
Proof.
  unfold aggregate_matches. rewrite wsum_n_from. unfold wsum. simpl. lra.
Qed.

Lemma sum_counts_acc (l : list nat) (a : nat) :
  fold_left Nat.add l a = (a + fold_left Nat.add l 0)%nat.
Proof.
  revert a. induction l as [|x l IH]; intros a; simpl; [lia|].
  rewrite IH, (IH x). lia.
Qed.

Lemma wsum_one (row : dict nat) :
  wsum (fun _ => 1) row = INR (sum_counts (values row)).
Proof.
  induction row as [|[k v] row IH]; [reflexivity|].
  unfold wsum, sum_counts in *. simpl.
  rewrite sum_counts_acc, plus_INR. unfold Rsum in *. rewrite <- IH. simpl. lra.
Qed.

Lemma Rsum_filter_count {A : Type} (b : A -> bool) (l : list A) :
  Rsum (map (fun x => if b x then 1 else 0) l) = INR (length (filter b l)).
Proof.
  induction l as [|x l IH]; [reflexivity|].
  simpl. unfold Rsum in *. rewrite IH.
  destruct (b x); [|lra].
  cbn [length]. rewrite S_INR. lra.
Qed.

(** [t[i]] is the number of matches won by [i]. *)
Lemma total_wins_count (matches : list game) i :
  sum_counts (values (get_dd [] (w (aggregate_matches matches)) i))
  = wins_of matches i.
Proof.
  apply INR_eq. rewrite <- wsum_one. unfold aggregate_matches.
  rewrite wsum_w_from. unfold wins_of. rewrite <- Rsum_filter_count.
  unfold wsum. simpl. lra.
Qed.

(** ** The player set *)

Lemma set_add_in (s : list player) x y :
  In y (set_add s x) <-> y = x \/ In y s.
Proof.
  induction s as [|z s IH]; simpl.
  - intuition.
  - destruct (Nat.eqb_spec z x) as [->|Hne]; simpl.
    + intuition.
    + rewrite IH. intuition.
Qed.

Lemma set_add_nodup (s : list player) x : NoDup s -> NoDup (set_add s x).
Proof.
  induction s as [|z s IH]; simpl; intros H.
  - constructor; [intros []|constructor].
  - destruct (Nat.eqb_spec z x) as [->|Hne]; [exact H|].
    inversion H as [|? ? Hz Hs]; subst. constructor.
    + rewrite set_add_in. intros [->|Hin]; contradiction.
    + apply IH. exact Hs.
Qed.

Lemma players_from_in (matches : list game) (a : tallies) x :
  In x (players (aggregate_from a matches)) <->
  In x (players a) \/ exists m, In m matches /\ (x = fst m \/ x = snd m).
Proof.
  revert a. induction matches as [|[winner loser] ms IH]; intros a.
  - simpl. split; [auto|]. intros [H|[m [[] _]]]. exact H.
  - change (aggregate_from a ((winner, loser) :: ms))
      with (aggregate_from (aggregate_step a (winner, loser)) ms).
    rewrite IH. cbn [aggregate_step players]. rewrite !set_add_in. split.
    + intros [[->|[->|H]]|[m [Hm Hx]]].
      * right. exists (winner, loser). split; [left; reflexivity|right; reflexivity].
      * right. exists (winner, loser). split; [left; reflexivity|left; reflexivity].
      * left. exact H.
      * right. exists m. split; [right; exact Hm|exact Hx].
    + intros [H|[m [[<-|Hm] Hx]]].
      * left. right. right. exact H.
      * simpl in Hx. left. destruct Hx as [->| ->]; auto.
      * right. exists m. split; assumption.
Qed.

Lemma players_from_nodup (matches : list game) (a : tallies) :
  NoDup (players a) -> NoDup (players (aggregate_from a matches)).
Proof.
  revert a. induction matches as [|[winner loser] ms IH]; intros a H.
  - exact H.
  - apply IH. cbn [aggregate_step players]. apply set_add_nodup, set_add_nodup, H.
Qed.

Lemma players_in (matches : list game) x :
  In x (players (aggregate_matches matches)) <->
  exists m, In m matches /\ (x = fst m \/ x = snd m).
Proof.
  unfold aggregate_matches. rewrite players_from_in. simpl. intuition.
Qed.

Lemma players_nodup (matches : list game) :
  NoDup (players (aggregate_matches matches)).
Proof. apply players_from_nodup. constructor. Qed.

Lemma aggregate_step_rows_closed a m :
  rows_closed a -> rows_closed (aggregate_step a m).
Proof.
  intros H i j. destruct m as [winner loser]. cbn [aggregate_step n players].
  rewrite !set_add_in, !get_dd_incr2. intros Hin.
  assert (Hbase : In j (keys (get_dd [] (n a) i)) -> In j (players a))
    by apply H.
  destruct (Nat.eqb loser i), (Nat.eqb winner i);
    repeat (apply keys_incr in Hin; destruct Hin as [->|Hin]); auto.
Qed.

Lemma rows_closed_from (matches : list game) (a : tallies) :
  rows_closed a -> rows_closed (aggregate_from a matches).
Proof.
  revert a. induction matches as [|m ms IH]; intros a H; [exact H|].
  apply IH, aggregate_step_rows_closed, H.
Qed.

Lemma rows_closed_aggregate (matches : list game) :
  rows_closed (aggregate_matches matches).
Proof. apply rows_closed_from. intros i j []. Qed.

(** ** Sorting *)

Lemma insert_sorted_perm x l : Permutation (x :: l) (insert_sorted x l).
Proof.
  induction l as [|y l IH]; simpl; [reflexivity|].
  destruct (Nat.leb x y); [reflexivity|].
  rewrite perm_swap. constructor. exact IH.
Qed.

Lemma sorted_perm l : Permutation l (sorted l).
Proof.
  induction l as [|x l IH]; simpl; [reflexivity|].
  rewrite <- insert_sorted_perm. constructor. exact IH.
Qed.

Lemma sorted_in l x : In x (sorted l) <-> In x l.
Proof.
  split; apply Permutation_in; [symmetry|]; apply sorted_perm.
Qed.

Lemma sorted_nodup l : NoDup l -> NoDup (sorted l).
Proof. apply Permutation_NoDup, sorted_perm. Qed.

Lemma insert_sorted_comm x y l :
  insert_sorted x (insert_sorted y l) = insert_sorted y (insert_sorted x l).
Proof.
  induction l as [|z l IH]; simpl.
  - destruct (Nat.leb_spec x y), (Nat.leb_spec y x); try reflexivity.
    + assert (x = y) by lia. subst. reflexivity.
    + lia.
  - destruct (Nat.leb_spec y z), (Nat.leb_spec x z); simpl;
      repeat match goal with
             | |- context [Nat.leb ?a ?b] => destruct (Nat.leb_spec a b)
             end; try reflexivity; try lia.
    + assert (x = y) by lia. subst. reflexivity.
    + rewrite IH. reflexivity.
Qed.

(** [sorted] depends only on the elements. *)
Lemma sorted_perm_eq l l' : Permutation l l' -> sorted l = sorted l'.
Proof.
  induction 1; simpl.
  - reflexivity.
  - rewrite IHPermutation. reflexivity.
  - apply insert_sorted_comm.
  - congruence.
Qed.

(** ** One MM iteration *)

Lemma epsilon_pos : 0 < epsilon.
Proof.
  unfold epsilon. apply Rinv_0_lt_compat. apply IZR_lt.
  apply Z.pow_pos_nonneg; lia.
Qed.

Lemma pydiv_ok x y : y <> 0 -> pydiv x y = Ok (x / y).
Proof.
  intros H. unfold pydiv. destruct (Req_dec_T y 0); [contradiction|reflexivity].
Qed.

Lemma pylog_ok x : 0 < x -> pylog x = Ok (ln x).
Proof.
  intros H. unfold pylog. destruct (Rlt_dec 0 x); [reflexivity|contradiction].
Qed.

Lemma INR_length_nonzero {A : Type} (l : list A) : l <> [] -> INR (length l) <> 0.
Proof.
  destruct l; [intros H; contradiction|]. intros _. apply not_0_INR. discriminate.
Qed.

Section Iteration.

Variable P : list player.
Variable tw : player -> nat.
Variable n : dict (dict nat).
Variable q : player -> R.

Hypothesis P_nodup : NoDup P.
Hypothesis q_pos : forall i, In i P -> 0 < q i.
Hypothesis n_closed : forall i j, In i P -> In j (keys (get_dd [] n i)) -> In j P.

Lemma mm_denom_fold (i : player) (row : dict nat) (acc : R) :
  In i P -> (forall j, In j (keys row) -> In j P) ->
  foldM (fun denom (e : player * nat) =>
           let '(j, nij) := e in
           if Nat.leb nij 0 then Ok denom
           else p_i <- getitem (tabulate q P) i ;;
                p_j <- getitem (tabulate q P) j ;;
                d <- pydiv (INR nij) (p_i + p_j) ;;
                Ok (denom + d)) row acc
  = Ok (acc + wsum (fun j => / (q i + q j)) row).
Proof.
  intros Hi.
  match goal with |- _ -> foldM ?f _ _ = _ => set (step := f) end.
  assert (Hstep : forall denom j nij, In j P ->
            step denom (j, nij) = Ok (denom + INR nij * / (q i + q j))).
  { intros denom j nij Hj. unfold step.
    assert (Hsum : q i + q j <> 0).
    { pose proof (q_pos _ Hi). pose proof (q_pos _ Hj). lra. }
    destruct (Nat.leb_spec nij 0) as [Hz|Hz].
    - assert (nij = 0)%nat by lia. subst nij. simpl. f_equal. lra.
    - rewrite !getitem_tabulate by assumption. cbn [bind].
      rewrite pydiv_ok by exact Hsum. reflexivity. }
  clearbody step.
  revert acc. induction row as [|[j nij] row IH]; intros acc Hrow.
  - unfold wsum. simpl. f_equal. lra.
  - cbn [foldM]. rewrite Hstep by (apply Hrow; left; reflexivity).
    cbn [bind]. rewrite IH by (intros k Hk; apply Hrow; right; exact Hk).
    f_equal. unfold wsum. cbn [map fst snd]. rewrite Rsum_cons. lra.
Qed.

Lemma mm_denom_ok (i : player) :
  In i P -> mm_denom n (tabulate q P) i = Ok (denom_of n q i).
Proof.
  intros Hi. unfold mm_denom. rewrite mm_denom_fold.
  - unfold denom_of. f_equal. lra.
  - exact Hi.
  - intros j Hj. exact (n_closed i j Hi Hj).
Qed.

Lemma mm_player_ok (i : player) :
  In i P ->
  mm_player (tabulate tw P) n (tabulate q P) i = Ok (update_of tw n q i).
Proof.
  intros Hi. unfold mm_player. rewrite mm_denom_ok by exact Hi. cbn [bind].
  unfold mm_update, update_of.
  destruct (Rlt_dec 0 (denom_of n q i)) as [Hd|Hd].
  - rewrite getitem_tabulate by exact Hi. cbn [bind].
    apply pydiv_ok. lra.
  - apply getitem_tabulate. exact Hi.
Qed.

Lemma clamped_pos (i : player) : 0 < clamped_of tw n q i.
Proof.
  unfold clamped_of. pose proof epsilon_pos.
  pose proof (Rmax_r (update_of tw n q i) epsilon). lra.
Qed.


Lemma factor_pos (c : player -> R) : 0 < factor_of P c.
Proof. apply exp_pos. Qed.

Lemma next_pos (i : player) : 0 < next_of P tw n q i.
Proof. apply Rmult_lt_0_compat; [apply clamped_pos|apply factor_pos]. Qed.

Lemma rescale_all_gen (factor : R) (f : player -> R) (l : list player)
  (done : dict R) (m : R) :
  NoDup l -> (forall i, In i l -> In i P) ->
  (forall i, In i l -> ~ In i (keys done)) ->
  foldM (fun (st : dict R * R) i =>
           let '(d, max_rel_change) := st in
           v <- getitem d i ;;
           let d' := setitem d i (v * factor) in
           v' <- getitem d' i ;;
           p_i <- getitem (tabulate q P) i ;;
           rel_change <- pydiv (Rabs (v' - p_i)) (Rmax p_i epsilon) ;;
           if Rlt_dec max_rel_change rel_change
           then Ok (d', rel_change)
           else Ok (d', max_rel_change))
        l (done ++ tabulate f l, m)
  = Ok (done ++ tabulate (fun i => f i * factor) l,
        fold_left (fun m i =>
                     let rel_change :=
                       Rabs (f i * factor - q i) / Rmax (q i) epsilon in
                     if Rlt_dec m rel_change then rel_change else m) l m).
Proof.
  revert done m. induction l as [|i l IH]; intros done m Hnd Hsub Hfresh.
  - reflexivity.
  - inversion Hnd as [|? ? Hi Hnd']; subst.
    assert (Hdone : ~ In i (keys done)) by (apply Hfresh; left; reflexivity).
    assert (HiP : In i P) by (apply Hsub; left; reflexivity).
    cbn [foldM tabulate map]. fold (tabulate f l).
    unfold getitem at 1. rewrite lookup_app, (lookup_notin_keys _ _ Hdone).
    cbn [lookup]. rewrite Nat.eqb_refl. cbn [bind].
    rewrite setitem_app_notin by exact Hdone. cbn [setitem].
    rewrite Nat.eqb_refl.
    unfold getitem at 1. rewrite lookup_app, (lookup_notin_keys _ _ Hdone).
    cbn [lookup]. rewrite Nat.eqb_refl. cbn [bind].
    rewrite getitem_tabulate by exact HiP. cbn [bind].
    rewrite pydiv_ok.
    2:{ pose proof epsilon_pos. pose proof (Rmax_r (q i) epsilon). lra. }
    cbn [bind fold_left].
    fold (tabulate (fun i0 => f i0 * factor) l).
    change (done ++ (i, f i * factor) :: tabulate f l)
      with (done ++ [(i, f i * factor)] ++ tabulate f l).
    rewrite app_assoc.
    assert (Hfresh' : forall j, In j l -> ~ In j (keys (done ++ [(i, f i * factor)]))).
    { intros j Hj Hin. unfold keys in Hin. rewrite map_app in Hin.
      apply in_app_or in Hin. destruct Hin as [Hin|[Hin|[]]].
      - exact (Hfresh j (or_intror Hj) Hin).
      - simpl in Hin. subst j. contradiction. }
    assert (Hsub' : forall j, In j l -> In j P)
      by (intros j Hj; apply Hsub; right; exact Hj).
    destruct (Rlt_dec m (Rabs (f i * factor - q i) / Rmax (q i) epsilon));
      cbn [bind]; rewrite IH by assumption;
      rewrite <- app_assoc; reflexivity.
Qed.

Lemma mm_iteration_ok :
  P <> [] ->
  mm_iteration P (tabulate tw P) n (tabulate q P)
  = Ok (tabulate (next_of P tw n q) P,
        max_rel_change_of P q (next_of P tw n q)).
Proof.
  intros Hne. unfold mm_iteration.
  rewrite (foldM_build _ (update_of tw n q)); try assumption.
  2:{ intros i _ []. }
  2:{ intros i Hi. apply mm_player_ok. exact Hi. }
  cbn [bind app]. unfold clamp_all.
  rewrite (foldM_adjust (fun _ v => Rmax v epsilon)) by assumption.
  cbn [bind]. fold (clamped_of tw n q).
  change (fun i => Rmax (update_of tw n q i) epsilon) with (clamped_of tw n q).
  rewrite values_tabulate, length_tabulate.
  rewrite (mapM_ok pylog ln).
  2:{ intros x Hx. apply in_map_iff in Hx. destruct Hx as [i [<- _]].
      apply pylog_ok, clamped_pos. }
  cbn [bind]. rewrite pydiv_ok.
  2:{ apply INR_length_nonzero. assumption. }
  cbn [bind]. unfold rescale_all.
  rewrite map_map, pysum_Rsum.
  exact (rescale_all_gen (factor_of P (clamped_of tw n q))
           (clamped_of tw n q) [] 0 P_nodup (fun i H => H)
           (fun i _ (H : In i []) => H)).
Qed.

End Iteration.

(** ** The loop of the fitter *)

Section Loop.

Variable P : list player.
Variable tw : player -> nat.
Variable n : dict (dict nat).
Variable tol : R.

Hypothesis P_nodup : NoDup P.
Hypothesis P_nonempty : P <> [].
Hypothesis n_closed : forall i j, In i P -> In j (keys (get_dd [] n i)) -> In j P.

Lemma loop_of_pos (iters : nat) (q : player -> R) :
  (forall i, In i P -> 0 < q i) ->
  forall i, In i P -> 0 < loop_of iters P tw n tol q i.
Proof.
  revert q. induction iters as [|k IH]; intros q Hq i Hi; simpl.
  - apply Hq, Hi.
  - destruct (Rlt_dec _ tol).
    + apply next_pos.
    + apply IH; [|exact Hi]. intros j _. apply next_pos.
Qed.

Lemma mm_loop_ok (iters : nat) (q : player -> R) :
  (forall i, In i P -> 0 < q i) ->
  mm_loop iters P (tabulate tw P) n tol (tabulate q P)
  = Ok (tabulate (loop_of iters P tw n tol q) P).
Proof.
  revert q. induction iters as [|k IH]; intros q Hq; simpl.
  - reflexivity.
  - rewrite mm_iteration_ok by assumption. cbn [bind].
    destruct (Rlt_dec _ tol); [reflexivity|].
    apply IH. intros j _. apply next_pos.
Qed.

Lemma mm_trace_ok (iters : nat) (q : player -> R) :
  (forall i, In i P -> 0 < q i) ->
  mm_trace iters P (tabulate tw P) n tol (tabulate q P)
  = Ok (map (fun q' => tabulate q' P) (trace_of iters P tw n tol q)).
Proof.
  revert q. induction iters as [|k IH]; intros q Hq; simpl.
  - reflexivity.
  - rewrite mm_iteration_ok by assumption. cbn [bind].
    destruct (Rlt_dec _ tol); [reflexivity|].
    rewrite IH by (intros j _; apply next_pos). reflexivity.
Qed.

Lemma log_ratings_of_ok (q : player -> R) :
  (forall i, In i P -> 0 < q i) ->
  log_ratings_of P (tabulate q P)
  = Ok (tabulate (fun i => ln (q i)
                           - Rsum (map (fun j => ln (q j)) P) / INR (length P))
                 P).
Proof.
  intros Hq. unfold log_ratings_of.
  rewrite (mapM_ok _ (fun e : player * R => (fst e, ln (snd e)))).
  2:{ intros [i v] Hin. apply in_map_iff in Hin.
      destruct Hin as [j [Hj Hin]]. inversion Hj; subst.
      rewrite pylog_ok by (apply Hq, Hin). reflexivity. }
  cbn [bind]. unfold tabulate at 1 2 3. rewrite !map_map. cbn [fst snd].
  fold (tabulate (fun i => ln (q i)) P).
  rewrite values_tabulate, length_tabulate, pysum_Rsum.
  rewrite pydiv_ok.
  2:{ apply INR_length_nonzero. assumption. }
  cbn [bind].
  apply (mapM_ok _ (fun i => (i, ln (q i)
           - Rsum (map (fun j => ln (q j)) P) / INR (length P)))).
  intros i Hi. rewrite getitem_tabulate by exact Hi. reflexivity.
Qed.

End Loop.

Lemma fit_players_nodup (matches : list game) : NoDup (fit_players matches).
Proof. apply sorted_nodup, players_nodup. Qed.

Lemma fit_players_in (matches : list game) x :
  In x (fit_players matches) <->
  exists m, In m matches /\ (x = fst m \/ x = snd m).
Proof. unfold fit_players. rewrite sorted_in. apply players_in. Qed.

Lemma fit_players_nonempty (matches : list game) :
  matches <> [] -> fit_players matches <> [].
Proof.
  destruct matches as [|m ms]; [intros H; contradiction|]. intros _ He.
  assert (H : In (fst m) (fit_players (m :: ms))).
  { apply fit_players_in. exists m. split; [left; reflexivity|left; reflexivity]. }
  rewrite He in H. exact H.
Qed.

Lemma fit_players_nil : fit_players [] = [].
Proof. reflexivity. Qed.

Lemma fit_rows_closed (matches : list game) i j :
  In i (fit_players matches) ->
  In j (keys (get_dd [] (n (aggregate_matches matches)) i)) ->
  In j (fit_players matches).
Proof.
  intros _ Hj. apply sorted_in. exact (rows_closed_aggregate matches i j Hj).
Qed.

Lemma fit_strength_pos (matches : list game) max_iter tol i :
  In i (fit_players matches) -> 0 < fit_strength matches max_iter tol i.
Proof.
  intros Hi. unfold fit_strength. apply loop_of_pos; [|exact Hi].
  intros j _. lra.
Qed.

(** In exact arithmetic [fit_bradley_terry] raises nothing and returns the
    tables of [fit_rating] and [fit_strength] over the sorted players. *)
Lemma fit_bradley_terry_ok (matches : list game) (max_iter : nat) (tol : R) :
  fit_bradley_terry matches max_iter tol
  = Ok (tabulate (fit_rating matches max_iter tol) (fit_players matches),
        tabulate (fit_strength matches max_iter tol) (fit_players matches)).
Proof.
  unfold fit_bradley_terry. fold (fit_players matches).
  destruct (fit_players matches) as [|i0 P0] eqn:EP; [reflexivity|].
  rewrite <- EP.
  assert (Hne : fit_players matches <> []) by (rewrite EP; discriminate).
  change (total_wins (fit_players matches) (w (aggregate_matches matches)))
    with (tabulate (fit_wins matches) (fit_players matches)).
  change (initial_strengths (fit_players matches))
    with (tabulate (fun _ : player => 1) (fit_players matches)).
  rewrite mm_loop_ok.
  - cbn [bind]. fold (fit_strength matches max_iter tol).
    rewrite log_ratings_of_ok.
    + reflexivity.
    + exact Hne.
    + intros i Hi. apply fit_strength_pos, Hi.
  - apply fit_players_nodup.
  - exact Hne.
  - apply fit_rows_closed.
  - intros i _. lra.
Qed.

(** ** Empty input *)

(** C9: on an empty match sequence [fit_bradley_terry] returns two empty
    dicts, [mcmc_bradley_terry] returns an empty dict (and draws nothing),
    and [analyze_rating_convergence] returns an empty list; none raises. *)
Theorem empty_input_empty_results :
  (forall max_iter tol, fit_bradley_terry [] max_iter tol = Ok ([], []))
  /\ (forall (G : Type) (np : numpy G) n_samples burn_in thin
             proposal_std prior_std (g : G),
        mcmc_bradley_terry np [] n_samples burn_in thin proposal_std prior_std g
        = (Ok EmptyDict, g))
  /\ (forall step_size, analyze_rating_convergence [] step_size = Ok []).
Proof.
  repeat split; reflexivity.
Qed.

(** ** The guarded division *)

Lemma mm_update_not_zero_division (t : dict nat) (p : dict R) (i : player)
  (denom : R) :
  mm_update t p i denom <> Raise ZeroDivisionError.
Proof.
  unfold mm_update, getitem. destruct (Rlt_dec 0 denom) as [Hd|Hd].
  - destruct (lookup t i); cbn [bind]; [|discriminate].
    rewrite pydiv_ok by lra. discriminate.
  - destruct (lookup p i); discriminate.
Qed.

(** C5: a player whose denominator is zero keeps its strength in the update
    (no division happens); in particular a player with no row in [n] has
    denominator zero.  The division [t[i] / denom] is reached only when
    [denom > 0], where it cannot fail, so the update never raises
    [ZeroDivisionError]. *)
Theorem zero_denominator_keeps_strength (t : dict nat) (n : dict (dict nat))
  (p : dict R) (i : player) (p_i : R) :
  getitem p i = Ok p_i ->
  (mm_denom n p i = Ok 0 -> mm_player t n p i = Ok p_i)
  /\ (get_dd [] n i = [] -> mm_player t n p i = Ok p_i)
  /\ (forall denom, ~ 0 < denom -> mm_update t p i denom = Ok p_i)
  /\ (forall denom, 0 < denom ->
        mm_update t p i denom = (t_i <- getitem t i ;; Ok (INR t_i / denom)))
  /\ (forall denom, mm_update t p i denom <> Raise ZeroDivisionError).
Proof.
  intros Hp.
  assert (Hskip : forall denom, ~ 0 < denom -> mm_update t p i denom = Ok p_i).
  { intros denom Hd. unfold mm_update.
    destruct (Rlt_dec 0 denom); [contradiction|exact Hp]. }
  assert (Hzero : mm_denom n p i = Ok 0 -> mm_player t n p i = Ok p_i).
  { intros Hd. unfold mm_player. rewrite Hd. cbn [bind]. apply Hskip. lra. }
  repeat split.
  - exact Hzero.
  - intros Hrow. apply Hzero. unfold mm_denom. rewrite Hrow. reflexivity.
  - exact Hskip.
  - intros denom Hd. unfold mm_update.
    destruct (Rlt_dec 0 denom); [|contradiction].
    destruct (getitem t i); cbn [bind]; [|reflexivity].
    apply pydiv_ok. lra.
  - intros denom. apply mm_update_not_zero_division.
Qed.

Lemma zero_denominator_keeps_strength_witness :
  getitem [(0%nat, 1)] 0%nat = Ok 1
  /\ mm_player [] [] [(0%nat, 1)] 0%nat = Ok 1.
Proof.
  split; [reflexivity|].
  exact (proj1 (proj2 (zero_denominator_keeps_strength
                         [] [] [(0%nat, 1)] 0%nat (p_i := 1) eq_refl))
               eq_refl).
Defined.

(** ** The convergence trace *)

Lemma mapM_total {A B : Type} (f : A -> result B) (l : list A) :
  (forall x, In x l -> exists y, f x = Ok y) -> exists ys, mapM f l = Ok ys.
Proof.
  induction l as [|x l IH]; intros H; simpl; [eauto|].
  destruct (H x (or_introl eq_refl)) as [y Hy]. rewrite Hy. simpl.
  destruct IH as [ys Hys]; [intros z Hz; apply H; right; exact Hz|].
  rewrite Hys. simpl. eauto.
Qed.

Lemma getitem_in_keys {V : Type} (d : dict V) k :
  In k (keys d) -> exists v, getitem d k = Ok v.
Proof.
  intros H. destruct (lookup_in_keys d k H) as [v Hv].
  exists v. unfold getitem. rewrite Hv. reflexivity.
Qed.

Lemma rating_change_ok (ratings : dict R) (prev : option (dict R)) :
  exists c, rating_change ratings prev = Ok c.
Proof.
  destruct prev as [prev|]; unfold rating_change; [|eauto].
  destruct (filter (fun p => existsb (Nat.eqb p) (keys prev)) (keys ratings))
    as [|p0 common] eqn:E; [eauto|].
  rewrite <- E.
  destruct (mapM_total
              (fun p => a <- getitem ratings p ;; b <- getitem prev p ;;
                        Ok (Rabs (a - b)))
              (filter (fun p => existsb (Nat.eqb p) (keys prev)) (keys ratings)))
    as [ys Hys].
  - intros p Hp. apply filter_In in Hp. destruct Hp as [Hr Hprev].
    apply existsb_exists in Hprev. destruct Hprev as [p' [Hp' Heq]].
    apply Nat.eqb_eq in Heq. subst p'.
    destruct (getitem_in_keys ratings p Hr) as [a Ha].
    destruct (getitem_in_keys prev p Hp') as [b Hb].
    rewrite Ha, Hb. simpl. eauto.
  - rewrite Hys. simpl. eauto.
Qed.

Lemma range_count (len step : nat) :
  (1 <= step)%nat -> ((len + 1 - step + step - 1) / step = len / step)%nat.
Proof.
  intros Hs. destruct (Nat.le_gt_cases step (len + 1)) as [H|H].
  - f_equal. lia.
  - replace (len + 1 - step + step - 1)%nat with (step - 1)%nat by lia.
    rewrite !Nat.div_small by lia. reflexivity.
Qed.

Lemma py_range_multiples (len step : nat) :
  (1 <= step)%nat ->
  py_range step (len + 1) step
  = Ok (map (fun k => (k * step)%nat) (seq 1 (len / step))).
Proof.
  intros Hs. unfold py_range. destruct step as [|s]; [lia|].
  rewrite range_count by lia. f_equal.
  rewrite <- seq_shift, map_map. apply map_ext. intros k. lia.
Qed.

Lemma convergence_fold (matches : list game) (sizes : list nat)
  (results : list convergence_point) (prev : option (dict R)) :
  exists results' prev',
    foldM (convergence_step matches) sizes (results, prev)
    = Ok (results ++ results', prev')
    /\ map num_matches results' = sizes
    /\ Forall (fitted_on_prefix matches) results'.
Proof.
  revert results prev. induction sizes as [|i sizes IH]; intros results prev.
  - exists [], prev. simpl. rewrite app_nil_r. auto.
  - cbn [foldM]. unfold convergence_step at 1.
    rewrite fit_bradley_terry_ok. cbn [bind].
    destruct (rating_change_ok
                (tabulate (fit_rating (firstn i matches) default_max_iter
                                      default_tol)
                          (fit_players (firstn i matches))) prev) as [c Hc].
    rewrite Hc. cbn [bind].
    destruct (IH (results ++ [mkPoint i c
                (tabulate (fit_rating (firstn i matches) default_max_iter
                                      default_tol)
                          (fit_players (firstn i matches)))])
                 (Some (tabulate (fit_rating (firstn i matches)
                                     default_max_iter default_tol)
                          (fit_players (firstn i matches)))))
      as [rs [prev' [Hfold [Hsizes Hfit]]]].
    eexists (_ :: rs), prev'. split; [|split].
    + rewrite Hfold, <- app_assoc. reflexivity.
    + simpl. rewrite Hsizes. reflexivity.
    + constructor; [|exact Hfit].
      eexists. cbn [num_matches ratings]. apply fit_bradley_terry_ok.
Qed.

Lemma prefix_sizes_increasing (len step : nat) :
  (1 <= step)%nat -> StronglySorted lt (prefix_sizes len step).
Proof.
  intros Hs. unfold prefix_sizes.
  assert (Hmul : forall c a, StronglySorted lt
            (map (fun k => (k * step)%nat) (seq a c))).
  { induction c as [|c IH]; intros a; simpl; constructor.
    - apply IH.
    - apply Forall_forall. intros x Hx. apply in_map_iff in Hx.
      destruct Hx as [k [<- Hk]]. apply in_seq in Hk. nia. }
  destruct (Nat.eqb_spec (len mod step) 0) as [Hm|Hm].
  - rewrite app_nil_r. apply Hmul.
  - assert (Hlt : forall x,
              In x (map (fun k => (k * step)%nat) (seq 1 (len / step))) ->
              (x < len)%nat).
    { intros x Hx. apply in_map_iff in Hx. destruct Hx as [k [<- Hk]].
      apply in_seq in Hk.
      pose proof (Nat.div_mod_eq len step) as Hdm.
      assert (k * step <= step * (len / step))%nat by nia. lia. }
    revert Hlt. generalize (Hmul (len / step)%nat 1%nat).
    generalize (map (fun k => (k * step)%nat) (seq 1 (len / step))).
    induction l as [|x l IHl]; intros Hsorted Hlt; simpl.
    + constructor; constructor.
    + inversion Hsorted as [|? ? Hsl Hall]; subst. constructor.
      * apply IHl; [exact Hsl|]. intros y Hy. apply Hlt. right. exact Hy.
      * apply Forall_app. split; [exact Hall|].
        constructor; [|constructor]. apply Hlt. left. reflexivity.
Qed.

Lemma prefix_sizes_last (len step : nat) :
  (1 <= step)%nat -> (1 <= len)%nat -> last (prefix_sizes len step) 0%nat = len.
Proof.
  intros Hs Hl. unfold prefix_sizes.
  destruct (Nat.eqb_spec (len mod step) 0) as [Hm|Hm].
  - rewrite app_nil_r.
    pose proof (Nat.div_mod_eq len step) as Hdm.
    assert (Hc : (1 <= len / step)%nat).
    { destruct (len / step)%nat; [nia|lia]. }
    destruct (len / step)%nat as [|c] eqn:Ec; [lia|].
    rewrite seq_S, map_app. cbn [map]. rewrite last_last. nia.
  - apply last_last.
Qed.

(** In exact arithmetic every prefix fit returns, and so does the
    analyzer. *)
Lemma convergence_trace_exact (matches : list game) (step_size : nat) :
  matches <> [] -> (1 <= step_size)%nat ->
  exists trace,
    analyze_rating_convergence matches step_size = Ok trace
    /\ map num_matches trace = prefix_sizes (length matches) step_size
    /\ Forall (fitted_on_prefix matches) trace
    /\ StronglySorted lt (map num_matches trace)
    /\ last (map num_matches trace) 0%nat = length matches.
Proof.
  intros Hne Hs.
  assert (Hlen : (1 <= length matches)%nat).
  { destruct matches; [contradiction|simpl; lia]. }
  assert (Hmain : exists trace,
    analyze_rating_convergence matches step_size = Ok trace
    /\ map num_matches trace = prefix_sizes (length matches) step_size
    /\ Forall (fitted_on_prefix matches) trace).
  { unfold analyze_rating_convergence.
    destruct matches as [|m0 ms] eqn:Em; [contradiction|]. rewrite <- Em in *.
    rewrite py_range_multiples by exact Hs. cbn [bind].
    destruct (convergence_fold matches
                (map (fun k => (k * step_size)%nat)
                     (seq 1 (length matches / step_size))) [] None)
      as [rs [prev [Hfold [Hsizes Hfit]]]].
    rewrite Hfold. cbn [bind app].
    unfold pymod. destruct step_size as [|s] eqn:Es; [lia|]. rewrite <- Es in *.
    cbn [bind]. unfold prefix_sizes.
    destruct (Nat.eqb (length matches mod step_size) 0); cbn [negb].
    - exists rs. rewrite app_nil_r. auto.
    - rewrite fit_bradley_terry_ok. cbn [bind].
      destruct (rating_change_ok
                  (tabulate (fit_rating matches default_max_iter default_tol)
                            (fit_players matches)) prev) as [c Hc].
      rewrite Hc. cbn [bind]. eexists. split; [reflexivity|]. split.
      + rewrite map_app, Hsizes. reflexivity.
      + apply Forall_app. split; [exact Hfit|].
        constructor; [|constructor].
        eexists. cbn [num_matches ratings]. rewrite firstn_all.
        apply fit_bradley_terry_ok. }
  destruct Hmain as [trace [Hrun [Hsizes Hfit]]].
  exists trace. rewrite Hsizes. repeat split; try assumption.
  - apply prefix_sizes_increasing. exact Hs.
  - apply prefix_sizes_last; assumption.
Qed.

(** C8: for a non-empty match list and [step_size >= 1], whenever the
    analyzer returns a trace (it raises when a prefix fit raises), the
    [num_matches] of the trace are [step_size, 2*step_size, ...] followed by
    the full length when that is not a multiple of [step_size]; each point
    holds the ratings fitted on the prefix of that length; the sizes strictly
    increase and the last one is the total match count. *)
Theorem convergence_trace_sizes (matches : list game) (step_size : nat)
  (trace : list convergence_point) :
  matches <> [] -> (1 <= step_size)%nat ->
  analyze_rating_convergence matches step_size = Ok trace ->
  map num_matches trace = prefix_sizes (length matches) step_size
  /\ Forall (fitted_on_prefix matches) trace
  /\ StronglySorted lt (map num_matches trace)
  /\ last (map num_matches trace) 0%nat = length matches.
Proof.
  intros Hne Hs Hrun.
  destruct (convergence_trace_exact Hne Hs) as [trace' [Hrun' Hrest]].
  rewrite Hrun in Hrun'. injection Hrun' as <-. exact Hrest.
Qed.

(** ** The log-posterior raises nothing on well-keyed arguments *)

Lemma foldM_total {A B : Type} (f : A -> B -> result A) (l : list B) (a : A) :
  (forall a x, In x l -> exists a', f a x = Ok a') ->
  exists a', foldM f l a = Ok a'.
Proof.
  revert a. induction l as [|x l IH]; intros a H; simpl; [eauto|].
  destruct (H a x (or_introl eq_refl)) as [a' Ha]. rewrite Ha. simpl.
  apply IH. intros a0 y Hy. apply H. right. exact Hy.
Qed.

Lemma in_keys {V : Type} (d : dict V) k v : In (k, v) d -> In k (keys d).
Proof. intros H. apply in_map_iff. exists (k, v). auto. Qed.

Lemma log_posterior_total (f : player -> R) (P : list player)
  (wins matches : dict (dict nat)) (prior_std : R) :
  keys_within wins P -> prior_std <> 0 ->
  exists lp, log_posterior (tabulate f P) wins matches prior_std = Ok lp.
Proof.
  intros Hw Hstd. unfold log_posterior.
  match goal with
  | |- exists lp, bind (foldM ?F wins 0) ?K = Ok lp =>
      destruct (foldM_total F wins 0) as [lik Hlik]
  end.
  - intros a [i row] Hin. destruct (Hw i row Hin) as [Hi Hrow].
    apply foldM_total. intros a0 [j w_ij] Hj.
    destruct (Nat.ltb 0 (get2 matches i j)); [|eauto].
    rewrite !getitem_tabulate; [|apply Hrow, (in_keys _ _ _ Hj)|exact Hi].
    cbn [bind]. rewrite pylog_ok; [cbn [bind]; eauto|].
    apply Rplus_lt_0_compat; apply exp_pos.
  - rewrite Hlik. cbn [bind]. apply foldM_total. intros a [k v] _.
    rewrite pydiv_ok by exact Hstd. cbn [bind]. eauto.
Qed.

Lemma in_setitem {V : Type} (d : dict V) k v k' v' :
  In (k', v') (setitem d k v) -> (k' = k /\ v' = v) \/ In (k', v') d.
Proof.
  induction d as [|[k0 v0] d IH]; simpl.
  - intros [H|[]]. inversion H. auto.
  - destruct (Nat.eqb_spec k0 k) as [->|Hne]; simpl.
    + intros [H|H]; [inversion H; auto|auto].
    + intros [H|H]; [auto|]. destruct (IH H); auto.
Qed.

Lemma get_dd_cases {V : Type} (dflt : V) (d : dict V) k :
  get_dd dflt d k = dflt \/ In (k, get_dd dflt d k) d.
Proof.
  unfold get_dd. destruct (lookup d k) as [v|] eqn:E; [right|left; reflexivity].
  apply lookup_some_in. exact E.
Qed.

Lemma keys_within_incr2 (d : dict (dict nat)) (P : list player) a b :
  keys_within d P -> In a P -> In b P -> keys_within (incr2 d a b) P.
Proof.
  intros Hd Ha Hb i row Hin. unfold incr2 in Hin.
  apply in_setitem in Hin. destruct Hin as [[-> ->]|Hin]; [|exact (Hd i row Hin)].
  split; [exact Ha|]. intros j Hj. apply keys_incr in Hj.
  destruct Hj as [->|Hj]; [exact Hb|].
  destruct (get_dd_cases (@nil (player * nat)) d a) as [E|E].
  - rewrite E in Hj. simpl in Hj. contradiction.
  - exact (proj2 (Hd a _ E) j Hj).
Qed.

Lemma keys_within_mono (d : dict (dict nat)) (P P' : list player) :
  keys_within d P -> (forall x, In x P -> In x P') -> keys_within d P'.
Proof.
  intros Hd Hsub i row Hin. destruct (Hd i row Hin) as [Hi Hrow].
  split; [apply Hsub, Hi|]. intros j Hj. apply Hsub, Hrow, Hj.
Qed.

Lemma wins_within_from (matches : list game) (a : tallies) :
  keys_within (w a) (players a) ->
  keys_within (w (aggregate_from a matches))
              (players (aggregate_from a matches)).
Proof.
  revert a. induction matches as [|[winner loser] ms IH]; intros a H.
  - exact H.
  - apply IH. cbn [aggregate_step w players]. apply keys_within_incr2.
    + apply keys_within_mono with (P := players a); [exact H|].
      intros x Hx. rewrite !set_add_in. auto.
    + rewrite !set_add_in. auto.
    + rewrite !set_add_in. auto.
Qed.

Lemma wins_within (matches : list game) :
  keys_within (w (aggregate_matches matches)) (fit_players matches).
Proof.
  apply keys_within_mono with (P := players (aggregate_matches matches)).
  - apply wins_within_from. intros i row [].
  - intros x Hx. apply sorted_in. exact Hx.
Qed.

(** ** Order independence of the exact iteration *)

Lemma wsum_ext (g g' : player -> R) (row : dict nat) :
  (forall j, g j = g' j) -> wsum g row = wsum g' row.
Proof.
  intros H. unfold wsum. apply Rsum_map_ext. intros e _. rewrite H. reflexivity.
Qed.

Section Extensionality.

Variable P : list player.
Variables tw tw' : player -> nat.
Variables n n' : dict (dict nat).
Variable tol : R.

Hypothesis tw_eq : forall i, tw i = tw' i.
Hypothesis n_eq : forall g i, wsum g (get_dd [] n i) = wsum g (get_dd [] n' i).

Lemma denom_of_ext (q q' : player -> R) :
  (forall i, q i = q' i) -> forall i, denom_of n q i = denom_of n' q' i.
Proof.
  intros Hq i. unfold denom_of. rewrite n_eq. apply wsum_ext.
  intros j. rewrite !Hq. reflexivity.
Qed.

Lemma clamped_of_ext (q q' : player -> R) :
  (forall i, q i = q' i) -> forall i, clamped_of tw n q i = clamped_of tw' n' q' i.
Proof.
  intros Hq i. unfold clamped_of, update_of.
  rewrite (denom_of_ext q q' Hq i), tw_eq, Hq. reflexivity.
Qed.

Lemma factor_of_ext (c c' : player -> R) :
  (forall i, c i = c' i) -> factor_of P c = factor_of P c'.
Proof.
  intros Hc. unfold factor_of. do 3 f_equal.
  apply Rsum_map_ext. intros i _. rewrite Hc. reflexivity.
Qed.

Lemma next_of_ext (q q' : player -> R) :
  (forall i, q i = q' i) -> forall i, next_of P tw n q i = next_of P tw' n' q' i.
Proof.
  intros Hq i. unfold next_of.
  rewrite (clamped_of_ext q q' Hq i).
  rewrite (factor_of_ext _ _ (clamped_of_ext q q' Hq)). reflexivity.
Qed.

Lemma max_rel_change_of_ext (q q' q1 q1' : player -> R) :
  (forall i, q i = q' i) -> (forall i, q1 i = q1' i) ->
  max_rel_change_of P q q1 = max_rel_change_of P q' q1'.
Proof.
  intros Hq Hq1. unfold max_rel_change_of. generalize 0.
  induction P as [|i l IH]; intros m; simpl; [reflexivity|].
  rewrite Hq, Hq1. apply IH.
Qed.

Lemma loop_of_ext (iters : nat) (q q' : player -> R) :
  (forall i, q i = q' i) ->
  forall i, loop_of iters P tw n tol q i = loop_of iters P tw' n' tol q' i.
Proof.
  revert q q'. induction iters as [|k IH]; intros q q' Hq i; simpl.
  - apply Hq.
  - rewrite (max_rel_change_of_ext q q' _ _ Hq (next_of_ext q q' Hq)).
    destruct (Rlt_dec _ tol).
    + apply next_of_ext, Hq.
    + apply IH. apply next_of_ext, Hq.
Qed.

End Extensionality.

Lemma opponent_sum_perm (g : player -> R) (ms ms' : list game) i :
  Permutation ms ms' -> opponent_sum g ms i = opponent_sum g ms' i.
Proof.
  intros H. unfold opponent_sum. apply Rsum_perm, Permutation_map, H.
Qed.

Lemma wins_of_perm (ms ms' : list game) i :
  Permutation ms ms' -> wins_of ms i = wins_of ms' i.
Proof.
  intros H. unfold wins_of. apply INR_eq. rewrite <- !Rsum_filter_count.
  apply Rsum_perm, Permutation_map, H.
Qed.

Lemma fit_players_perm (ms ms' : list game) :
  Permutation ms ms' -> fit_players ms = fit_players ms'.
Proof.
  intros H. unfold fit_players. apply sorted_perm_eq.
  apply NoDup_Permutation; try apply players_nodup.
  intros x. rewrite !players_in. split; intros [m [Hm Hx]]; exists m; split;
    try exact Hx.
  - exact (Permutation_in _ H Hm).
  - exact (Permutation_in _ (Permutation_sym H) Hm).
Qed.

Lemma fit_strength_perm (ms ms' : list game) max_iter tol i :
  Permutation ms ms' ->
  fit_strength ms max_iter tol i = fit_strength ms' max_iter tol i.
Proof.
  intros H. unfold fit_strength. rewrite (fit_players_perm H).
  apply loop_of_ext; [| |reflexivity].
  - intros j. unfold fit_wins. rewrite !total_wins_count. apply wins_of_perm, H.
  - intros g j. rewrite !wsum_n. apply opponent_sum_perm, H.
Qed.

Lemma get2_w_from (matches : list game) (a : tallies) i j :
  get2 (w (aggregate_from a matches)) i j
  = (get2 (w a) i j + games_won matches i j)%nat.
Proof.
  revert a. induction matches as [|[winner loser] ms IH]; intros a.
  - unfold games_won. simpl. lia.
  - change (aggregate_from a ((winner, loser) :: ms))
      with (aggregate_from (aggregate_step a (winner, loser)) ms).
    rewrite IH. cbn [aggregate_step w]. rewrite get2_incr2.
    unfold games_won. cbn [filter fst snd].
    destruct (Nat.eqb winner i && Nat.eqb loser j); simpl; lia.
Qed.

Lemma get2_w_count (matches : list game) i j :
  get2 (w (aggregate_matches matches)) i j = games_won matches i j.
Proof. unfold aggregate_matches. rewrite get2_w_from. reflexivity. Qed.

Lemma games_won_app (ms1 ms2 : list game) i j :
  games_won (ms1 ++ ms2) i j = (games_won ms1 i j + games_won ms2 i j)%nat.
Proof. unfold games_won. rewrite filter_app, length_app. reflexivity. Qed.

Lemma get2_n_count (matches : list game) i j :
  get2 (n (aggregate_matches matches)) i j
  = (games_won matches i j + games_won matches j i)%nat.
Proof.
  assert (H : tally_balanced (aggregate_matches matches)).
  { apply aggregate_from_balanced. intros x y. reflexivity. }
  rewrite (H i j), !get2_w_count. reflexivity.
Qed.

Lemma games_won_perm (ms ms' : list game) i j :
  Permutation ms ms' -> games_won ms i j = games_won ms' i j.
Proof.
  intros H. unfold games_won. apply INR_eq. rewrite <- !Rsum_filter_count.
  apply Rsum_perm, Permutation_map, H.
Qed.

Lemma convergence_trace_sizes_witness :
  exists trace,
    analyze_rating_convergence [(0, 1); (1, 2); (0, 1)]%nat 2 = Ok trace
    /\ map num_matches trace = [2; 3]%nat.
Proof.
  destruct (@convergence_trace_exact [(0, 1); (1, 2); (0, 1)]%nat 2%nat)
    as [trace [Hrun _]]; [discriminate|lia|].
  exists trace. split; [exact Hrun|].
  apply (@convergence_trace_sizes [(0, 1); (1, 2); (0, 1)]%nat 2%nat trace).
  - discriminate.
  - lia.
  - exact Hrun.
Defined.

(** ** The log-posterior counts reciprocated pairs twice *)

(** C3 fails on the code: [log_posterior] visits every ordered pair [(i, j)]
    with [wins[i][j]] present and adds the games of both directions each
    time, so a pair in which both players have won is added twice.  On the
    two matches [(0, 1)], [(1, 0)] at ratings zero the code returns
    [-4 ln 2]; the Bradley-Terry log-likelihood of two even games plus the
    prior is [-2 ln 2]. *)
Theorem log_posterior_double_counts :
  let matches := [(0, 1); (1, 0)]%nat in
  let agg := aggregate_matches matches in
  let log_ratings := [(0%nat, 0); (1%nat, 0)] in
  log_posterior log_ratings (w agg) (n agg) 2 = Ok (- 4 * ln 2)
  /\ bt_log_posterior matches log_ratings 2 = - 2 * ln 2
  /\ log_posterior log_ratings (w agg) (n agg) 2
     <> Ok (bt_log_posterior matches log_ratings 2).
Proof.
  intros matches agg log_ratings.
  assert (Hagg : agg = mkTallies [0; 1]%nat
                         [(0, [(1, 1)]); (1, [(0, 1)])]%nat
                         [(0, [(1, 2)]); (1, [(0, 2)])]%nat) by reflexivity.
  assert (Hln2 : 0 < ln 2).
  { rewrite <- ln_1. apply ln_increasing; lra. }
  assert (Hcode : log_posterior log_ratings (w agg) (n agg) 2 = Ok (- 4 * ln 2)).
  { rewrite Hagg. unfold log_posterior, log_ratings.
    cbn [foldM w n get2 get_dd lookup Nat.eqb Nat.ltb Nat.leb getitem bind].
    rewrite (Rmax_left 0 0) by lra.
    replace (0 - 0) with 0 by lra. rewrite exp_0.
    rewrite pylog_ok by lra. cbn [bind].
    rewrite !pydiv_ok by lra. cbn [bind]. f_equal.
    replace (1 + 1) with 2 by lra. simpl. lra. }
  assert (Hspec : bt_log_posterior matches log_ratings 2 = - 2 * ln 2).
  { unfold bt_log_posterior, bt_log_likelihood, gaussian_log_prior,
      matches, log_ratings.
    cbn [map fst snd values get_dd lookup Nat.eqb Rsum fold_right].
    rewrite exp_0. replace (1 / (1 + 1)) with (/ 2) by lra.
    rewrite ln_Rinv by lra. simpl. lra. }
  split; [exact Hcode|]. split; [exact Hspec|].
  rewrite Hcode, Hspec. intros H. inversion H. lra.
Qed.

(** ** The sampler *)

Lemma setitem_tabulate {V : Type} (f : player -> V) (l : list player) k v :
  NoDup l -> In k l ->
  setitem (tabulate f l) k v
  = tabulate (fun i => if Nat.eqb i k then v else f i) l.
Proof.
  induction l as [|x l IH]; intros Hnd Hin; [contradiction|].
  inversion Hnd as [|? ? Hx Hnd']; subst. cbn [tabulate map setitem].
  destruct (Nat.eqb_spec x k) as [->|Hne].
  - f_equal. apply map_ext_in. intros i Hi.
    destruct (Nat.eqb_spec i k) as [->|]; [contradiction|reflexivity].
  - f_equal. apply IH; [exact Hnd'|].
    destruct Hin as [->|Hin]; [contradiction|exact Hin].
Qed.

Lemma get_dd_tabulate {V : Type} (dflt : V) (f : player -> V) l k :
  In k l -> get_dd dflt (tabulate f l) k = f k.
Proof. intros H. unfold get_dd. rewrite lookup_tabulate by exact H. reflexivity. Qed.

Section SamplerFacts.

Variable G : Type.
Variable np : numpy G.

Lemma bindS_ok {A B : Type} (c : sampler G A) (k : A -> sampler G B) g b g' :
  bindS c k g = (Ok b, g') ->
  exists a g1, c g = (Ok a, g1) /\ k a g1 = (Ok b, g').
Proof.
  unfold bindS. destruct (c g) as [[a|e] g1]; [eauto|discriminate].
Qed.

Lemma liftS_ok {A : Type} (c : result A) (g : G) a g' :
  liftS c g = (Ok a, g') -> c = Ok a /\ g' = g.
Proof. unfold liftS. intros H. inversion H. auto. Qed.

Lemma retS_ok {A : Type} (a : A) (g : G) a' g' :
  retS a g = (Ok a', g') -> a' = a /\ g' = g.
Proof. unfold retS. intros H. inversion H. auto. Qed.

Lemma foldS_inv {A B : Type} (I : A -> Prop) (f : A -> B -> sampler G A)
  (l : list B) (a : A) g a' g' :
  (forall a x g a' g', In x l -> I a -> f a x g = (Ok a', g') -> I a') ->
  I a -> foldS f l a g = (Ok a', g') -> I a'.
Proof.
  revert a g. induction l as [|x l IH]; intros a g Hstep Ha Hrun.
  - apply retS_ok in Hrun. destruct Hrun as [-> _]. exact Ha.
  - cbn [foldS] in Hrun. apply bindS_ok in Hrun.
    destruct Hrun as [a1 [g1 [H1 H2]]].
    apply (IH a1 g1); [|exact (Hstep a x g a1 g1 (or_introl eq_refl) Ha H1)
                       |exact H2].
    intros a0 y g0 a0' g0' Hy. apply Hstep. right. exact Hy.
Qed.

Variable P : list player.
Variables wins matches : dict (dict nat).
Variables proposal_std prior_std : R.

Hypothesis P_nodup : NoDup P.
Hypothesis P_nonempty : P <> [].

(** What [propose] returns when it returns. *)
Lemma propose_ok (st st' : chain) (i : player) (g g' : G) :
  propose np wins matches proposal_std prior_std st i g = (Ok st', g') ->
  exists r_i z g1 lp' u,
    lookup (current_ratings st) i = Some r_i
    /\ random_normal np 0 proposal_std g = (z, g1)
    /\ log_posterior (setitem (current_ratings st) i (r_i + z))
                     wins matches prior_std = Ok lp'
    /\ random_random np g1 = (u, g')
    /\ 0 < u
    /\ ((ln u < lp' - current_log_prob st
         /\ st' = mkChain (setitem (current_ratings st) i (r_i + z)) lp'
                          (S (accept_count st)) (S (total_proposals st)))
        \/ (~ ln u < lp' - current_log_prob st
            /\ st' = mkChain (current_ratings st) (current_log_prob st)
                             (accept_count st) (S (total_proposals st)))).
Proof.
  unfold propose, bindS, liftS, draw_normal, draw_random, retS, getitem, pylog.
  destruct (lookup (current_ratings st) i) as [r_i|]; [|discriminate].
  destruct (random_normal np 0 proposal_std g) as [z g1].
  destruct (log_posterior _ wins matches prior_std) as [lp'|] eqn:Elp;
    [|discriminate].
  destruct (random_random np g1) as [u g2] eqn:Eu.
  destruct (Rlt_dec 0 u) as [Hu|]; [|discriminate].
  destruct (Rlt_dec (ln u) (lp' - current_log_prob st)) as [Hacc|Hrej];
    intros H; inversion H; subst; exists r_i, z, g1, lp', u;
    repeat (split; [solve [reflexivity | assumption]|]);
    [left|right]; split; auto.
Qed.

Lemma propose_shaped (st st' : chain) (i : player) (g g' : G) :
  In i P -> shaped P st ->
  propose np wins matches proposal_std prior_std st i g = (Ok st', g') ->
  shaped P st'.
Proof.
  intros Hi [f Hf] Hrun. apply propose_ok in Hrun.
  destruct Hrun as (r_i & z & g1 & lp' & u & _ & _ & _ & _ & _ & Hcase).
  destruct Hcase as [[_ ->]|[_ ->]]; cbn [current_ratings].
  - rewrite Hf, setitem_tabulate by assumption. eexists. reflexivity.
  - exists f. exact Hf.
Qed.

Lemma sweep_shaped (st st' : chain) (g g' : G) :
  shaped P st ->
  sweep np P wins matches proposal_std prior_std st g = (Ok st', g') ->
  shaped P st'.
Proof.
  intros Hst Hrun. unfold sweep in Hrun.
  eapply (foldS_inv (shaped P)); [|exact Hst|exact Hrun].
  intros a x g0 a' g0' Hx Ha H. eapply propose_shaped; eassumption.
Qed.

(** After recentering the ratings sum to zero. *)
Lemma recenter_centered (st st' : chain) :
  shaped P st ->
  recenter P wins matches prior_std st = Ok st' ->
  shaped P st' /\ Rsum (values (current_ratings st')) = 0.
Proof.
  intros [f Hf] Hrun. unfold recenter in Hrun. rewrite Hf in Hrun.
  rewrite values_tabulate, length_tabulate, pysum_Rsum in Hrun.
  rewrite pydiv_ok in Hrun by (apply INR_length_nonzero; assumption).
  cbn [bind] in Hrun.
  rewrite (foldM_adjust (fun _ v => v - Rsum (map f P) / INR (length P)))
    in Hrun by assumption.
  cbn [bind] in Hrun.
  destruct (log_posterior _ wins matches prior_std) as [lp|];
    [|discriminate].
  cbn [bind] in Hrun. inversion Hrun. subst st'. cbn [current_ratings].
  split; [eexists; reflexivity|].
  rewrite values_tabulate, (Rsum_map_minus f), Rsum_map_const.
  field. apply INR_length_nonzero. assumption.
Qed.

Lemma nth_snoc (l : list R) (x : R) (k : nat) :
  nth k (l ++ [x]) 0
  = if Nat.ltb k (length l) then nth k l 0
    else if Nat.eqb k (length l) then x else 0.
Proof.
  destruct (Nat.ltb_spec k (length l)) as [H|H].
  - apply app_nth1. exact H.
  - rewrite app_nth2 by exact H.
    destruct (Nat.eqb_spec k (length l)) as [->|Hne].
    + rewrite Nat.sub_diag. reflexivity.
    + destruct (k - length l)%nat as [|[|d]] eqn:E; [lia|reflexivity|reflexivity].
Qed.

Lemma store_sample_centered (burn_in thin iteration : nat) (f : player -> R)
  (kept kept' : dict (list R)) :
  Rsum (map f P) = 0 -> samples_centered P kept ->
  store_sample P burn_in thin iteration (tabulate f P) kept = Ok kept' ->
  samples_centered P kept'.
Proof.
  intros Hf Hkept Hrun. unfold store_sample in Hrun.
  destruct (Nat.leb burn_in iteration); [|inversion Hrun; subst; exact Hkept].
  destruct (pymod (iteration - burn_in) thin) as [r|]; [|discriminate].
  cbn [bind] in Hrun.
  destruct (Nat.eqb r 0); [|inversion Hrun; subst; exact Hkept].
  destruct Hkept as [S [m [-> [Hlen Hsum]]]].
  rewrite (foldM_ext _
             (fun d i => v <- getitem d i ;; Ok (setitem d i (v ++ [f i]))))
    in Hrun.
  2:{ intros a x Hx. destruct (getitem a x); cbn [bind]; [|reflexivity].
      rewrite getitem_tabulate by exact Hx. reflexivity. }
  rewrite (foldM_adjust (fun i l => l ++ [f i])) in Hrun by assumption.
  inversion Hrun. subst kept'.
  exists (fun i => S i ++ [f i]), (Datatypes.S m). split; [reflexivity|]. split.
  - intros i Hi. rewrite length_app, (Hlen i Hi). simpl. lia.
  - intros k.
    rewrite (Rsum_map_ext _
               (fun i => if Nat.ltb k m then nth k (S i) 0
                         else if Nat.eqb k m then f i else 0)).
    2:{ intros i Hi. rewrite nth_snoc, (Hlen i Hi). reflexivity. }
    destruct (Nat.ltb k m); [apply Hsum|].
    destruct (Nat.eqb k m); [exact Hf|].
    rewrite Rsum_map_const. lra.
Qed.

Lemma mcmc_iteration_centered (burn_in thin iteration : nat)
  (st st' : chain * dict (list R)) (g g' : G) :
  shaped P (fst st) -> samples_centered P (snd st) ->
  mcmc_iteration np P wins matches burn_in thin proposal_std prior_std
                 st iteration g = (Ok st', g') ->
  shaped P (fst st') /\ samples_centered P (snd st')
  /\ Rsum (values (current_ratings (fst st'))) = 0.
Proof.
  intros Hshape Hkept Hrun. destruct st as [c kept]. unfold mcmc_iteration in Hrun.
  apply bindS_ok in Hrun. destruct Hrun as [c1 [g1 [Hsweep Hrun]]].
  apply bindS_ok in Hrun. destruct Hrun as [c2 [g2 [Hrec Hrun]]].
  apply bindS_ok in Hrun. destruct Hrun as [kept2 [g3 [Hstore Hrun]]].
  apply retS_ok in Hrun. destruct Hrun as [-> _].
  apply liftS_ok in Hrec. destruct Hrec as [Hrec _].
  apply liftS_ok in Hstore. destruct Hstore as [Hstore _].
  apply sweep_shaped in Hsweep; [|exact Hshape].
  destruct (recenter_centered Hsweep Hrec) as [[f Hf] Hzero].
  cbn [fst snd]. split; [exists f; exact Hf|]. split; [|exact Hzero].
  rewrite Hf in Hstore, Hzero. rewrite values_tabulate in Hzero.
  eapply store_sample_centered; eassumption.
Qed.

End SamplerFacts.

Section SamplerRun.

Variable G : Type.
Variable np : numpy G.
Variable P : list player.
Variables wins matches : dict (dict nat).
Variables proposal_std prior_std : R.

Hypothesis P_nodup : NoDup P.
Hypothesis P_nonempty : P <> [].

Lemma foldS_total {A B : Type} (I : A -> Prop) (f : A -> B -> sampler G A)
  (l : list B) (a : A) (g : G) :
  (forall a x g, In x l -> I a -> exists a' g', f a x g = (Ok a', g') /\ I a') ->
  I a -> exists a' g', foldS f l a g = (Ok a', g') /\ I a'.
Proof.
  revert a g. induction l as [|x l IH]; intros a g Hstep Ha.
  - exists a, g. split; [reflexivity|exact Ha].
  - destruct (Hstep a x g (or_introl eq_refl) Ha) as [a1 [g1 [H1 Ha1]]].
    destruct (IH a1 g1) as [a2 [g2 [H2 Ha2]]]; [|exact Ha1|].
    + intros a0 y g0 Hy. apply Hstep. right. exact Hy.
    + exists a2, g2. split; [|exact Ha2].
      cbn [foldS]. unfold bindS. rewrite H1. exact H2.
Qed.

Hypothesis wins_within_P : keys_within wins P.
Hypothesis prior_std_nonzero : prior_std <> 0.
Hypothesis draws_positive : forall g, 0 < fst (random_random np g).

Lemma propose_total (st : chain) (i : player) (g : G) :
  In i P -> shaped P st ->
  exists st' g',
    propose np wins matches proposal_std prior_std st i g = (Ok st', g')
    /\ shaped P st'.
Proof.
  intros Hi [f Hf].
  assert (Hrun : exists st' g',
            propose np wins matches proposal_std prior_std st i g = (Ok st', g')).
  { unfold propose, bindS, liftS, draw_normal, draw_random, retS.
    rewrite Hf, getitem_tabulate by exact Hi.
    destruct (random_normal np 0 proposal_std g) as [z g1].
    rewrite setitem_tabulate by assumption.
    destruct (log_posterior_total
                (fun j => if Nat.eqb j i then f i + z else f j) matches
                wins_within_P prior_std_nonzero) as [lp' Hlp].
    rewrite Hlp. pose proof (draws_positive g1) as Hu.
    destruct (random_random np g1) as [u g2]. cbn [fst] in Hu.
    rewrite pylog_ok by exact Hu.
    destruct (Rlt_dec (ln u) (lp' - current_log_prob st)); eauto. }
  destruct Hrun as [st' [g' Hrun]]. exists st', g'. split; [exact Hrun|].
  eapply propose_shaped; try eassumption. exists f. exact Hf.
Qed.

Lemma sweep_total (st : chain) (g : G) :
  shaped P st ->
  exists st' g',
    sweep np P wins matches proposal_std prior_std st g = (Ok st', g')
    /\ shaped P st'.
Proof.
  intros Hst. unfold sweep. apply (foldS_total (shaped P)); [|exact Hst].
  intros a x g0 Hx Ha. apply propose_total; assumption.
Qed.

Lemma recenter_total (st : chain) :
  shaped P st -> exists st', recenter P wins matches prior_std st = Ok st'.
Proof.
  intros [f Hf]. unfold recenter. rewrite Hf.
  rewrite values_tabulate, length_tabulate, pysum_Rsum.
  rewrite pydiv_ok by (apply INR_length_nonzero; assumption). cbn [bind].
  rewrite (foldM_adjust (fun _ v => v - Rsum (map f P) / INR (length P)))
    by assumption.
  cbn [bind].
  destruct (log_posterior_total
              (fun i => f i - Rsum (map f P) / INR (length P)) matches
              wins_within_P prior_std_nonzero) as [lp Hlp].
  rewrite Hlp. cbn [bind]. eauto.
Qed.

Lemma store_sample_total (burn_in thin iteration : nat) (f : player -> R)
  (S : player -> list R) :
  thin <> 0%nat ->
  exists kept',
    store_sample P burn_in thin iteration (tabulate f P) (tabulate S P)
    = Ok kept'.
Proof.
  intros Hthin. unfold store_sample.
  destruct (Nat.leb burn_in iteration); [|eauto].
  unfold pymod. destruct thin as [|t]; [contradiction|]. cbn [bind].
  destruct (Nat.eqb _ 0); [|eauto].
  rewrite (foldM_ext _
             (fun d i => v <- getitem d i ;; Ok (setitem d i (v ++ [f i])))).
  2:{ intros a x Hx. destruct (getitem a x); cbn [bind]; [|reflexivity].
      rewrite getitem_tabulate by exact Hx. reflexivity. }
  rewrite (foldM_adjust (fun i l => l ++ [f i])) by assumption. eauto.
Qed.

Lemma mcmc_iteration_total (burn_in thin iteration : nat)
  (st : chain * dict (list R)) (g : G) :
  thin <> 0%nat ->
  shaped P (fst st) /\ samples_centered P (snd st) ->
  exists st' g',
    mcmc_iteration np P wins matches burn_in thin proposal_std prior_std
                   st iteration g = (Ok st', g')
    /\ (shaped P (fst st') /\ samples_centered P (snd st')).
Proof.
  intros Hthin [Hshape Hkept].
  assert (Hrun : exists st' g',
    mcmc_iteration np P wins matches burn_in thin proposal_std prior_std
                   st iteration g = (Ok st', g')).
  { destruct st as [c kept]. cbn [fst snd] in *. unfold mcmc_iteration, bindS.
    destruct (sweep_total g Hshape) as [c1 [g1 [Hsweep Hc1]]]. rewrite Hsweep.
    destruct (recenter_total Hc1) as [c2 Hrec]. unfold liftS. rewrite Hrec.
    assert (Hc2 := Hrec). eapply recenter_centered in Hc2; try eassumption.
    destruct Hc2 as [[f Hf] _].
    destruct Hkept as [S [m [-> _]]]. rewrite Hf.
    destruct (store_sample_total burn_in iteration f S Hthin) as [k' Hk'].
    rewrite Hk'. unfold retS. eauto. }
  destruct Hrun as [st' [g' Hrun]]. exists st', g'. split; [exact Hrun|].
  assert (H := Hrun). eapply mcmc_iteration_centered in H; try eassumption.
  destruct H as [H1 [H2 _]]. auto.
Qed.

End SamplerRun.

Lemma summarize_samples (G : Type) (np : numpy G) (P l : list player)
  (S : player -> list R) (s0 : summary) :
  NoDup l -> (forall i, In i l -> In i P) ->
  (forall i, In i l -> ~ In i (keys (samples s0))) ->
  exists s,
    foldM (fun (s : summary) p =>
             arr <- getitem (tabulate S P) p ;;
             Ok (mkSummary (setitem (mean s) p (np_mean np arr))
                           (setitem (median s) p (np_median np arr))
                           (setitem (std s) p (np_std np arr))
                           (setitem (ci_lower s) p (np_percentile np arr (5 / 2)))
                           (setitem (ci_upper s) p (np_percentile np arr (195 / 2)))
                           (setitem (samples s) p arr)))
          l s0 = Ok s
    /\ samples s = samples s0 ++ tabulate S l.
Proof.
  revert s0. induction l as [|i l IH]; intros s0 Hnd Hsub Hfresh.
  - exists s0. split; [reflexivity|]. simpl. rewrite app_nil_r. reflexivity.
  - inversion Hnd as [|? ? Hi Hnd']; subst. cbn [foldM].
    rewrite getitem_tabulate by (apply Hsub; left; reflexivity). cbn [bind].
    match goal with
    | |- exists s, foldM _ l ?s1 = _ /\ _ => destruct (IH s1) as [s [Hrun Hs]]
    end.
    + exact Hnd'.
    + intros j Hj. apply Hsub. right. exact Hj.
    + intros j Hj. cbn [samples].
      rewrite keys_setitem_notin by (apply Hfresh; left; reflexivity).
      intros Hin. apply in_app_or in Hin. destruct Hin as [Hin|[Hin|[]]].
      * exact (Hfresh j (or_intror Hj) Hin).
      * subst j. contradiction.
    + exists s. split; [exact Hrun|]. rewrite Hs. cbn [samples].
      rewrite <- (app_nil_r (samples s0)) at 1.
      rewrite setitem_app_notin by (apply Hfresh; left; reflexivity).
      cbn [setitem tabulate map]. rewrite <- app_assoc. reflexivity.
Qed.

Section SamplerChain.

Variable G : Type.
Variable np : numpy G.
Variable matches_list : list game.
Variables n_samples burn_in thin : nat.
Variables proposal_std prior_std : R.

Hypothesis matches_nonempty : matches_list <> [].

Lemma initial_samples_centered (P : list player) :
  samples_centered P (map (fun p => (p, @nil R)) P).
Proof.
  exists (fun _ => []), 0%nat. split; [reflexivity|]. split; [reflexivity|].
  intros k. apply Rsum_map_zero. intros i _. destruct k; reflexivity.
Qed.

(** The chain and the samples left by the run, when it returns. *)
Lemma mcmc_chain_centered (g g' : G) (c : chain) (kept : dict (list R)) :
  mcmc_chain np matches_list n_samples burn_in thin proposal_std prior_std g
  = (Ok (c, kept), g') ->
  shaped (fit_players matches_list) c
  /\ samples_centered (fit_players matches_list) kept
  /\ Rsum (values (current_ratings c)) = 0.
Proof.
  intros Hrun. unfold mcmc_chain in Hrun. fold (fit_players matches_list) in Hrun.
  apply bindS_ok in Hrun. destruct Hrun as [lp [g1 [_ Hrun]]].
  pose (I := fun st : chain * dict (list R) =>
               shaped (fit_players matches_list) (fst st)
               /\ samples_centered (fit_players matches_list) (snd st)
               /\ Rsum (values (current_ratings (fst st))) = 0).
  change (I (c, kept)).
  eapply (foldS_inv I); [| |exact Hrun].
  - intros a x g0 a' g0' _ [Ha1 [Ha2 _]] Hstep.
    eapply mcmc_iteration_centered; try eassumption.
    + apply fit_players_nodup.
    + apply fit_players_nonempty, matches_nonempty.
  - unfold I. cbn [fst snd current_ratings]. split; [|split].
    + exists (fun _ => 0). reflexivity.
    + apply initial_samples_centered.
    + unfold values. rewrite map_map. cbn [snd]. rewrite Rsum_map_const. lra.
Qed.

Lemma mcmc_samples_centered (g g' : G) (s : summary) :
  mcmc_bradley_terry np matches_list n_samples burn_in thin
                     proposal_std prior_std g = (Ok (Results s), g') ->
  samples_centered (fit_players matches_list) (samples s).
Proof.
  intros Hrun. unfold mcmc_bradley_terry in Hrun.
  fold (fit_players matches_list) in Hrun.
  destruct (fit_players matches_list) as [|i0 P0] eqn:EP.
  { apply retS_ok in Hrun. destruct Hrun as [Hrun _]. discriminate. }
  rewrite <- EP in *.
  apply bindS_ok in Hrun. destruct Hrun as [[c kept] [g1 [Hchain Hrun]]].
  apply bindS_ok in Hrun. destruct Hrun as [s1 [g2 [Hsum Hrun]]].
  apply retS_ok in Hrun. destruct Hrun as [Hs _]. inversion Hs. subst s1.
  apply liftS_ok in Hsum. destruct Hsum as [Hsum _]. cbn [snd] in Hsum.
  destruct (mcmc_chain_centered _ Hchain) as [_ [Hkept _]].
  destruct Hkept as [S [m [-> [Hlen Hzero]]]].
  destruct (summarize_samples np (fit_players matches_list) S
              (mkSummary [] [] [] [] [] []) (fit_players_nodup matches_list)
              (fun i H => H) (fun i _ (H : In i []) => H)) as [s2 [Hrun2 Hs2]].
  unfold summarize in Hsum. rewrite Hrun2 in Hsum. inversion Hsum. subst s2.
  rewrite Hs2. cbn [samples app]. exists S, m. auto.
Qed.

Hypothesis prior_std_nonzero : prior_std <> 0.
Hypothesis thin_nonzero : thin <> 0%nat.
Hypothesis draws_positive : forall g, 0 < fst (random_random np g).

(** In exact arithmetic, with a non-zero prior deviation, a non-zero
    thinning step and positive uniform draws, the sampler raises nothing.
    (The program can still raise where the model cannot: [OverflowError] in
    [log_posterior], [ValueError] from [np.random.normal] for a negative
    [proposal_std].) *)
Lemma mcmc_bradley_terry_total (g : G) :
  exists s g',
    mcmc_bradley_terry np matches_list n_samples burn_in thin
                       proposal_std prior_std g = (Ok (Results s), g').
Proof.
  unfold mcmc_bradley_terry. fold (fit_players matches_list).
  pose proof (fit_players_nonempty matches_nonempty) as Hne.
  destruct (fit_players matches_list) as [|i0 P0] eqn:EP; [contradiction|].
  rewrite <- EP in *.
  unfold mcmc_chain. fold (fit_players matches_list). unfold bindS at 1 2, liftS at 1.
  destruct (log_posterior_total (fun _ => 0) (n (aggregate_matches matches_list))
              (wins_within matches_list) prior_std_nonzero) as [lp Hlp].
  change (map (fun p => (p, 0)) (fit_players matches_list))
    with (tabulate (fun _ : player => 0) (fit_players matches_list)).
  rewrite Hlp.
  destruct (foldS_total
              (fun st : chain * dict (list R) =>
                 shaped (fit_players matches_list) (fst st)
                 /\ samples_centered (fit_players matches_list) (snd st))
              (mcmc_iteration np (fit_players matches_list)
                 (w (aggregate_matches matches_list))
                 (n (aggregate_matches matches_list))
                 burn_in thin proposal_std prior_std)
              (seq 0 (n_samples + burn_in))
              (mkChain (tabulate (fun _ : player => 0)
                                 (fit_players matches_list)) lp 0 0,
               map (fun p => (p, @nil R)) (fit_players matches_list)) g)
    as [[c kept] [g1 [Hrun [_ Hkept]]]].
  - intros a x g0 _ Ha. apply mcmc_iteration_total; try assumption.
    + apply fit_players_nodup.
    + apply wins_within.
  - cbn [fst snd]. split; [exists (fun _ => 0); reflexivity|].
    apply initial_samples_centered.
  - rewrite Hrun. cbn [snd] in *.
    destruct Hkept as [S [m [-> _]]].
    destruct (summarize_samples np (fit_players matches_list) S
                (mkSummary [] [] [] [] [] []) (fit_players_nodup matches_list)
                (fun i H => H) (fun i _ (H : In i []) => H)) as [s2 [Hrun2 _]].
    unfold bindS, liftS, summarize. cbn [snd]. rewrite Hrun2.
    unfold retS. eauto.
Qed.

End SamplerChain.

Lemma counting_draws_positive (g : nat) :
  0 < fst (random_random counting_numpy g).
Proof. simpl. lra. Qed.

(** ** One sweep follows the spec *)






Section SweepRefinement.

Variable G : Type.
Variable np : numpy G.
Variables wins matches : dict (dict nat).
Variables proposal_std prior_std : R.





End SweepRefinement.



(** ** The log-posterior of the two-player example *)

Lemma pair_log_posterior_ok (a b : R) :
  log_posterior [(0%nat, a); (1%nat, b)] pair_wins pair_matches 2
  = Ok (pair_log_posterior a b).
Proof.
  unfold log_posterior, pair_wins, pair_matches, pair_log_posterior.
  cbn [foldM get2 get_dd lookup Nat.eqb Nat.ltb Nat.leb getitem bind].
  rewrite pylog_ok by (apply Rplus_lt_0_compat; apply exp_pos).
  cbn [bind]. rewrite !pydiv_ok by lra. reflexivity.
Qed.

(** ** Likelihood along the MM iteration *)

Lemma ln_quot (a b : R) : 0 < a -> 0 < b -> ln (a / b) = ln a - ln b.
Proof.
  intros Ha Hb. unfold Rdiv. rewrite ln_mult, ln_Rinv; try assumption; [lra|].
  apply Rinv_0_lt_compat, Hb.
Qed.

Lemma ln_le_sub1 (y : R) : 0 < y -> ln y <= y - 1.
Proof.
  intros Hy. pose proof (exp_ineq1_le (ln y)) as H.
  rewrite exp_ln in H by exact Hy. lra.
Qed.

Lemma ln_ge_1_minus_inv (y : R) : 0 < y -> 1 - / y <= ln y.
Proof.
  intros Hy. pose proof (ln_le_sub1 (Rinv_0_lt_compat y Hy)) as H.
  rewrite ln_Rinv in H by exact Hy. lra.
Qed.

(** The gain of one coordinate of the minorizing function is non-negative
    when the new value is the clamped MM value and the old one is at least
    the floor. *)
Lemma coordinate_gain_nonneg (t d q : R) :
  0 <= t -> 0 < epsilon <= q ->
  let u := if Rlt_dec 0 d then t / d else q in
  let c := Rmax u epsilon in
  0 <= t * ln (c / q) - c * d + q * d.
Proof.
  intros Ht [He Hq] u c. assert (Hq0 : 0 < q) by lra.
  unfold c, u. destruct (Rlt_dec 0 d) as [Hd|Hd].
  - unfold Rmax. destruct (Rle_dec (t / d) epsilon) as [Hu|Hu].
    + assert (Htd : t <= epsilon * d).
      { apply (Rmult_le_compat_r d) in Hu; [|lra].
        unfold Rdiv in Hu. rewrite Rmult_assoc, Rinv_l in Hu by lra. lra. }
      assert (Hln : 1 - q / epsilon <= ln (epsilon / q)).
      { pose proof (ln_ge_1_minus_inv (Rdiv_lt_0_compat _ _ He Hq0)) as H.
        replace (/ (epsilon / q)) with (q / epsilon) in H by (field; lra).
        exact H. }
      assert (H1 : t * (1 - q / epsilon) <= t * ln (epsilon / q))
        by (apply Rmult_le_compat_l; assumption).
      assert (H2 : (epsilon * d - t) * ((q - epsilon) / epsilon) >= 0).
      { apply Rle_ge, Rmult_le_pos; [lra|].
        apply Rmult_le_pos; [lra|]. left. apply Rinv_0_lt_compat, He. }
      replace (t * (1 - q / epsilon)) with (- (t * ((q - epsilon) / epsilon)))
        in H1 by (field; lra).
      replace ((epsilon * d - t) * ((q - epsilon) / epsilon))
        with (d * (q - epsilon) - t * ((q - epsilon) / epsilon))
        in H2 by (field; lra).
      lra.
    + assert (Hupos : 0 < t / d) by lra.
      assert (Htpos : 0 < t).
      { destruct Ht as [Ht|Ht]; [exact Ht|].
        subst t. unfold Rdiv in Hupos. rewrite Rmult_0_l in Hupos. lra. }
      assert (Hln : 1 - q * d / t <= ln (t / d / q)).
      { pose proof (ln_ge_1_minus_inv (Rdiv_lt_0_compat _ _ Hupos Hq0)) as H.
        replace (/ (t / d / q)) with (q * d / t) in H by (field; lra).
        exact H. }
      assert (H1 : t * (1 - q * d / t) <= t * ln (t / d / q))
        by (apply Rmult_le_compat_l; lra).
      replace (t * (1 - q * d / t)) with (t - q * d) in H1 by (field; lra).
      replace (t / d * d) with t by (field; lra). lra.
  - rewrite Rmax_left by lra.
    replace (q / q) with 1 by (field; lra). rewrite ln_1. lra.
Qed.

Section Majorization.

Variable matches : list game.

Let P := fit_players matches.
Let tw := fit_wins matches.
Let nn := n (aggregate_matches matches).

Lemma winner_in_players (m : game) : In m matches -> In (fst m) P.
Proof. intros H. apply fit_players_in. exists m. auto. Qed.

Lemma loser_in_players (m : game) : In m matches -> In (snd m) P.
Proof. intros H. apply fit_players_in. exists m. auto. Qed.

(** Sum over players of [t_i * h i] = sum over matches of [h] at the winner. *)
Lemma player_sum_wins (h : player -> R) :
  Rsum (map (fun i => INR (tw i) * h i) P)
  = Rsum (map (fun m : game => h (fst m)) matches).
Proof.
  rewrite (Rsum_map_ext _
    (fun i => Rsum (map (fun m : game =>
                           if Nat.eqb (fst m) i then h i else 0) matches))).
  - rewrite Rsum_swap. apply Rsum_map_ext. intros m Hm.
    apply Rsum_indicator; [apply fit_players_nodup|apply winner_in_players, Hm].
  - intros i _. unfold tw, fit_wins. rewrite total_wins_count. unfold wins_of.
    rewrite <- Rsum_filter_count, Rmult_comm, <- Rsum_map_scal.
    apply Rsum_map_ext. intros m _. destruct (Nat.eqb (fst m) i); lra.
Qed.

(** Sum over players of [x i * denom_i] = sum over matches of
    [(x_w + x_l) / (q_w + q_l)]. *)
Lemma player_sum_denoms (q x : player -> R) :
  Rsum (map (fun i => x i * denom_of nn q i) P)
  = Rsum (map (fun m : game =>
                 (x (fst m) + x (snd m)) / (q (fst m) + q (snd m))) matches).
Proof.
  rewrite (Rsum_map_ext _
    (fun i => Rsum (map (fun m : game =>
        (if Nat.eqb (fst m) i then x i * / (q i + q (snd m)) else 0)
        + (if Nat.eqb (snd m) i then x i * / (q i + q (fst m)) else 0))
      matches))).
  - rewrite Rsum_swap. apply Rsum_map_ext. intros m Hm.
    rewrite Rsum_map_plus.
    rewrite (@Rsum_indicator (fun i => x i * / (q i + q (snd m))) P (fst m)
               (fit_players_nodup matches) (winner_in_players m Hm)).
    rewrite (@Rsum_indicator (fun i => x i * / (q i + q (fst m))) P (snd m)
               (fit_players_nodup matches) (loser_in_players m Hm)).
    rewrite (Rplus_comm (q (snd m)) (q (fst m))). unfold Rdiv. lra.
  - intros i _. unfold denom_of, nn. rewrite wsum_n. unfold opponent_sum.
    rewrite <- Rsum_map_scal. apply Rsum_map_ext. intros m _.
    destruct (Nat.eqb (fst m) i), (Nat.eqb (snd m) i); lra.
Qed.

Lemma likelihood_scale (c : player -> R) (f : R) :
  0 < f -> (forall i, In i P -> 0 < c i) ->
  bt_log_likelihood matches (fun i => c i * f) = bt_log_likelihood matches c.
Proof.
  intros Hf Hc. unfold bt_log_likelihood. apply Rsum_map_ext. intros m Hm.
  pose proof (Hc _ (winner_in_players m Hm)).
  pose proof (Hc _ (loser_in_players m Hm)).
  f_equal. field. split; [lra|].
  assert (0 < c (fst m) * f) by (apply Rmult_lt_0_compat; assumption).
  assert (0 < c (snd m) * f) by (apply Rmult_lt_0_compat; assumption).
  lra.
Qed.

(** The minorization step: the likelihood gain is at least the sum of the
    coordinate gains. *)
Lemma likelihood_gain (q c : player -> R) :
  (forall i, In i P -> 0 < q i) -> (forall i, In i P -> 0 < c i) ->
  Rsum (map (fun i => INR (tw i) * ln (c i / q i)
                      - c i * denom_of nn q i + q i * denom_of nn q i) P)
  <= bt_log_likelihood matches c - bt_log_likelihood matches q.
Proof.
  intros Hq Hc.
  rewrite (Rsum_map_plus
             (fun i => INR (tw i) * ln (c i / q i) - c i * denom_of nn q i)
             (fun i => q i * denom_of nn q i)).
  rewrite (Rsum_map_minus (fun i => INR (tw i) * ln (c i / q i))
                          (fun i => c i * denom_of nn q i)).
  rewrite (player_sum_wins (fun i => ln (c i / q i))).
  rewrite !player_sum_denoms.
  unfold bt_log_likelihood.
  rewrite <- Rsum_map_minus, <- Rsum_map_plus, <- Rsum_map_minus.
  apply Rsum_map_le. intros m Hm.
  pose proof (Hq _ (winner_in_players m Hm)) as Hqw.
  pose proof (Hq _ (loser_in_players m Hm)) as Hql.
  pose proof (Hc _ (winner_in_players m Hm)) as Hcw.
  pose proof (Hc _ (loser_in_players m Hm)) as Hcl.
  rewrite !ln_quot by lra.
  assert (Hr : 0 < (c (fst m) + c (snd m)) / (q (fst m) + q (snd m)))
    by (apply Rdiv_lt_0_compat; lra).
  pose proof (ln_le_sub1 Hr) as Hln. rewrite ln_quot in Hln by lra.
  replace ((q (fst m) + q (snd m)) / (q (fst m) + q (snd m))) with 1
    by (field; lra).
  lra.
Qed.

(** One MM iteration does not lower the likelihood when every strength it
    starts from is at least the floor. *)
Lemma mm_step_increases (q : player -> R) :
  (forall i, In i P -> epsilon <= q i) ->
  bt_log_likelihood matches q
  <= bt_log_likelihood matches (next_of P tw nn q).
Proof.
  intros Hq.
  assert (Hq0 : forall i, In i P -> 0 < q i).
  { intros i Hi. pose proof (Hq i Hi). pose proof epsilon_pos. lra. }
  unfold next_of. rewrite likelihood_scale.
  2:{ apply factor_pos. }
  2:{ intros i _. apply clamped_pos. }
  pose proof (likelihood_gain q (clamped_of tw nn q) Hq0
                (fun i _ => clamped_pos tw nn q i)) as Hgain.
  assert (Hnn : 0 <= Rsum (map (fun i =>
            INR (tw i) * ln (clamped_of tw nn q i / q i)
            - clamped_of tw nn q i * denom_of nn q i
            + q i * denom_of nn q i) P)).
  { apply Rsum_map_nonneg. intros i Hi. unfold clamped_of, update_of.
    apply coordinate_gain_nonneg; [apply pos_INR|].
    split; [apply epsilon_pos|apply Hq, Hi]. }
  lra.
Qed.

End Majorization.

(** ** The iterates held by the fitter *)

Lemma fit_iterates_ok (matches : list game) (max_iter : nat) (tol : R) :
  matches <> [] ->
  fit_iterates matches max_iter tol
  = Ok (map (fun q => tabulate q (fit_players matches))
            ((fun _ => 1)
             :: trace_of max_iter (fit_players matches) (fit_wins matches)
                         (n (aggregate_matches matches)) tol (fun _ => 1))).
Proof.
  intros Hne. unfold fit_iterates. fold (fit_players matches).
  pose proof (fit_players_nonempty Hne) as HP.
  destruct (fit_players matches) as [|i0 P0] eqn:EP; [contradiction|].
  rewrite <- EP in *.
  change (total_wins (fit_players matches) (w (aggregate_matches matches)))
    with (tabulate (fit_wins matches) (fit_players matches)).
  change (initial_strengths (fit_players matches))
    with (tabulate (fun _ : player => 1) (fit_players matches)).
  rewrite mm_trace_ok.
  - reflexivity.
  - apply fit_players_nodup.
  - exact HP.
  - apply fit_rows_closed.
  - intros i _. lra.
Qed.

Lemma likelihood_ext (matches : list game) (s s' : player -> R) :
  (forall i, In i (fit_players matches) -> s i = s' i) ->
  bt_log_likelihood matches s = bt_log_likelihood matches s'.
Proof.
  intros H. unfold bt_log_likelihood. apply Rsum_map_ext. intros m Hm.
  rewrite (H (fst m)), (H (snd m)); [reflexivity| |];
    apply fit_players_in; exists m; auto.
Qed.

Lemma likelihood_tabulate (matches : list game) (q : player -> R) :
  bt_log_likelihood matches (strength_fn (tabulate q (fit_players matches)))
  = bt_log_likelihood matches q.
Proof.
  apply likelihood_ext. intros i Hi. unfold strength_fn.
  apply get_dd_tabulate, Hi.
Qed.

Lemma epsilon_le_1 : epsilon <= 1.
Proof.
  unfold epsilon. rewrite <- Rinv_1. apply Rinv_le_contravar; [lra|].
  apply IZR_le. apply (Z.pow_le_mono_r 10 0 300); lia.
Qed.

(** ** A star tournament on which the likelihood decreases *)

Lemma max_rel_change_ge (P : list player) (q q' : player -> R) (i : player) :
  In i P ->
  Rabs (q' i - q i) / Rmax (q i) epsilon <= max_rel_change_of P q q'.
Proof.
  unfold max_rel_change_of. generalize 0.
  assert (Hmono : forall l m,
            m <= fold_left (fun m i =>
                   let rel_change := Rabs (q' i - q i) / Rmax (q i) epsilon in
                   if Rlt_dec m rel_change then rel_change else m) l m).
  { induction l as [|x l IH]; intros m; cbn [fold_left]; [lra|].
    destruct (Rlt_dec m (Rabs (q' x - q x) / Rmax (q x) epsilon)) as [H|H].
    - eapply Rle_trans; [|apply IH]. lra.
    - apply IH. }
  induction P as [|x l IH]; intros m Hin; [contradiction|].
  cbn [fold_left]. destruct Hin as [->|Hin].
  - destruct (Rlt_dec m (Rabs (q' i - q i) / Rmax (q i) epsilon)) as [H|H].
    + apply Hmono.
    + eapply Rle_trans; [|apply Hmono]. lra.
  - apply IH, Hin.
Qed.

Section Star.

Variable K : nat.
Hypothesis K_pos : (1 <= K)%nat.

Let P := fit_players (star K).
Let tw := fit_wins (star K).
Let nn := n (aggregate_matches (star K)).

Lemma star_in (m : game) :
  In m (star K) <-> exists j, (j < K)%nat /\ m = (S j, 0%nat).
Proof.
  unfold star. rewrite in_map_iff. split.
  - intros [j [<- Hj]]. apply in_seq in Hj. exists j. split; [lia|reflexivity].
  - intros [j [Hj ->]]. exists j. split; [reflexivity|]. apply in_seq. lia.
Qed.

Lemma star_players_in (x : player) : In x P <-> (x <= K)%nat.
Proof.
  unfold P. rewrite fit_players_in. split.
  - intros [m [Hm Hx]]. apply star_in in Hm. destruct Hm as [j [Hj ->]].
    cbn [fst snd] in Hx. destruct Hx; subst; lia.
  - intros Hx. destruct x as [|j].
    + exists (1%nat, 0%nat). split; [apply star_in; exists 0%nat; split; [lia|reflexivity]|].
      right. reflexivity.
    + exists (S j, 0%nat). split; [apply star_in; exists j; split; [lia|reflexivity]|].
      left. reflexivity.
Qed.

Lemma star_players_perm : Permutation P (0%nat :: map S (seq 0 K)).
Proof.
  apply NoDup_Permutation.
  - apply fit_players_nodup.
  - constructor.
    + rewrite in_map_iff. intros [j [Hj _]]. discriminate.
    + rewrite seq_shift. apply seq_NoDup.
  - intros x. rewrite star_players_in. cbn [In]. rewrite in_map_iff. split.
    + intros Hx. destruct x as [|j]; [left; reflexivity|].
      right. exists j. split; [reflexivity|]. apply in_seq. lia.
    + intros [<-|[j [<- Hj]]]; [lia|]. apply in_seq in Hj. lia.
Qed.

Lemma star_players_length : length P = S K.
Proof.
  rewrite (Permutation_length star_players_perm). cbn [length].
  rewrite length_map, length_seq. reflexivity.
Qed.

(** Sums over the players split into player [0] and the winners. *)
Lemma star_player_sum (h : player -> R) :
  Rsum (map h P) = h 0%nat + Rsum (map (fun j => h (S j)) (seq 0 K)).
Proof.
  rewrite (Rsum_perm (Permutation_map h star_players_perm)).
  cbn [map]. rewrite Rsum_cons, map_map. reflexivity.
Qed.

Lemma star_opponent_sum_hub (g : player -> R) :
  opponent_sum g (star K) 0%nat = Rsum (map (fun j => g (S j)) (seq 0 K)).
Proof.
  unfold opponent_sum, star. rewrite map_map. apply Rsum_map_ext.
  intros j _. cbn [fst snd Nat.eqb]. lra.
Qed.

Lemma star_opponent_sum_winner (g : player -> R) (j : nat) :
  (j < K)%nat -> opponent_sum g (star K) (S j) = g 0%nat.
Proof.
  intros Hj. unfold opponent_sum, star. rewrite map_map.
  rewrite (Rsum_map_ext _ (fun i => if Nat.eqb j i then g 0%nat else 0)).
  - apply (@Rsum_indicator (fun _ => g 0%nat)); [apply seq_NoDup|].
    apply in_seq. lia.
  - intros i _. cbn [fst snd Nat.eqb]. rewrite (Nat.eqb_sym i j).
    destruct (Nat.eqb j i); lra.
Qed.

Lemma star_wins_hub : tw 0%nat = 0%nat.
Proof.
  unfold tw, fit_wins. rewrite total_wins_count. unfold wins_of, star.
  apply INR_eq. rewrite <- Rsum_filter_count, map_map.
  apply Rsum_map_zero. intros j _. reflexivity.
Qed.

Lemma star_wins_winner (j : nat) : (j < K)%nat -> tw (S j) = 1%nat.
Proof.
  intros Hj. unfold tw, fit_wins. rewrite total_wins_count. unfold wins_of, star.
  apply INR_eq. rewrite <- Rsum_filter_count, map_map.
  rewrite (Rsum_map_ext _ (fun i => if Nat.eqb j i then 1 else 0)).
  - rewrite (@Rsum_indicator (fun _ => 1)); [reflexivity|apply seq_NoDup|].
    apply in_seq. lia.
  - intros i _. cbn [fst Nat.eqb]. rewrite (Nat.eqb_sym i j). reflexivity.
Qed.

(** Likelihood of the star at strengths [a] for every winner, [b] for
    player [0]. *)
Lemma star_likelihood (s : player -> R) (a b : R) :
  s 0%nat = b -> (forall j, (j < K)%nat -> s (S j) = a) ->
  bt_log_likelihood (star K) s = INR K * ln (a / (a + b)).
Proof.
  intros Hb Ha. unfold bt_log_likelihood, star. rewrite map_map.
  rewrite (Rsum_map_ext _ (fun _ => ln (a / (a + b)))).
  - rewrite Rsum_map_const, length_seq. reflexivity.
  - intros j Hj. apply in_seq in Hj. cbn [fst snd].
    rewrite Hb, Ha by lia. reflexivity.
Qed.

(** Clamped MM values on the star at strengths [a] (winners), [b] (player 0). *)
Lemma star_clamped (q : player -> R) (a b : R) :
  0 < a -> 0 < b -> epsilon <= a + b ->
  q 0%nat = b -> (forall j, (j < K)%nat -> q (S j) = a) ->
  clamped_of tw nn q 0%nat = epsilon
  /\ forall j, (j < K)%nat -> clamped_of tw nn q (S j) = a + b.
Proof.
  intros Ha Hb Hab Hq0 Hqw.
  assert (Hinv : 0 < / (a + b)) by (apply Rinv_0_lt_compat; lra).
  split.
  - unfold clamped_of, update_of, denom_of, nn. rewrite wsum_n.
    rewrite star_opponent_sum_hub, star_wins_hub.
    rewrite (Rsum_map_ext _ (fun _ => / (b + a))).
    2:{ intros j Hj. apply in_seq in Hj. rewrite Hq0, Hqw by lia. reflexivity. }
    rewrite Rsum_map_const, length_seq.
    assert (HK : 0 < INR K) by (apply lt_0_INR; lia).
    rewrite (Rplus_comm b a).
    destruct (Rlt_dec 0 (INR K * / (a + b))) as [Hd|Hd].
    + cbn [INR]. unfold Rdiv. rewrite Rmult_0_l.
      apply Rmax_right. left. apply epsilon_pos.
    + exfalso. apply Hd. apply Rmult_lt_0_compat; assumption.
  - intros j Hj. unfold clamped_of, update_of, denom_of, nn. rewrite wsum_n.
    rewrite star_opponent_sum_winner by exact Hj.
    rewrite star_wins_winner by exact Hj.
    rewrite Hq0, Hqw by exact Hj.
    destruct (Rlt_dec 0 (/ (a + b))) as [Hd|Hd]; [|contradiction].
    cbn [INR]. replace (1 / / (a + b)) with (a + b) by (field; lra).
    apply Rmax_left. exact Hab.
Qed.

End Star.

Section StarDecrease.

Variable K : nat.
Hypothesis K_pos : (1 <= K)%nat.
Hypothesis K_large : 2 * IZR (10 ^ 300) <= 2 ^ K.
Hypothesis K_small : INR (S K) * epsilon <= 1.

Let P := fit_players (star K).
Let tw := fit_wins (star K).
Let nn := n (aggregate_matches (star K)).
Let q0 : player -> R := fun _ => 1.
Let q1 := next_of P tw nn q0.
Let q2 := next_of P tw nn q1.
Let f1 := factor_of P (clamped_of tw nn q0).

Lemma ln_le_mono (x y : R) : 0 < x -> x <= y -> ln x <= ln y.
Proof.
  intros Hx [Hlt|Heq]; [left; apply ln_increasing; assumption|].
  rewrite Heq. lra.
Qed.

Lemma star_first_clamped :
  clamped_of tw nn q0 0%nat = epsilon
  /\ forall j, (j < K)%nat -> clamped_of tw nn q0 (S j) = 1 + 1.
Proof.
  apply star_clamped; try exact K_pos; try lra; try reflexivity.
  pose proof epsilon_le_1. lra.
Qed.

Lemma star_first_factor :
  f1 = exp (- ((ln epsilon + INR K * ln 2) / INR (S K))).
Proof.
  destruct star_first_clamped as [Hhub Hwin].
  unfold f1, factor_of. unfold P at 2. rewrite star_players_length by exact K_pos.
  do 3 f_equal. unfold P.
  rewrite (star_player_sum K_pos (fun i => ln (clamped_of tw nn q0 i))).
  rewrite Hhub. f_equal.
  rewrite (Rsum_map_ext _ (fun _ => ln 2)).
  - rewrite Rsum_map_const, length_seq. reflexivity.
  - intros j Hj. apply in_seq in Hj. rewrite Hwin by lia.
    replace (1 + 1) with 2 by lra. reflexivity.
Qed.

Lemma star_log_sum_large : ln 2 <= ln epsilon + INR K * ln 2.
Proof.
  assert (HT : 0 < IZR (10 ^ 300)).
  { apply IZR_lt. apply Z.pow_pos_nonneg; lia. }
  unfold epsilon. rewrite ln_Rinv by exact HT.
  rewrite <- ln_pow by lra.
  assert (H : ln (2 * IZR (10 ^ 300)) <= ln (2 ^ K))
    by (apply ln_le_mono; [lra|exact K_large]).
  rewrite ln_mult in H by lra. lra.
Qed.

Lemma star_first_factor_bounds : / 2 <= f1 /\ f1 * (2 + epsilon) < 2.
Proof.
  pose proof star_log_sum_large as Hlarge.
  pose proof ln_lt_2 as Hln2. pose proof epsilon_pos as He.
  assert (HK : 0 < INR (S K)) by (apply lt_0_INR; lia).
  rewrite star_first_factor.
  set (s := ln epsilon + INR K * ln 2) in *.
  assert (Hupper : s / INR (S K) <= ln 2).
  { assert (Hle : ln epsilon <= 0).
    { rewrite <- ln_1. apply ln_le_mono; [exact He|apply epsilon_le_1]. }
    apply (Rmult_le_reg_r (INR (S K))); [exact HK|].
    unfold Rdiv. rewrite Rmult_assoc, Rinv_l by lra.
    rewrite S_INR. unfold s. lra. }
  assert (Hlower : epsilon / 2 < s / INR (S K)).
  { apply (Rmult_lt_reg_r (INR (S K))); [exact HK|].
    unfold Rdiv at 2. rewrite Rmult_assoc, Rinv_l by lra. lra. }
  split.
  - replace (/ 2) with (exp (- ln 2)).
    + destruct Hupper as [Hlt|Heq].
      * left. apply exp_increasing. lra.
      * rewrite Heq. lra.
    + rewrite exp_Ropp, exp_ln by lra. reflexivity.
  - assert (H1 : exp (- (s / INR (S K))) < exp (- (epsilon / 2)))
      by (apply exp_increasing; lra).
    assert (H2 : 1 + epsilon / 2 <= exp (epsilon / 2)) by apply exp_ineq1_le.
    assert (H3 : exp (- (epsilon / 2)) * exp (epsilon / 2) = 1).
    { rewrite <- exp_plus. replace (- (epsilon / 2) + epsilon / 2) with 0 by lra.
      apply exp_0. }
    pose proof (exp_pos (- (epsilon / 2))) as H4.
    pose proof (exp_pos (- (s / INR (S K)))) as H5.
    assert (H6 : exp (- (epsilon / 2)) * (1 + epsilon / 2) <= 1).
    { rewrite <- H3. apply Rmult_le_compat_l; lra. }
    assert (H7 : exp (- (s / INR (S K))) * (1 + epsilon / 2)
                 < exp (- (epsilon / 2)) * (1 + epsilon / 2)).
    { apply Rmult_lt_compat_r; lra. }
    lra.
Qed.

Lemma star_first_iterate :
  q1 0%nat = epsilon * f1 /\ forall j, (j < K)%nat -> q1 (S j) = (1 + 1) * f1.
Proof.
  destruct star_first_clamped as [Hhub Hwin].
  unfold q1, next_of. fold f1. rewrite Hhub. split; [reflexivity|].
  intros j Hj. rewrite Hwin by exact Hj. reflexivity.
Qed.

Lemma star_second_clamped :
  clamped_of tw nn q1 0%nat = epsilon
  /\ forall j, (j < K)%nat ->
       clamped_of tw nn q1 (S j) = (1 + 1) * f1 + epsilon * f1.
Proof.
  destruct star_first_iterate as [Hhub Hwin].
  destruct star_first_factor_bounds as [Hf _]. pose proof epsilon_pos as He.
  pose proof epsilon_le_1 as He1.
  assert (Hf0 : 0 < f1) by lra.
  apply star_clamped; try exact K_pos; try assumption.
  - apply Rmult_lt_0_compat; lra.
  - apply Rmult_lt_0_compat; lra.
  - assert (0 <= epsilon * f1) by (apply Rmult_le_pos; lra). lra.
Qed.

(** On the star the second iteration lowers the likelihood. *)
Lemma star_likelihood_decreases :
  bt_log_likelihood (star K) q2 < bt_log_likelihood (star K) q1.
Proof.
  destruct star_first_iterate as [Hhub1 Hwin1].
  destruct star_second_clamped as [Hhub2 Hwin2].
  destruct star_first_factor_bounds as [Hf Hf2]. pose proof epsilon_pos as He.
  assert (Hf0 : 0 < f1) by lra.
  assert (Hef : 0 < epsilon * f1) by (apply Rmult_lt_0_compat; lra).
  unfold q2, next_of. rewrite likelihood_scale.
  2:{ apply factor_pos. }
  2:{ intros i _. apply clamped_pos. }
  rewrite (star_likelihood K_pos (clamped_of tw nn q1) Hhub2 Hwin2).
  rewrite (star_likelihood K_pos q1 Hhub1 Hwin1).
  apply Rmult_lt_compat_l; [apply lt_0_INR; lia|].
  apply ln_increasing.
  - apply Rdiv_lt_0_compat; lra.
  - set (C := (1 + 1) * f1 + epsilon * f1) in *.
    assert (HC : C < 2) by (unfold C; lra).
    assert (HC0 : 0 < C) by (unfold C; lra).
    replace ((1 + 1) * f1 / C) with (2 / (2 + epsilon))
      by (unfold C; field; lra).
    apply (Rmult_lt_reg_r ((C + epsilon) * (2 + epsilon))).
    + apply Rmult_lt_0_compat; lra.
    + replace (C / (C + epsilon) * ((C + epsilon) * (2 + epsilon)))
        with (C * (2 + epsilon)) by (field; lra).
      replace (2 / (2 + epsilon) * ((C + epsilon) * (2 + epsilon)))
        with (2 * (C + epsilon)) by (field; lra).
      nra.
Qed.

(** The first relative change is large: the loop does not stop after one
    iteration for any tolerance up to [1/2]. *)
Lemma star_first_change (tol : R) :
  tol <= / 2 -> ~ max_rel_change_of P q0 q1 < tol.
Proof.
  intros Htol Hlt.
  assert (Hin : In 0%nat P) by (apply star_players_in; lia).
  pose proof (max_rel_change_ge P q0 q1 0%nat Hin) as Hge.
  destruct star_first_iterate as [Hhub _]. rewrite Hhub in Hge.
  destruct star_first_factor_bounds as [Hf Hf2]. pose proof epsilon_pos as He.
  pose proof epsilon_le_1 as He1.
  assert (Hef : 0 < epsilon * f1) by (apply Rmult_lt_0_compat; lra).
  assert (Hef2 : epsilon * f1 < / 2).
  { assert (f1 < 1) by nra. 
    assert (epsilon <= / 2).
    { unfold epsilon. apply Rinv_le_contravar; [lra|].
      apply IZR_le. apply Z.leb_le. reflexivity. }
    nra. }
  change (q0 0%nat) with 1 in Hge.
  rewrite (Rmax_left 1 epsilon) in Hge by exact He1.
  rewrite Rabs_left in Hge by lra. lra.
Qed.

End StarDecrease.

Lemma star_nonempty (K : nat) : (1 <= K)%nat -> star K <> [].
Proof.
  intros HK H. apply (f_equal (@length game)) in H.
  unfold star in H. rewrite length_map, length_seq in H. simpl in H. lia.
Qed.

Lemma star_iterates_decrease (K max_iter : nat) (tol : R) :
  (1 <= K)%nat -> 2 * IZR (10 ^ 300) <= 2 ^ K -> INR (S K) * epsilon <= 1 ->
  (2 <= max_iter)%nat -> tol <= / 2 ->
  exists p0 p1 p2 rest,
    fit_iterates (star K) max_iter tol = Ok (p0 :: p1 :: p2 :: rest)
    /\ bt_log_likelihood (star K) (strength_fn p2)
       < bt_log_likelihood (star K) (strength_fn p1).
Proof.
  intros HK Hlarge Hsmall Hiter Htol.
  destruct max_iter as [|[|k]]; try lia.
  rewrite fit_iterates_ok by (apply star_nonempty, HK).
  cbn [trace_of].
  destruct (Rlt_dec _ tol) as [Hstop|_].
  { exfalso. exact (star_first_change HK Hlarge Hsmall Htol Hstop). }
  set (P := fit_players (star K)).
  set (tw := fit_wins (star K)).
  set (nn := n (aggregate_matches (star K))).
  set (q1 := next_of P tw nn (fun _ => 1)).
  set (q2 := next_of P tw nn q1).
  assert (Hdec : bt_log_likelihood (star K) (strength_fn (tabulate q2 P))
                 < bt_log_likelihood (star K) (strength_fn (tabulate q1 P))).
  { unfold P. rewrite !likelihood_tabulate.
    exact (star_likelihood_decreases HK Hlarge Hsmall). }
  destruct (Rlt_dec _ tol); cbn [map]; do 4 eexists; split;
    try reflexivity; exact Hdec.
Qed.

(** C2: the module docstring promises MM updates that increase the
    likelihood, and the code breaks the promise at the second iteration of a
    star tournament of a thousand winners over one common opponent.  After
    the first iteration the opponent (no wins) is clamped to [epsilon] and
    the renormalisation factor is below one, so its strength drops below the
    floor; the second iteration lifts it back to the floor, and the
    log-likelihood of the matches goes down. *)
Theorem likelihood_decreases_on_star :
  exists p0 p1 p2 rest,
    fit_iterates (star 1000) default_max_iter default_tol
    = Ok (p0 :: p1 :: p2 :: rest)
    /\ bt_log_likelihood (star 1000) (strength_fn p2)
       < bt_log_likelihood (star 1000) (strength_fn p1).
Proof.
  apply star_iterates_decrease.
  - lia.
  - change 2 with (IZR 2). rewrite <- mult_IZR, pow_IZR.
    apply IZR_le. apply Z.leb_le. vm_compute. reflexivity.
  - unfold epsilon. rewrite INR_IZR_INZ.
    assert (HT : 0 < IZR (10 ^ 300)).
    { apply IZR_lt. apply Z.pow_pos_nonneg; lia. }
    apply (Rmult_le_reg_r (IZR (10 ^ 300))); [exact HT|].
    rewrite Rmult_assoc, Rinv_l, Rmult_1_r, Rmult_1_l by lra.
    apply IZR_le. apply Z.leb_le. vm_compute. reflexivity.
  - unfold default_max_iter. lia.
  - unfold default_tol. apply Rinv_le_contravar; [lra|].
    apply IZR_le. apply Z.leb_le. vm_compute. reflexivity.
Qed.

(** ** The log-posterior on match lists without reciprocated pairs *)

Lemma keys_setitem_nodup {V : Type} (d : dict V) k v :
  NoDup (keys d) -> NoDup (keys (setitem d k v)).
Proof.
  intros H. destruct (in_dec Nat.eq_dec k (keys d)) as [Hin|Hin].
  - rewrite keys_setitem_in by exact Hin. exact H.
  - rewrite keys_setitem_notin by exact Hin.
    apply NoDup_app; [exact H|constructor; [intros []|constructor]|].
    intros x Hx [<-|[]]. contradiction.
Qed.

Lemma lookup_nodup_in {V : Type} (d : dict V) k v :
  NoDup (keys d) -> In (k, v) d -> lookup d k = Some v.
Proof.
  induction d as [|[k0 v0] d IH]; intros Hnd Hin; [contradiction|].
  inversion Hnd as [|? ? Hk Hnd']; subst. cbn [lookup].
  destruct Hin as [Heq|Hin].
  - inversion Heq. subst. rewrite Nat.eqb_refl. reflexivity.
  - destruct (Nat.eqb_spec k0 k) as [->|Hne].
    + exfalso. apply Hk. exact (in_keys _ _ _ Hin).
    + apply IH; assumption.
Qed.

Lemma distinct_keys_incr2 (d : dict (dict nat)) a b :
  distinct_keys d -> distinct_keys (incr2 d a b).
Proof.
  intros [Hd Hrows]. unfold incr2. split; [apply keys_setitem_nodup, Hd|].
  intros i row Hin. apply in_setitem in Hin.
  destruct Hin as [[-> ->]|Hin]; [|exact (Hrows i row Hin)].
  unfold incr. apply keys_setitem_nodup.
  destruct (get_dd_cases (@nil (player * nat)) d a) as [E|E].
  - rewrite E. constructor.
  - exact (Hrows a _ E).
Qed.

Lemma distinct_keys_wins (matches : list game) :
  distinct_keys (w (aggregate_matches matches)).
Proof.
  unfold aggregate_matches.
  assert (H : forall a, distinct_keys (w a) ->
                        distinct_keys (w (aggregate_from a matches))).
  { induction matches as [|[winner loser] ms IH]; intros a Ha; [exact Ha|].
    apply IH. cbn [aggregate_step w]. apply distinct_keys_incr2, Ha. }
  apply H. split; [constructor|intros i row []].
Qed.

Lemma wsum2_incr2 (g : player -> player -> R) (d : dict (dict nat)) a b :
  wsum2 g (incr2 d a b) = wsum2 g d + g a b.
Proof.
  unfold incr2. induction d as [|[k row] d IH].
  - unfold wsum2, get_dd. cbn [lookup setitem map fst snd].
    rewrite Rsum_cons, wsum_incr. unfold wsum. simpl. lra.
  - unfold get_dd in *. cbn [lookup setitem].
    destruct (Nat.eqb_spec k a) as [->|Hne].
    + unfold wsum2. cbn [map fst snd]. rewrite !Rsum_cons, wsum_incr. lra.
    + unfold wsum2 in *. cbn [map fst snd]. rewrite !Rsum_cons, IH. lra.
Qed.

Lemma wsum2_wins (g : player -> player -> R) (matches : list game) :
  wsum2 g (w (aggregate_matches matches))
  = Rsum (map (fun m : game => g (fst m) (snd m)) matches).
Proof.
  unfold aggregate_matches.
  assert (H : forall a,
            wsum2 g (w (aggregate_from a matches))
            = wsum2 g (w a)
              + Rsum (map (fun m : game => g (fst m) (snd m)) matches)).
  { induction matches as [|[winner loser] ms IH]; intros a.
    - simpl. lra.
    - change (aggregate_from a ((winner, loser) :: ms))
        with (aggregate_from (aggregate_step a (winner, loser)) ms).
      rewrite IH. cbn [aggregate_step w map fst snd].
      rewrite wsum2_incr2, Rsum_cons. lra. }
  rewrite H. unfold wsum2. simpl. lra.
Qed.

Lemma no_reciprocated_spec (matches : list game) i j :
  no_reciprocated matches = true ->
  (0 < games_won matches i j)%nat -> games_won matches j i = 0%nat.
Proof.
  intros Hno Hpos. unfold no_reciprocated in Hno. rewrite forallb_forall in Hno.
  unfold games_won in *.
  destruct (filter (fun m : game => Nat.eqb (fst m) i && Nat.eqb (snd m) j)
                   matches) as [|m l] eqn:E; [simpl in Hpos; lia|].
  assert (Hm : In m (filter (fun m : game =>
                  Nat.eqb (fst m) i && Nat.eqb (snd m) j) matches))
    by (rewrite E; left; reflexivity).
  apply filter_In in Hm. destruct Hm as [Hin Hij].
  apply andb_true_iff in Hij. destruct Hij as [Hi Hj].
  apply Nat.eqb_eq in Hi. apply Nat.eqb_eq in Hj.
  specialize (Hno m Hin). apply negb_true_iff in Hno.
  destruct (filter (fun m0 : game => Nat.eqb (fst m0) j && Nat.eqb (snd m0) i)
                   matches) as [|m' l'] eqn:E'; [reflexivity|].
  assert (Hm' : In m' (filter (fun m0 : game =>
                  Nat.eqb (fst m0) j && Nat.eqb (snd m0) i) matches))
    by (rewrite E'; left; reflexivity).
  apply filter_In in Hm'. destruct Hm' as [Hin' Hji].
  assert (Hex : existsb (fun m' : game =>
                  Nat.eqb (fst m') (snd m) && Nat.eqb (snd m') (fst m))
                matches = true).
  { apply existsb_exists. exists m'. split; [exact Hin'|].
    rewrite Hi, Hj. exact Hji. }
  rewrite Hex in Hno. discriminate.
Qed.

(** The log-sum-exp form of the code is the log of the sum. *)
Lemma log_sum_exp (x y : R) :
  Rmax x y + ln (exp (x - Rmax x y) + exp (y - Rmax x y)) = ln (exp x + exp y).
Proof.
  set (M := Rmax x y).
  assert (Hpos : 0 < exp (x - M) + exp (y - M))
    by (apply Rplus_lt_0_compat; apply exp_pos).
  rewrite <- (ln_exp M) at 1. rewrite <- ln_mult by (try apply exp_pos; exact Hpos).
  f_equal. rewrite Rmult_plus_distr_l, <- !exp_plus. f_equal; f_equal; lra.
Qed.

Lemma counts_positive_incr2 (d : dict (dict nat)) a b :
  counts_positive d -> counts_positive (incr2 d a b).
Proof.
  intros Hd i row j c Hrow Hin. unfold incr2 in Hrow.
  apply in_setitem in Hrow. destruct Hrow as [[-> ->]|Hrow];
    [|exact (Hd i row j c Hrow Hin)].
  unfold incr in Hin. apply in_setitem in Hin.
  destruct Hin as [[-> ->]|Hin]; [lia|].
  destruct (get_dd_cases (@nil (player * nat)) d a) as [E|E].
  - rewrite E in Hin. contradiction.
  - exact (Hd a _ j c E Hin).
Qed.

Lemma counts_positive_wins (matches : list game) :
  counts_positive (w (aggregate_matches matches)).
Proof.
  unfold aggregate_matches.
  assert (H : forall a, counts_positive (w a) ->
                        counts_positive (w (aggregate_from a matches))).
  { induction matches as [|[winner loser] ms IH]; intros a Ha; [exact Ha|].
    apply IH. cbn [aggregate_step w]. apply counts_positive_incr2, Ha. }
  apply H. intros i row j c [].
Qed.

Lemma prior_fold (prior_std : R) (d : dict R) (acc : R) :
  prior_std <> 0 ->
  foldM (fun log_prob (e : player * R) =>
           let '(_, rating) := e in
           q <- pydiv rating prior_std ;;
           Ok (log_prob - (1 / 2) * q ^ 2)) d acc
  = Ok (acc + gaussian_log_prior d prior_std).
Proof.
  intros Hstd. revert acc. unfold gaussian_log_prior.
  induction d as [|[k v] d IH]; intros acc.
  - simpl. f_equal. lra.
  - cbn [foldM]. rewrite pydiv_ok by exact Hstd. cbn [bind]. rewrite IH.
    f_equal. cbn [values map snd]. rewrite Rsum_cons. unfold values. lra.
Qed.

Section NoReciprocated.

Variable matches : list game.
Variable r : player -> R.
Variable prior_std : R.

Hypothesis no_recip : no_reciprocated matches = true.
Hypothesis prior_std_nonzero : prior_std <> 0.

Let P := fit_players matches.
Let wins := w (aggregate_matches matches).
Let totals := n (aggregate_matches matches).
Let log_p (i j : player) : R := r i - ln (exp (r i) + exp (r j)).

Lemma likelihood_entry (i j : player) (row : dict nat) (c : nat) (acc : R) :
  In (i, row) wins -> In (j, c) row ->
  (let n_ij := get2 totals i j in
   if Nat.ltb 0 n_ij then
     let w_ji := (Z.of_nat n_ij - Z.of_nat c)%Z in
     r_i <- getitem (tabulate r P) i ;;
     r_j <- getitem (tabulate r P) j ;;
     let max_r := Rmax r_i r_j in
     l <- pylog (exp (r_i - max_r) + exp (r_j - max_r)) ;;
     let log_sum := max_r + l in
     Ok (acc + INR c * (r_i - log_sum) + IZR w_ji * (r_j - log_sum))
   else Ok acc)
  = Ok (acc + INR c * log_p i j).
Proof.
  intros Hrow Hin.
  destruct (distinct_keys_wins matches) as [Hnd Hrows].
  assert (Hc : get2 wins i j = c).
  { pose proof (@lookup_nodup_in (dict nat) wins i row Hnd Hrow) as E1.
    pose proof (@lookup_nodup_in nat row j c (Hrows i row Hrow) Hin) as E2.
    unfold get2, get_dd.
    change (@lookup (list (player * nat)) wins i)
      with (@lookup (dict nat) wins i).
    rewrite E1, E2. reflexivity. }
  assert (Hpos : (1 <= c)%nat)
    by exact (counts_positive_wins matches i row j c Hrow Hin).
  unfold wins in Hc. rewrite get2_w_count in Hc.
  assert (Hrev : games_won matches j i = 0%nat)
    by (apply no_reciprocated_spec; [exact no_recip|lia]).
  destruct (wins_within matches i row Hrow) as [Hi Hkeys].
  assert (Hj : In j P) by (apply Hkeys; exact (in_keys _ _ _ Hin)).
  unfold totals. rewrite get2_n_count, Hc, Hrev, Nat.add_0_r.
  cbv zeta. destruct (Nat.ltb_spec 0 c) as [_|Hlt]; [|lia].
  rewrite !getitem_tabulate by assumption. cbn [bind].
  rewrite pylog_ok by (apply Rplus_lt_0_compat; apply exp_pos). cbn [bind].
  rewrite log_sum_exp, Z.sub_diag. unfold log_p. f_equal. lra.
Qed.

Lemma likelihood_fold :
  foldM (fun log_prob (ei : player * dict nat) =>
           let '(i, row) := ei in
           foldM (fun log_prob (ej : player * nat) =>
                    let '(j, w_ij) := ej in
                    let n_ij := get2 totals i j in
                    if Nat.ltb 0 n_ij then
                      let w_ji := (Z.of_nat n_ij - Z.of_nat w_ij)%Z in
                      r_i <- getitem (tabulate r P) i ;;
                      r_j <- getitem (tabulate r P) j ;;
                      let max_r := Rmax r_i r_j in
                      l <- pylog (exp (r_i - max_r) + exp (r_j - max_r)) ;;
                      let log_sum := max_r + l in
                      Ok (log_prob + INR w_ij * (r_i - log_sum)
                                   + IZR w_ji * (r_j - log_sum))
                    else Ok log_prob)
                 row log_prob)
        wins 0
  = Ok (wsum2 log_p wins).
Proof.
  assert (Hinner : forall i row, In (i, row) wins ->
            forall row' acc, (forall e, In e row' -> In e row) ->
            foldM (fun log_prob (ej : player * nat) =>
                     let '(j, w_ij) := ej in
                     let n_ij := get2 totals i j in
                     if Nat.ltb 0 n_ij then
                       let w_ji := (Z.of_nat n_ij - Z.of_nat w_ij)%Z in
                       r_i <- getitem (tabulate r P) i ;;
                       r_j <- getitem (tabulate r P) j ;;
                       let max_r := Rmax r_i r_j in
                       l <- pylog (exp (r_i - max_r) + exp (r_j - max_r)) ;;
                       let log_sum := max_r + l in
                       Ok (log_prob + INR w_ij * (r_i - log_sum)
                                    + IZR w_ji * (r_j - log_sum))
                     else Ok log_prob)
                  row' acc
            = Ok (acc + wsum (log_p i) row')).
  { intros i row Hrow row'.
    match goal with |- forall acc, _ -> foldM ?f _ _ = _ => set (step := f) end.
    assert (Hstep : forall acc j c, In (j, c) row ->
              step acc (j, c) = Ok (acc + INR c * log_p i j)).
    { intros acc j c Hin. exact (likelihood_entry i j row c acc Hrow Hin). }
    clearbody step.
    induction row' as [|[j c] row' IH]; intros acc Hsub.
    - unfold wsum. simpl. f_equal. lra.
    - cbn [foldM]. rewrite Hstep by (apply Hsub; left; reflexivity).
      cbn [bind]. rewrite IH by (intros e He; apply Hsub; right; exact He).
      f_equal. unfold wsum. cbn [map fst snd]. rewrite Rsum_cons. lra. }
  assert (Houter : forall d acc, (forall e, In e d -> In e wins) ->
            foldM (fun log_prob (ei : player * dict nat) =>
                     let '(i, row) := ei in
                     foldM (fun log_prob (ej : player * nat) =>
                              let '(j, w_ij) := ej in
                              let n_ij := get2 totals i j in
                              if Nat.ltb 0 n_ij then
                                let w_ji := (Z.of_nat n_ij - Z.of_nat w_ij)%Z in
                                r_i <- getitem (tabulate r P) i ;;
                                r_j <- getitem (tabulate r P) j ;;
                                let max_r := Rmax r_i r_j in
                                l <- pylog (exp (r_i - max_r)
                                            + exp (r_j - max_r)) ;;
                                let log_sum := max_r + l in
                                Ok (log_prob + INR w_ij * (r_i - log_sum)
                                             + IZR w_ji * (r_j - log_sum))
                              else Ok log_prob)
                           row log_prob)
                  d acc
            = Ok (acc + wsum2 log_p d)).
  { intros d.
    match goal with |- forall acc, _ -> foldM ?f _ _ = _ => set (step := f) end.
    assert (Hstep : forall acc i row, In (i, row) wins ->
              step acc (i, row) = Ok (acc + wsum (log_p i) row)).
    { intros acc i row Hrow. exact (Hinner i row Hrow row acc (fun e H => H)). }
    clearbody step.
    induction d as [|[i row] d IH]; intros acc Hsub.
    - unfold wsum2. simpl. f_equal. lra.
    - cbn [foldM]. rewrite Hstep by (apply Hsub; left; reflexivity).
      cbn [bind]. rewrite IH by (intros e He; apply Hsub; right; exact He).
      f_equal. unfold wsum2. cbn [map fst snd]. rewrite Rsum_cons. lra. }
  rewrite (Houter wins 0 (fun e H => H)). f_equal. lra.
Qed.

(** On a match list in which no two players have beaten each other the code
    returns the Bradley-Terry log-posterior of the spec. *)
Lemma log_posterior_without_reciprocated :
  log_posterior (tabulate r P) wins totals prior_std
  = Ok (bt_log_posterior matches (tabulate r P) prior_std).
Proof.
  unfold log_posterior.
  match goal with
  | |- bind ?c _ = _ =>
      replace c with (Ok (wsum2 log_p wins))
        by (symmetry; exact likelihood_fold)
  end.
  cbn [bind].
  rewrite prior_fold by exact prior_std_nonzero. f_equal.
  unfold bt_log_posterior. f_equal.
  unfold wins. rewrite wsum2_wins. unfold bt_log_likelihood.
  apply Rsum_map_ext. intros m Hm.
  rewrite !get_dd_tabulate
    by (apply fit_players_in; exists m; auto).
  rewrite ln_quot by (try apply Rplus_lt_0_compat; apply exp_pos).
  rewrite ln_exp. reflexivity.
Qed.

End NoReciprocated.

Example log_posterior_chain_example :
  let matches := [(0, 1); (1, 2); (0, 1)]%nat in
  let agg := aggregate_matches matches in
  let log_ratings := tabulate (fun i => INR i) (fit_players matches) in
  log_posterior log_ratings (w agg) (n agg) 2
  = Ok (bt_log_posterior matches log_ratings 2).
Proof.
  intros matches agg log_ratings.
  apply log_posterior_without_reciprocated; [reflexivity|lra].
Qed.

(** ** A fit that leaves the range of the doubles *)

Section TwoWins.

Let P := fit_players two_wins.
Let tw := fit_wins two_wins.
Let nn := n (aggregate_matches two_wins).
Let q0 : player -> R := fun _ => 1.
Let q1 := next_of P tw nn q0.
Let q2 := next_of P tw nn q1.
Let f1 := factor_of P (clamped_of tw nn q0).

(** Clamped MM values on [two_wins] at strengths [a] (the winner) and [b]
    (both losers). *)
Lemma two_wins_clamped (q : player -> R) (a b : R) :
  0 < a -> 0 < b -> epsilon <= a + b ->
  q 0%nat = a -> q 1%nat = b -> q 2%nat = b ->
  clamped_of tw nn q 0%nat = a + b
  /\ clamped_of tw nn q 1%nat = epsilon
  /\ clamped_of tw nn q 2%nat = epsilon.
Proof.
  intros Ha Hb Hab H0 H1 H2.
  assert (Hinv : 0 < / (a + b)) by (apply Rinv_0_lt_compat; lra).
  assert (Hinv' : 0 < / (b + a)) by (apply Rinv_0_lt_compat; lra).
  pose proof epsilon_pos as He.
  change nn with [(0, [(1, 1); (2, 1)]); (1, [(0, 1)]); (2, [(0, 1)])]%nat.
  unfold clamped_of, update_of, denom_of, get_dd, wsum.
  cbn [lookup Nat.eqb map fst snd Rsum fold_right INR].
  change (tw 0%nat) with 2%nat. change (tw 1%nat) with 0%nat.
  change (tw 2%nat) with 0%nat. cbn [INR].
  rewrite H0, H1, H2.
  repeat split.
  - destruct (Rlt_dec _ _) as [Hd|Hd]; [|exfalso; apply Hd; lra].
    replace ((1 + 1) / (1 * / (a + b) + (1 * / (a + b) + 0))) with (a + b)
      by (field; lra).
    apply Rmax_left. exact Hab.
  - destruct (Rlt_dec _ _) as [Hd|Hd]; [|exfalso; apply Hd; lra].
    unfold Rdiv. rewrite Rmult_0_l. apply Rmax_right. lra.
  - destruct (Rlt_dec _ _) as [Hd|Hd]; [|exfalso; apply Hd; lra].
    unfold Rdiv. rewrite Rmult_0_l. apply Rmax_right. lra.
Qed.

Lemma two_wins_factor (c : player -> R) (u : R) :
  c 0%nat = u -> c 1%nat = epsilon -> c 2%nat = epsilon ->
  factor_of P c = exp (- ((ln u + 2 * ln epsilon) / 3)).
Proof.
  intros H0 H1 H2. unfold factor_of.
  change P with [0; 1; 2]%nat.
  cbn [map Rsum fold_right length INR]. rewrite H0, H1, H2.
  f_equal. f_equal. f_equal; lra.
Qed.

Lemma ln_epsilon : ln epsilon = - (300 * ln 10).
Proof.
  unfold epsilon.
  assert (HT : IZR (10 ^ 300) = 10 ^ 300).
  { change 10 with (IZR 10). rewrite pow_IZR. reflexivity. }
  rewrite HT. rewrite ln_Rinv by (apply pow_lt; lra).
  rewrite ln_pow by lra.
  replace (INR 300) with 300 by (rewrite INR_IZR_INZ; reflexivity).
  reflexivity.
Qed.

Lemma ln_10_bounds : 0 < ln 10 /\ 1000 * ln 2 <= 302 * ln 10.
Proof.
  split.
  - rewrite <- ln_1. apply ln_increasing; lra.
  - assert (H : ln (2 ^ 1000) <= ln (10 ^ 302)).
    { apply ln_le_mono; [apply pow_lt; lra|].
      change 2 with (IZR 2). change 10 with (IZR 10). rewrite !pow_IZR.
      apply IZR_le. apply Z.leb_le. vm_compute. reflexivity. }
    rewrite !ln_pow in H by lra.
    replace (INR 1000) with 1000 in H by (rewrite INR_IZR_INZ; reflexivity).
    replace (INR 302) with 302 in H by (rewrite INR_IZR_INZ; reflexivity).
    exact H.
Qed.

Lemma float_max_bound : float_max < exp (1024 * ln 2).
Proof.
  replace (exp (1024 * ln 2)) with (2 ^ 1024).
  - unfold float_max. change 2 with (IZR 2). rewrite pow_IZR.
    apply IZR_lt. apply Z.ltb_lt. vm_compute. reflexivity.
  - rewrite <- (exp_ln (2 ^ 1024)) by (apply pow_lt; lra).
    rewrite ln_pow by lra.
    replace (INR 1024) with 1024 by (rewrite INR_IZR_INZ; reflexivity).
    reflexivity.
Qed.

Lemma two_wins_first_factor :
  f1 = exp (- ((ln 2 + 2 * ln epsilon) / 3)) /\ 1 <= f1.
Proof.
  pose proof epsilon_le_1 as He1.
  destruct (@two_wins_clamped q0 1 1) as (H0 & H1 & H2);
    try reflexivity; try lra.
  assert (Hf : f1 = exp (- ((ln 2 + 2 * ln epsilon) / 3))).
  { unfold f1. rewrite (two_wins_factor _ H0 H1 H2).
    replace (1 + 1) with 2 by lra. reflexivity. }
  split; [exact Hf|]. rewrite Hf, ln_epsilon.
  destruct ln_10_bounds as [H10 Hb].
  rewrite <- exp_0. left. apply exp_increasing. lra.
Qed.

Lemma two_wins_first_iterate :
  q1 0%nat = (1 + 1) * f1 /\ q1 1%nat = epsilon * f1
  /\ q1 2%nat = epsilon * f1.
Proof.
  pose proof epsilon_le_1 as He1.
  destruct (@two_wins_clamped q0 1 1) as (H0 & H1 & H2);
    try reflexivity; try lra.
  unfold q1, next_of. fold f1. rewrite H0, H1, H2. auto.
Qed.

Lemma two_wins_second_iterate :
  q2 0%nat
  = exp ((2 * ln ((1 + 1) * f1 + epsilon * f1) - 2 * ln epsilon) / 3).
Proof.
  destruct two_wins_first_iterate as (Ha & Hb & Hc).
  destruct two_wins_first_factor as [_ Hf].
  pose proof epsilon_pos as He. pose proof epsilon_le_1 as He1.
  assert (Hef : 0 < epsilon * f1) by (apply Rmult_lt_0_compat; lra).
  destruct (@two_wins_clamped q1 ((1 + 1) * f1) (epsilon * f1))
    as (H0 & H1 & H2); try assumption; try lra.
  unfold q2, next_of. rewrite (two_wins_factor _ H0 H1 H2), H0.
  set (U := (1 + 1) * f1 + epsilon * f1).
  assert (HU : 0 < U) by (unfold U; lra).
  rewrite <- (exp_ln U) at 1 by exact HU. rewrite <- exp_plus.
  f_equal. field.
Qed.

(** The second iterate of the winner, computed exactly, is beyond the
    doubles. *)
Lemma two_wins_overflow : float_max < q2 0%nat.
Proof.
  destruct two_wins_first_factor as [Hf Hf1].
  pose proof epsilon_pos as He.
  destruct ln_10_bounds as [H10 Hb].
  rewrite two_wins_second_iterate.
  eapply Rlt_le_trans; [apply float_max_bound|].
  assert (HU : ln 2 + ln f1 <= ln ((1 + 1) * f1 + epsilon * f1)).
  { rewrite <- ln_mult by lra. apply ln_le_mono; [nra|nra]. }
  assert (Hlf : ln f1 = - ((ln 2 + 2 * ln epsilon) / 3))
    by (rewrite Hf at 1; apply ln_exp).
  rewrite Hlf, ln_epsilon in HU.
  rewrite ln_epsilon.
  set (x := ln ((1 + 1) * f1 + epsilon * f1)) in *.
  assert (Hle : 1024 * ln 2 <= (2 * x - 2 * - (300 * ln 10)) / 3) by lra.
  destruct Hle as [Hlt|Heq]; [left; apply exp_increasing; exact Hlt|].
  rewrite Heq. right. reflexivity.
Qed.

Lemma two_wins_first_change (tol : R) :
  tol <= / 2 -> ~ max_rel_change_of P q0 q1 < tol.
Proof.
  intros Htol Hlt.
  assert (Hin : In 0%nat P) by (left; reflexivity).
  pose proof (max_rel_change_ge P q0 q1 0%nat Hin) as Hge.
  destruct two_wins_first_iterate as (Ha & _).
  destruct two_wins_first_factor as [_ Hf1].
  rewrite Ha in Hge. change (q0 0%nat) with 1 in Hge.
  rewrite (Rmax_left 1 epsilon) in Hge by apply epsilon_le_1.
  rewrite Rabs_right in Hge by lra. lra.
Qed.

End TwoWins.

Lemma two_wins_iterates (max_iter : nat) (tol : R) :
  (2 <= max_iter)%nat -> tol <= / 2 ->
  exists p0 p1 p2 rest,
    fit_iterates two_wins max_iter tol = Ok (p0 :: p1 :: p2 :: rest)
    /\ float_max < strength_fn p2 0%nat.
Proof.
  intros Hiter Htol.
  destruct max_iter as [|[|k]]; try lia.
  rewrite fit_iterates_ok by discriminate.
  cbn [trace_of].
  destruct (Rlt_dec _ tol) as [Hstop|_].
  { exfalso. exact (two_wins_first_change Htol Hstop). }
  set (P := fit_players two_wins).
  set (tw := fit_wins two_wins).
  set (nn := n (aggregate_matches two_wins)).
  set (q1 := next_of P tw nn (fun _ => 1)).
  set (q2 := next_of P tw nn q1).
  assert (Hov : float_max < strength_fn (tabulate q2 P) 0%nat).
  { unfold strength_fn. rewrite get_dd_tabulate by (left; reflexivity).
    exact two_wins_overflow. }
  destruct (Rlt_dec _ tol); cbn [map]; do 4 eexists; split;
    try reflexivity; exact Hov.
Qed.

(** C4: the docstring of [fit_bradley_terry] promises ratings normalised to
    mean zero and positive strengths.  On the two matches
    [[(A, B), (A, C)]] with the default arguments the loop goes on after its
    first iteration, and the strength it holds for [A] after the second,
    computed exactly, is above the largest finite double [float_max] (about
    2.9e333 against 1.8e308).  The double the program holds there is [inf];
    the next iteration multiplies it by the factor [exp(-inf) = 0.0], and
    the function returns [nan] for every rating instead of ratings of mean
    zero. *)
Theorem strength_exceeds_float_range :
  exists p0 p1 p2 rest,
    fit_iterates two_wins default_max_iter default_tol
    = Ok (p0 :: p1 :: p2 :: rest)
    /\ float_max < strength_fn p2 0%nat.
Proof.
  apply two_wins_iterates.
  - unfold default_max_iter. lia.
  - unfold default_tol. apply Rinv_le_contravar; [lra|].
    apply IZR_le. apply Z.leb_le. vm_compute. reflexivity.
Qed.

(** * Further properties of the code *)

(** ** Aggregation *)

(** X1. The tallies of [aggregate_matches] count matches: [w[i][j]] is the
    number of matches [(i, j)] of the list, [n[i][j]] the number of matches
    between [i] and [j] in either direction, and the totals are symmetric,
    [n[i][j] = n[j][i]]. *)
Theorem tallies_count_matches (matches : list game) (i j : player) :
  let a := aggregate_matches matches in
  get2 (w a) i j = games_won matches i j
  /\ get2 (n a) i j = (games_won matches i j + games_won matches j i)%nat
  /\ get2 (n a) i j = get2 (n a) j i.
Proof.
  intros a. unfold a. rewrite get2_w_count, !get2_n_count.
  repeat split; lia.
Qed.

Lemma games_won_positive (matches : list game) (i j : player) :
  (0 < games_won matches i j)%nat <-> In (i, j) matches.
Proof.
  unfold games_won. split.
  - intros H.
    destruct (filter (fun m : game => Nat.eqb (fst m) i && Nat.eqb (snd m) j)
                     matches) as [|m l] eqn:E; [simpl in H; lia|].
    assert (Hm : In m (m :: l)) by (left; reflexivity).
    rewrite <- E in Hm. apply filter_In in Hm. destruct Hm as [Hm Hb].
    apply andb_true_iff in Hb. destruct Hb as [H1 H2].
    apply Nat.eqb_eq in H1, H2. destruct m as [a b]. simpl in H1, H2.
    subst. exact Hm.
  - intros H.
    assert (Hf : In (i, j) (filter (fun m : game => Nat.eqb (fst m) i
                                                    && Nat.eqb (snd m) j)
                                   matches)).
    { apply filter_In. split; [exact H|]. simpl. rewrite !Nat.eqb_refl.
      reflexivity. }
    destruct (filter _ matches); [destruct Hf|simpl; lia].
Qed.

(** X2. The player set of [aggregate_matches] holds exactly the winners and
    losers of the list, each once; a pair has a positive total only if both
    are players, and every player has a positive total against somebody. *)
Theorem players_are_participants (matches : list game) :
  let a := aggregate_matches matches in
  NoDup (players a)
  /\ (forall x, In x (players a) <->
                exists m, In m matches /\ (x = fst m \/ x = snd m))
  /\ (forall i j, (0 < get2 (n a) i j)%nat ->
                  In i (players a) /\ In j (players a))
  /\ (forall i, In i (players a) -> exists j, (0 < get2 (n a) i j)%nat).
Proof.
  intros a. unfold a. split; [apply players_nodup|].
  split; [apply players_in|]. split.
  - intros i j H. rewrite get2_n_count in H.
    assert (Hc : (0 < games_won matches i j)%nat
                 \/ (0 < games_won matches j i)%nat) by lia.
    destruct Hc as [Hc|Hc]; apply games_won_positive in Hc;
      split; apply players_in.
    + exists (i, j). auto.
    + exists (i, j). auto.
    + exists (j, i). auto.
    + exists (j, i). auto.
  - intros i Hi. apply players_in in Hi. destruct Hi as [[a0 b0] [Hm Hx]].
    simpl in Hx. destruct Hx as [->| ->].
    + exists b0. rewrite get2_n_count.
      apply games_won_positive in Hm. lia.
    + exists a0. rewrite get2_n_count.
      apply games_won_positive in Hm. lia.
Qed.

Lemma INR_sum_counts (l : list nat) : INR (sum_counts l) = Rsum (map INR l).
Proof.
  unfold sum_counts. induction l as [|x l IH]; [reflexivity|].
  simpl. rewrite sum_counts_acc, plus_INR, IH. reflexivity.
Qed.

(** X3. The win totals [t] computed on line 70 of [fit_bradley_terry] give
    every player the number of matches it won, and they add up to the number
    of matches. *)
Theorem total_wins_add_up (matches : list game) :
  let a := aggregate_matches matches in
  let t := total_wins (sorted (players a)) (w a) in
  keys t = sorted (players a)
  /\ (forall i, In i (players a) -> getitem t i = Ok (wins_of matches i))
  /\ sum_counts (values t) = length matches.
Proof.
  intros a t. unfold t, a.
  change (total_wins (sorted (players (aggregate_matches matches)))
                     (w (aggregate_matches matches)))
    with (tabulate (fit_wins matches) (fit_players matches)).
  split; [apply keys_tabulate|]. split.
  - intros i Hi. rewrite getitem_tabulate
      by (unfold fit_players; apply sorted_in; exact Hi).
    unfold fit_wins. rewrite total_wins_count. reflexivity.
  - apply INR_eq. rewrite INR_sum_counts, values_tabulate, map_map.
    pose proof (player_sum_wins matches (fun _ => 1)) as H.
    cbv beta in H. rewrite Rsum_map_const in H. rewrite <- (Rmult_1_r (INR (length matches))).
    rewrite <- H. apply Rsum_map_ext. intros i _. lra.
Qed.

(** ** The fitter *)



Lemma opponent_sum_pos (g : player -> R) (ms : list game) (i : player) :
  (forall j, 0 < g j) ->
  (exists m, In m ms /\ (i = fst m \/ i = snd m)) ->
  0 < opponent_sum g ms i.
Proof.
  intros Hg [m [Hm Hi]]. unfold opponent_sum.
  induction ms as [|m0 ms IH]; [destruct Hm|].
  cbn [map]. rewrite Rsum_cons.
  assert (Hterm : forall m' : game,
            0 <= (if Nat.eqb (fst m') i then g (snd m') else 0)
                 + (if Nat.eqb (snd m') i then g (fst m') else 0)).
  { intros m'. destruct (Nat.eqb (fst m') i), (Nat.eqb (snd m') i);
      try (pose proof (Hg (fst m')); pose proof (Hg (snd m'))); lra. }
  destruct Hm as [->|Hm].
  - assert (Hrest : 0 <= Rsum (map (fun m' : game =>
                       (if Nat.eqb (fst m') i then g (snd m') else 0)
                       + (if Nat.eqb (snd m') i then g (fst m') else 0)) ms))
      by (apply Rsum_map_nonneg; intros; apply Hterm).
    assert (Hpos : 0 < (if Nat.eqb (fst m) i then g (snd m) else 0)
                       + (if Nat.eqb (snd m) i then g (fst m) else 0)).
    { pose proof (Hg (fst m)). pose proof (Hg (snd m)). pose proof (Hg i).
      destruct Hi as [Hi|Hi]; rewrite <- Hi, Nat.eqb_refl;
        destruct (Nat.eqb _ i); lra. }
    lra.
  - specialize (IH Hm). pose proof (Hterm m0). lra.
Qed.



(** ** The convergence trace *)

Lemma fold_left_Rmax_ge (l : list R) (x : R) : x <= fold_left Rmax l x.
Proof.
  revert x. induction l as [|y l IH]; intros x; simpl; [lra|].
  apply Rle_trans with (Rmax x y); [apply Rmax_l|apply IH].
Qed.

Lemma rating_change_finite (ratings prev : dict R) (x : player) :
  In x (keys ratings) -> In x (keys prev) ->
  exists c, rating_change ratings (Some prev) = Ok (Finite c) /\ 0 <= c.
Proof.
  intros Hr Hp. unfold rating_change.
  assert (Hx : In x (filter (fun p => existsb (Nat.eqb p) (keys prev))
                            (keys ratings))).
  { apply filter_In. split; [exact Hr|]. apply existsb_exists.
    exists x. split; [exact Hp|apply Nat.eqb_refl]. }
  assert (Hall : forall p, In p (filter (fun p => existsb (Nat.eqb p) (keys prev))
                                        (keys ratings)) ->
                 exists a b, getitem ratings p = Ok a /\ getitem prev p = Ok b).
  { intros p Hin. apply filter_In in Hin. destruct Hin as [H1 H2].
    apply existsb_exists in H2. destruct H2 as [p' [H2 H3]].
    apply Nat.eqb_eq in H3. subst p'.
    destruct (getitem_in_keys ratings p H1) as [a Ha].
    destruct (getitem_in_keys prev p H2) as [b Hb].
    exists a, b. auto. }
  destruct (filter (fun p => existsb (Nat.eqb p) (keys prev)) (keys ratings))
    as [|y common]; [destruct Hx|].
  destruct (Hall y (or_introl eq_refl)) as (a & b & Ha & Hb).
  destruct (@mapM_total _ _ (fun p => a <- getitem ratings p ;;
                                      b <- getitem prev p ;;
                                      Ok (Rabs (a - b))) common) as [ys Hys].
  { intros p Hin. destruct (Hall p (or_intror Hin)) as (a' & b' & Ha' & Hb').
    rewrite Ha', Hb'. simpl. eauto. }
  cbn [mapM]. rewrite Ha, Hb. cbn [bind]. rewrite Hys. cbn [bind].
  eexists. split; [reflexivity|]. unfold pymax.
  apply Rle_trans with (Rabs (a - b)); [apply Rabs_pos|apply fold_left_Rmax_ge].
Qed.

Lemma convergence_fold_changes (matches : list game) (x : player)
  (sizes : list nat) :
  (forall i, In i sizes -> In x (fit_players (firstn i matches))) ->
  forall (results : list convergence_point) (prev : option (dict R)),
  (forall d, prev = Some d -> In x (keys d)) ->
  exists results' prev',
    foldM (convergence_step matches) sizes (results, prev)
    = Ok (results ++ results', prev')
    /\ length results' = length sizes
    /\ (forall d, prev' = Some d -> In x (keys d))
    /\ (sizes <> [] -> prev' <> None)
    /\ (sizes = [] -> prev' = prev)
    /\ match prev with
       | Some _ => Forall finite_change results'
       | None => match results' with
                 | [] => True
                 | pt :: rest => max_rating_change pt = Infinite
                                 /\ Forall finite_change rest
                 end
       end.
Proof.
  induction sizes as [|i sizes IH]; intros Hsizes results prev Hprev.
  - exists [], prev. rewrite app_nil_r. simpl.
    split; [reflexivity|]. split; [reflexivity|]. split; [exact Hprev|].
    split; [congruence|]. split; [reflexivity|].
    destruct prev; constructor.
  - cbn [foldM]. unfold convergence_step at 1.
    rewrite fit_bradley_terry_ok. cbn [bind].
    set (r := tabulate (fit_rating (firstn i matches) default_max_iter
                                   default_tol)
                       (fit_players (firstn i matches))).
    assert (Hxr : In x (keys r)).
    { unfold r. rewrite keys_tabulate. apply Hsizes. left. reflexivity. }
    assert (Hc : exists c, rating_change r prev = Ok c
                   /\ match prev with
                      | Some _ => exists v, c = Finite v /\ 0 <= v
                      | None => c = Infinite
                      end).
    { destruct prev as [d|].
      - destruct (rating_change_finite r d x Hxr (Hprev d eq_refl))
          as [v [Hv Hv0]].
        exists (Finite v). split; [exact Hv|]. exists v. auto.
      - exists Infinite. split; reflexivity. }
    destruct Hc as [c [Hc Hkind]]. rewrite Hc. cbn [bind].
    destruct (IH (fun j Hj => Hsizes j (or_intror Hj))
                 (results ++ [mkPoint i c r]) (Some r))
      as (results' & prev' & Hfold & Hlen & Hprev' & Hsome & _ & Hfin).
    { intros d Hd. injection Hd as <-. exact Hxr. }
    exists (mkPoint i c r :: results'), prev'. rewrite Hfold.
    split; [rewrite <- app_assoc; reflexivity|].
    split; [simpl; rewrite Hlen; reflexivity|].
    split; [exact Hprev'|]. split.
    + intros _. destruct sizes as [|j sizes'].
      * simpl in Hfold. injection Hfold as _ <-. discriminate.
      * apply Hsome. discriminate.
    + split; [discriminate|].
      destruct prev as [d|].
      * constructor; [|exact Hfin]. destruct Hkind as [v [-> Hv]].
        exists v. split; [reflexivity|exact Hv].
      * split; [subst c; reflexivity|exact Hfin].
Qed.

(** The trace of the analyzer in exact arithmetic. *)
Lemma analyze_trace_shape (matches : list game) (step_size : nat) :
  matches <> [] -> (1 <= step_size)%nat ->
  exists pt rest,
    analyze_rating_convergence matches step_size = Ok (pt :: rest)
    /\ max_rating_change pt = Infinite
    /\ Forall finite_change rest
    /\ length (pt :: rest)
       = (length matches / step_size
          + if Nat.eqb (length matches mod step_size) 0 then 0 else 1)%nat.
Proof.
  intros Hne Hstep.
  assert (Hx : exists x, forall i, (1 <= i)%nat ->
                 In x (fit_players (firstn i matches))).
  { destruct matches as [|[x y] ms]; [congruence|]. exists x.
    intros [|i] Hi; [lia|]. apply fit_players_in.
    exists (x, y). simpl. auto. }
  destruct Hx as [x Hx].
  assert (Hlen1 : (1 <= length matches)%nat)
    by (destruct matches; [congruence|simpl; lia]).
  assert (Hun : analyze_rating_convergence matches step_size
                = (sizes <- py_range step_size (length matches + 1) step_size ;;
                   '(results, prev_ratings) <-
                      foldM (convergence_step matches) sizes ([], None) ;;
                   r <- pymod (length matches) step_size ;;
                   if negb (Nat.eqb r 0) then
                     '(ratings, _) <- fit_bradley_terry matches
                                        default_max_iter default_tol ;;
                     max_change <- rating_change ratings prev_ratings ;;
                     Ok (results ++ [mkPoint (length matches) max_change ratings])
                   else Ok results))
    by (destruct matches; [congruence|reflexivity]).
  rewrite Hun. clear Hun.
  rewrite py_range_multiples by exact Hstep. cbn [bind].
  destruct (@convergence_fold_changes matches x
              (map (fun k => (k * step_size)%nat)
                   (seq 1 (length matches / step_size)))
              ltac:(intros i Hi; apply Hx; apply in_map_iff in Hi;
                    destruct Hi as [k [<- Hk]]; apply in_seq in Hk; nia)
              [] None ltac:(discriminate))
    as (results & prev & Hfold & Hlen & Hprev & Hsome & Hnil & Hshape).
  rewrite Hfold. cbn [bind app].
  rewrite length_map, length_seq in Hlen.
  destruct step_size as [|s]; [lia|]. cbn [pymod bind].
  destruct (Nat.eqb (length matches mod S s) 0) eqn:Hmod; cbn [negb].
  - apply Nat.eqb_eq in Hmod.
    assert (Hq : (1 <= length matches / S s)%nat).
    { apply Nat.Div0.div_exact in Hmod.
      destruct (length matches / S s)%nat; [|lia].
      rewrite Nat.mul_0_r in Hmod. lia. }
    destruct results as [|pt rest]; [rewrite <- Hlen in Hq; simpl in Hq; lia|].
    destruct Hshape as [Hinf Hfin].
    exists pt, rest. repeat split; auto. rewrite Hlen. lia.
  - rewrite fit_bradley_terry_ok. cbn [bind].
    set (r := tabulate (fit_rating matches default_max_iter default_tol)
                       (fit_players matches)).
    assert (Hxr : In x (keys r)).
    { unfold r. rewrite keys_tabulate.
      rewrite <- (firstn_all matches) at 1. apply Hx. exact Hlen1. }
    destruct results as [|pt rest].
    + assert (Hp : prev = None).
      { apply Hnil. rewrite <- Hlen. reflexivity. }
      subst prev. cbn [rating_change bind app].
      eexists _, []. split; [reflexivity|]. cbn [max_rating_change].
      split; [reflexivity|]. split; [constructor|].
      rewrite <- Hlen. reflexivity.
    + destruct Hshape as [Hinf Hfin].
      destruct prev as [d|].
      * destruct (rating_change_finite r d x Hxr (Hprev d eq_refl))
          as [v [Hv Hv0]].
        rewrite Hv. cbn [bind].
        exists pt, (rest ++ [mkPoint (length matches) (Finite v) r]).
        split; [reflexivity|]. split; [exact Hinf|]. split.
        -- apply Forall_app. split; [exact Hfin|].
           constructor; [|constructor]. exists v. auto.
        -- rewrite <- Hlen. cbn [length]. rewrite length_app. simpl. lia.
      * exfalso. apply Hsome; [|reflexivity].
        rewrite <- Hlen. discriminate.
Qed.

(** X7. On a non-empty match list and a step size of at least one, whenever
    [analyze_rating_convergence] returns a trace (it raises when a prefix fit
    raises), the trace is not empty, its first point carries the undefined
    change [float('inf')], and it has one point per full step plus one for a
    remainder. *)
Theorem convergence_changes (matches : list game) (step_size : nat)
  (trace : list convergence_point) :
  matches <> [] -> (1 <= step_size)%nat ->
  analyze_rating_convergence matches step_size = Ok trace ->
  (exists pt rest, trace = pt :: rest /\ max_rating_change pt = Infinite)
  /\ length trace
     = (length matches / step_size
        + if Nat.eqb (length matches mod step_size) 0 then 0 else 1)%nat.
Proof.
  intros Hne Hstep Hrun.
  destruct (analyze_trace_shape Hne Hstep)
    as (pt & rest & Hrun' & Hinf & _ & Hcount).
  rewrite Hrun in Hrun'. injection Hrun' as ->.
  split; [exists pt, rest; split; [reflexivity|exact Hinf]|exact Hcount].
Qed.

Lemma convergence_changes_witness :
  exists trace,
    analyze_rating_convergence [(0, 1); (1, 2); (0, 1)]%nat 2 = Ok trace
    /\ (exists pt rest, trace = pt :: rest /\ max_rating_change pt = Infinite)
    /\ length trace = 2%nat.
Proof.
  destruct (@analyze_trace_shape [(0, 1); (1, 2); (0, 1)]%nat 2%nat)
    as (pt & rest & Hrun & _); [discriminate|lia|].
  exists (pt :: rest). split; [exact Hrun|].
  apply (@convergence_changes [(0, 1); (1, 2); (0, 1)]%nat 2%nat (pt :: rest)).
  - discriminate.
  - lia.
  - exact Hrun.
Defined.

Lemma upload_step_count (len : nat) :
  (1 <= len)%nat ->
  let s := Nat.max 1 (len / 20) in
  let c := (len / s + if Nat.eqb (len mod s) 0 then 0 else 1)%nat in
  (1 <= s)%nat /\ (1 <= c <= 39)%nat
  /\ (len < 20 -> c = len)%nat /\ (20 <= len -> 20 <= c)%nat.
Proof.
  intros Hlen s c.
  destruct (Nat.lt_ge_cases len 20) as [Hsmall|Hbig].
  - assert (Hs : s = 1%nat)
      by (unfold s; rewrite Nat.div_small by exact Hsmall; reflexivity).
    unfold c. rewrite Hs, Nat.div_1_r, Nat.mod_1_r. simpl. lia.
  - pose proof (Nat.div_mod_eq len 20) as Hdm.
    pose proof (Nat.mod_upper_bound len 20 ltac:(lia)) as Hr.
    assert (Hq : (1 <= len / 20)%nat) by lia.
    assert (Hs : s = (len / 20)%nat) by (unfold s; lia).
    assert (Hlow : (20 <= len / s)%nat).
    { apply Nat.div_le_lower_bound; [lia|]. rewrite Hs. lia. }
    assert (Hc : (len / s <= c <= len / s + 1)%nat)
      by (unfold c; destruct (Nat.eqb (len mod s) 0); lia).
    split; [lia|]. split; [|split; lia]. split; [lia|].
    destruct (Nat.eq_dec (len / 20) 1) as [H1|H1].
    + unfold c. rewrite Hs, H1, Nat.div_1_r, Nat.mod_1_r. simpl. lia.
    + assert (Hup : (len / s < 30)%nat).
      { apply Nat.Div0.div_lt_upper_bound. rewrite Hs. lia. }
      lia.
Qed.

(** X8. [analyze_rating_convergence] raises [ValueError] for a step size of
    zero on a non-empty list; the step size the upload handler passes,
    [max(1, len(matches) // 20)], is never zero; and whenever the analysis
    the handler runs returns a trace, that trace has at most 39 points: one
    per match up to 19 matches, at least 20 points from 20 matches on. *)
Theorem upload_trace_bounded (matches : list game) :
  matches <> [] ->
  analyze_rating_convergence matches 0 = Raise ValueError
  /\ (1 <= upload_step_size matches)%nat
  /\ forall trace,
       upload_convergence matches = Ok trace ->
       (1 <= length trace <= 39)%nat
       /\ (length matches < 20 -> length trace = length matches)%nat
       /\ (20 <= length matches -> 20 <= length trace)%nat.
Proof.
  intros Hne.
  assert (Hlen : (1 <= length matches)%nat)
    by (destruct matches; [congruence|simpl; lia]).
  destruct (upload_step_count Hlen) as (Hs & Hc & Hsmall & Hbig).
  split; [destruct matches; [congruence|reflexivity]|].
  split; [exact Hs|].
  intros trace Hrun.
  destruct (@analyze_trace_shape matches (upload_step_size matches) Hne Hs)
    as (pt & rest & Hrun' & _ & _ & Hcount).
  unfold upload_convergence in Hrun. rewrite Hrun in Hrun'.
  injection Hrun' as ->.
  unfold upload_step_size in Hcount. rewrite Hcount.
  split; [exact Hc|]. split; [exact Hsmall|exact Hbig].
Qed.

Lemma upload_trace_bounded_witness :
  analyze_rating_convergence [(0, 1); (1, 2); (0, 1)]%nat 0 = Raise ValueError
  /\ (1 <= upload_step_size [(0, 1); (1, 2); (0, 1)]%nat)%nat
  /\ forall trace,
       upload_convergence [(0, 1); (1, 2); (0, 1)]%nat = Ok trace ->
       length trace = 3%nat.
Proof.
  destruct (@upload_trace_bounded [(0, 1); (1, 2); (0, 1)]%nat)
    as (Hraise & Hstep & Htrace); [discriminate|].
  split; [exact Hraise|]. split; [exact Hstep|].
  intros trace Hrun. apply (Htrace trace Hrun). simpl. lia.
Defined.

(** ** The Elo scale *)

Lemma lookup_map_values {V W : Type} (h : V -> W) (d : dict V) (k : player) :
  lookup (map (fun e : player * V => let '(i, v) := e in (i, h v)) d) k
  = option_map h (lookup d k).
Proof.
  induction d as [|[k' v] d IH]; [reflexivity|].
  simpl. destruct (Nat.eqb k' k); [reflexivity|exact IH].
Qed.

Lemma keys_map_values {V W : Type} (h : V -> W) (d : dict V) :
  keys (map (fun e : player * V => let '(i, v) := e in (i, h v)) d) = keys d.
Proof.
  unfold keys. rewrite map_map. apply map_ext. intros [i v]. reflexivity.
Qed.

Lemma values_map_values {V W : Type} (h : V -> W) (d : dict V) :
  values (map (fun e : player * V => let '(i, v) := e in (i, h v)) d)
  = map h (values d).
Proof.
  unfold values. rewrite !map_map. apply map_ext. intros [i v]. reflexivity.
Qed.

Lemma ln_nonzero (x : R) : 0 < x -> x <> 1 -> ln x <> 0.
Proof.
  intros Hx H1 H0. apply H1. apply ln_inv; [exact Hx|lra|].
  rewrite ln_1. exact H0.
Qed.

Lemma ratings_to_elo_ok (ratings : dict R) (scale base : R) :
  0 < base -> base <> 1 ->
  ratings_to_elo ratings scale base
  = Ok (map (fun e : player * R =>
               let '(i, r) := e in (i, scale / ln base * r)) ratings).
Proof.
  intros Hb H1. unfold ratings_to_elo.
  rewrite pylog_ok by exact Hb. cbn [bind].
  rewrite pydiv_ok by (apply ln_nonzero; assumption). reflexivity.
Qed.

Lemma get_dd_scaled (factor : R) (ratings : dict R) (k : player) :
  get_dd 0 (map (fun e : player * R =>
                   let '(i, r) := e in (i, factor * r)) ratings) k
  = factor * get_dd 0 ratings k.
Proof.
  unfold get_dd. rewrite (lookup_map_values (fun r => factor * r)).
  destruct (lookup ratings k); simpl; lra.
Qed.

(** X9. [ratings_to_elo] raises [ValueError] for a base that is not
    positive and [ZeroDivisionError] for base one; for every other base it
    returns a dict with the keys of [ratings], in their order, each rating
    multiplied by [scale / log(base)]. *)
Theorem ratings_to_elo_cases (ratings : dict R) (scale base : R) :
  (base <= 0 -> ratings_to_elo ratings scale base = Raise ValueError)
  /\ (base = 1 -> ratings_to_elo ratings scale base = Raise ZeroDivisionError)
  /\ (0 < base -> base <> 1 ->
      exists elo,
        ratings_to_elo ratings scale base = Ok elo
        /\ keys elo = keys ratings
        /\ forall i, get_dd 0 elo i = scale / ln base * get_dd 0 ratings i).
Proof.
  split; [|split].
  - intros Hb. unfold ratings_to_elo, pylog.
    destruct (Rlt_dec 0 base); [lra|reflexivity].
  - intros ->. unfold ratings_to_elo.
    rewrite pylog_ok by lra. cbn [bind]. rewrite ln_1. unfold pydiv.
    destruct (Req_dec_T 0 0); [reflexivity|congruence].
  - intros Hb H1. eexists. split; [apply ratings_to_elo_ok; assumption|].
    split; [apply (keys_map_values (fun r => scale / ln base * r))|].
    intros i. apply get_dd_scaled.
Qed.

(** X10. With a positive scale and a base above one (the defaults are 400
    and 10) the Elo conversion keeps the order of the players, keeps a zero
    mean at zero, and turns a rating gap into odds on the Elo scale:
    [base ^ ((elo_i - elo_j) / scale) = exp(r_i - r_j)]. *)
Theorem elo_keeps_order_and_odds (ratings : dict R) (scale base : R) :
  0 < scale -> 1 < base ->
  exists elo,
    ratings_to_elo ratings scale base = Ok elo
    /\ (forall i j, get_dd 0 ratings i < get_dd 0 ratings j
                    <-> get_dd 0 elo i < get_dd 0 elo j)
    /\ (Rsum (values ratings) = 0 -> Rsum (values elo) = 0)
    /\ (forall i j, Rpower base ((get_dd 0 elo i - get_dd 0 elo j) / scale)
                    = exp (get_dd 0 ratings i - get_dd 0 ratings j)).
Proof.
  intros Hs Hb.
  assert (Hln : 0 < ln base) by (rewrite <- ln_1; apply ln_increasing; lra).
  assert (Hf : 0 < scale / ln base) by (apply Rdiv_lt_0_compat; assumption).
  eexists. split; [apply ratings_to_elo_ok; lra|]. split; [|split].
  - intros i j. rewrite !get_dd_scaled. split; intros H.
    + apply Rmult_lt_compat_l; assumption.
    + apply Rmult_lt_reg_l with (scale / ln base); assumption.
  - intros H0. rewrite (values_map_values (fun r => scale / ln base * r)).
    rewrite (Rsum_map_scal (scale / ln base) (fun r => r)), map_id, H0. lra.
  - intros i j. rewrite !get_dd_scaled. unfold Rpower. f_equal. field.
    split; lra.
Qed.

Lemma elo_keeps_order_and_odds_witness :
  exists elo,
    ratings_to_elo [(0%nat, 1); (1%nat, -1)] default_scale default_base = Ok elo
    /\ (Rsum (values [(0%nat, 1); (1%nat, -1)]) = 0 -> Rsum (values elo) = 0).
Proof.
  destruct (@elo_keeps_order_and_odds [(0%nat, 1); (1%nat, -1)]
              default_scale default_base) as (elo & H1 & _ & H2 & _).
  - unfold default_scale. lra.
  - unfold default_base. lra.
  - exists elo. split; [exact H1|exact H2].
Defined.

(** ** Win probabilities *)

Lemma getitem_get_dd {V : Type} (dflt : V) (d : dict V) (k : player) :
  In k (keys d) -> getitem d k = Ok (get_dd dflt d k).
Proof.
  intros H. destruct (lookup_in_keys d k H) as [v Hv].
  unfold getitem, get_dd. rewrite Hv. reflexivity.
Qed.

Lemma logistic_pos (x : R) : 0 < 1 + exp x.
Proof. pose proof (exp_pos x). lra. Qed.

Lemma logistic_bradley_terry (a b : R) :
  1 / (1 + exp (- (a - b))) = exp a / (exp a + exp b).
Proof.
  replace (exp (- (a - b))) with (exp b * / exp a)
    by (rewrite <- exp_Ropp, <- exp_plus; f_equal; lra).
  pose proof (exp_pos a). pose proof (exp_pos b). field. split; lra.
Qed.

Lemma win_row_ok (ratings : dict R) (l : list player) (p1 : player) :
  NoDup l -> (forall p2, In p2 l -> In p2 (keys ratings)) ->
  In p1 (keys ratings) ->
  win_row ratings l p1
  = Ok (tabulate (win_probability_of (get_dd 0 ratings) p1) l).
Proof.
  intros Hnd Hsub Hp1. unfold win_row.
  rewrite (@foldM_ext _ _ _
             (fun row p2 =>
                v <- (if Nat.eqb p1 p2 then Ok (1 / 2)
                      else r1 <- getitem ratings p1 ;;
                           r2 <- getitem ratings p2 ;;
                           pydiv 1 (1 + exp (- (r1 - r2)))) ;;
                Ok (setitem row p2 v))).
  - rewrite (@foldM_build _ _ (win_probability_of (get_dd 0 ratings) p1) l []).
    + reflexivity.
    + exact Hnd.
    + intros i _ [].
    + intros p2 Hp2. unfold win_probability_of.
      destruct (Nat.eqb p1 p2); [reflexivity|].
      rewrite (getitem_get_dd 0 ratings p1 Hp1),
              (getitem_get_dd 0 ratings p2 (Hsub p2 Hp2)).
      cbn [bind]. apply pydiv_ok.
      pose proof (logistic_pos (- (get_dd 0 ratings p1
                                   - get_dd 0 ratings p2))). lra.
  - intros row p2 _. destruct (Nat.eqb p1 p2); [reflexivity|].
    destruct (getitem ratings p1); [|reflexivity]. cbn [bind].
    destruct (getitem ratings p2); [|reflexivity]. cbn [bind].
    destruct (pydiv 1 (1 + exp (- (a - a0)))); reflexivity.
Qed.

Lemma calculate_win_probabilities_ok (ratings : dict R) :
  NoDup (keys ratings) ->
  calculate_win_probabilities ratings
  = Ok (tabulate (fun p1 => tabulate (win_probability_of (get_dd 0 ratings) p1)
                                     (keys ratings))
                 (keys ratings)).
Proof.
  intros Hnd. unfold calculate_win_probabilities. cbv zeta.
  rewrite (@foldM_build _ _
             (fun p1 => tabulate (win_probability_of (get_dd 0 ratings) p1)
                                 (keys ratings))
             (keys ratings) []).
  - reflexivity.
  - exact Hnd.
  - intros i _ [].
  - intros p1 Hp1. apply win_row_ok; auto.
Qed.

Lemma getitem2_tabulate {V : Type} (f : player -> player -> V)
  (l : list player) (i j : player) :
  In i l -> In j l ->
  getitem2 (tabulate (fun p1 => tabulate (f p1) l) l) i j = Ok (f i j).
Proof.
  intros Hi Hj. unfold getitem2.
  rewrite getitem_tabulate by exact Hi. cbn [bind].
  apply getitem_tabulate. exact Hj.
Qed.

Lemma win_probability_bt (r : player -> R) (p1 p2 : player) :
  win_probability_of r p1 p2 = exp (r p1) / (exp (r p1) + exp (r p2)).
Proof.
  unfold win_probability_of. destruct (Nat.eqb p1 p2) eqn:E.
  - apply Nat.eqb_eq in E. subst p2. pose proof (exp_pos (r p1)). field. lra.
  - apply logistic_bradley_terry.
Qed.

(** X11. On a dict of ratings [calculate_win_probabilities] raises nothing
    and returns a table with one row and one column per player.  The entry
    for [(p1, p2)] is the Bradley-Terry probability
    [exp(r1) / (exp(r1) + exp(r2))]: strictly between 0 and 1, one half on
    the diagonal, above one half exactly when [p1] is rated higher, and the
    entries for [(p1, p2)] and [(p2, p1)] add up to one. *)
Theorem win_probabilities_complementary (ratings : dict R) :
  NoDup (keys ratings) ->
  exists win_probs,
    calculate_win_probabilities ratings = Ok win_probs
    /\ keys win_probs = keys ratings
    /\ forall p1 p2, In p1 (keys ratings) -> In p2 (keys ratings) ->
         exists a b,
           getitem2 win_probs p1 p2 = Ok a
           /\ getitem2 win_probs p2 p1 = Ok b
           /\ a + b = 1
           /\ 0 < a < 1
           /\ a = exp (get_dd 0 ratings p1)
                  / (exp (get_dd 0 ratings p1) + exp (get_dd 0 ratings p2))
           /\ (p1 = p2 -> a = 1 / 2)
           /\ (get_dd 0 ratings p2 < get_dd 0 ratings p1 <-> 1 / 2 < a).
Proof.
  intros Hnd. eexists. split; [apply calculate_win_probabilities_ok; exact Hnd|].
  split; [apply keys_tabulate|].
  intros p1 p2 H1 H2.
  exists (win_probability_of (get_dd 0 ratings) p1 p2),
         (win_probability_of (get_dd 0 ratings) p2 p1).
  rewrite !getitem2_tabulate by assumption.
  split; [reflexivity|]. split; [reflexivity|].
  rewrite !win_probability_bt.
  set (x := get_dd 0 ratings p1). set (y := get_dd 0 ratings p2).
  pose proof (exp_pos x) as Hx. pose proof (exp_pos y) as Hy.
  assert (Hxy : 0 < exp x + exp y) by lra.
  split; [field; lra|]. split.
  - split.
    + apply Rdiv_lt_0_compat; assumption.
    + apply Rmult_lt_reg_r with (exp x + exp y); [exact Hxy|].
      unfold Rdiv. rewrite Rmult_assoc, Rinv_l by lra. lra.
  - split; [reflexivity|]. split.
    + intros ->. fold x. unfold y. fold x. field. lra.
    + assert (Hhalf : 1 / 2 < exp x / (exp x + exp y) <-> exp y < exp x).
      { split; intros H.
        - apply Rmult_lt_compat_r with (r := exp x + exp y) in H;
            [|exact Hxy].
          unfold Rdiv in H at 2. rewrite Rmult_assoc, Rinv_l in H by lra. lra.
        - apply Rmult_lt_reg_r with (exp x + exp y); [exact Hxy|].
          unfold Rdiv at 2. rewrite Rmult_assoc, Rinv_l by lra. lra. }
      rewrite Hhalf. split; [apply exp_increasing|apply exp_lt_inv].
Qed.

Lemma win_probabilities_complementary_witness :
  exists win_probs a b,
    calculate_win_probabilities [(0%nat, 1); (1%nat, -1)] = Ok win_probs
    /\ getitem2 win_probs 0%nat 1%nat = Ok a
    /\ getitem2 win_probs 1%nat 0%nat = Ok b
    /\ a + b = 1.
Proof.
  destruct (@win_probabilities_complementary [(0%nat, 1); (1%nat, -1)])
    as (win_probs & Hrun & _ & H).
  - simpl. repeat constructor; simpl; intuition lia.
  - destruct (H 0%nat 1%nat) as (a & b & Ha & Hb & Hab & _);
      [simpl; auto|simpl; auto|].
    exists win_probs, a, b. auto.
Defined.



(** X13. The table of [calculate_win_probabilities] agrees with the usual
    expected score on the Elo scale of [ratings_to_elo]: the entry for
    [(i, j)] is [1 / (1 + base ^ (-(elo_i - elo_j) / scale))]. *)
Theorem elo_expected_score (ratings : dict R) (scale base : R) :
  NoDup (keys ratings) -> scale <> 0 -> 0 < base -> base <> 1 ->
  exists elo win_probs,
    ratings_to_elo ratings scale base = Ok elo
    /\ calculate_win_probabilities ratings = Ok win_probs
    /\ forall i j, In i (keys ratings) -> In j (keys ratings) ->
         getitem2 win_probs i j
         = Ok (1 / (1 + Rpower base (- (get_dd 0 elo i - get_dd 0 elo j)
                                    / scale))).
Proof.
  intros Hnd Hs Hb H1.
  pose proof (ln_nonzero Hb H1) as Hln.
  eexists. eexists. split; [apply ratings_to_elo_ok; assumption|].
  split; [apply calculate_win_probabilities_ok; exact Hnd|].
  intros i j Hi Hj. rewrite getitem2_tabulate by assumption. f_equal.
  rewrite win_probability_bt, <- logistic_bradley_terry.
  rewrite !get_dd_scaled. unfold Rpower. do 3 f_equal. field.
  split; assumption.
Qed.

Lemma elo_expected_score_witness :
  exists elo win_probs,
    ratings_to_elo [(0%nat, 1); (1%nat, -1)] default_scale default_base = Ok elo
    /\ calculate_win_probabilities [(0%nat, 1); (1%nat, -1)] = Ok win_probs
    /\ getitem2 win_probs 0%nat 1%nat
       = Ok (1 / (1 + Rpower default_base
                             (- (get_dd 0 elo 0%nat - get_dd 0 elo 1%nat)
                              / default_scale))).
Proof.
  destruct (@elo_expected_score [(0%nat, 1); (1%nat, -1)]
              default_scale default_base) as (elo & win_probs & H1 & H2 & H3).
  - simpl. repeat constructor; simpl; intuition lia.
  - unfold default_scale. lra.
  - unfold default_base. lra.
  - unfold default_base. lra.
  - exists elo, win_probs. split; [exact H1|]. split; [exact H2|].
    apply H3; simpl; auto.
Defined.

(** ** Reading matches from CSV rows *)

Lemma list_index_found (name : String.string) (header : list String.string) :
  In name header ->
  exists k, list_index name header = Ok k
            /\ nth_error header k = Some name.
Proof.
  induction header as [|c header IH]; intros H; [destruct H|].
  cbn [list_index]. destruct (String.eqb c name) eqn:E.
  - apply String.eqb_eq in E. subst c. exists 0%nat. split; reflexivity.
  - destruct H as [H|H]; [subst c; rewrite String.eqb_refl in E; discriminate|].
    destruct (IH H) as [k [Hk Hn]]. exists (S k). rewrite Hk. split; [reflexivity|exact Hn].
Qed.

Lemma list_index_missing (name : String.string) (header : list String.string) :
  ~ In name header -> list_index name header = Raise ValueError.
Proof.
  induction header as [|c header IH]; intros H; [reflexivity|].
  cbn [list_index]. destruct (String.eqb c name) eqn:E.
  - apply String.eqb_eq in E. exfalso. apply H. left. exact E.
  - rewrite IH by (intros Hin; apply H; right; exact Hin). reflexivity.
Qed.

Lemma list_index_raises (name : String.string) (header : list String.string)
  (e : exn) :
  list_index name header = Raise e -> e = ValueError /\ ~ In name header.
Proof.
  intros H. destruct (in_dec String.string_dec name header) as [Hin|Hin].
  - destruct (list_index_found name header Hin) as [k [Hk _]]. congruence.
  - rewrite list_index_missing in H by exact Hin. split; [congruence|exact Hin].
Qed.

Section RowFacts.

Variable strip : String.string -> String.string.

Lemma collect_matches_filter (data_rows : list (list String.string))
  (winner_idx loser_idx : nat) :
  collect_matches strip data_rows winner_idx loser_idx
  = map (row_match strip winner_idx loser_idx)
        (filter (valid_row strip winner_idx loser_idx) data_rows).
Proof.
  unfold collect_matches.
  set (step := fun (matches : list (String.string * String.string))
                   (row : list String.string) =>
                 if Nat.ltb (Nat.max winner_idx loser_idx) (length row) then
                   let winner := strip (nth winner_idx row String.EmptyString) in
                   let loser := strip (nth loser_idx row String.EmptyString) in
                   if nonempty winner && nonempty loser
                   then matches ++ [(winner, loser)]
                   else matches
                 else matches).
  assert (Hgen : forall acc,
            fold_left step data_rows acc
            = acc ++ map (row_match strip winner_idx loser_idx)
                         (filter (valid_row strip winner_idx loser_idx)
                                 data_rows)).
  { induction data_rows as [|row rows IH]; intros acc.
    - simpl. rewrite app_nil_r. reflexivity.
    - cbn [fold_left filter]. rewrite IH. unfold step, valid_row.
      destruct (Nat.ltb (Nat.max winner_idx loser_idx) (length row));
        [|reflexivity].
      cbv zeta. cbn [andb].
      destruct (nonempty (strip (nth winner_idx row String.EmptyString))
                && nonempty (strip (nth loser_idx row String.EmptyString)));
        [|reflexivity].
      cbn [map]. rewrite <- app_assoc. reflexivity. }
  apply (Hgen []).
Qed.

End RowFacts.

Section LoaderFacts.

Variable strip : String.string -> String.string.

Lemma collect_matches_sound (data_rows : list (list String.string))
  (winner_idx loser_idx : nat) (winner loser : String.string) :
  In (winner, loser) (collect_matches strip data_rows winner_idx loser_idx) ->
  nonempty winner = true /\ nonempty loser = true
  /\ exists row cw cl,
       In row data_rows /\ In cw row /\ In cl row
       /\ winner = strip cw /\ loser = strip cl.
Proof.
  rewrite collect_matches_filter. intros H.
  apply in_map_iff in H. destruct H as [row [Heq Hrow]].
  apply filter_In in Hrow. destruct Hrow as [Hrow Hvalid].
  unfold valid_row in Hvalid.
  apply andb_true_iff in Hvalid. destruct Hvalid as [Hlen Hne].
  apply andb_true_iff in Hne. destruct Hne as [Hw Hl].
  apply Nat.ltb_lt in Hlen. unfold row_match in Heq.
  injection Heq as <- <-. split; [exact Hw|]. split; [exact Hl|].
  exists row, (nth winner_idx row String.EmptyString),
         (nth loser_idx row String.EmptyString).
  split; [exact Hrow|]. split; [apply nth_In; lia|].
  split; [apply nth_In; lia|]. split; reflexivity.
Qed.

Lemma collect_matches_length (data_rows : list (list String.string))
  (winner_idx loser_idx : nat) :
  (length (collect_matches strip data_rows winner_idx loser_idx)
   <= length data_rows)%nat.
Proof.
  rewrite collect_matches_filter, length_map. apply filter_length_le.
Qed.

(** X14. Every match [load_matches_from_csv] returns has a non-empty winner
    and a non-empty loser, both the stripped cells of one row of the file,
    and there are at most as many matches as rows, the header not
    counted. *)
Theorem loaded_matches_well_formed (rows : list (list String.string))
  (winner_col loser_col : column) (has_header : bool)
  (matches : list (String.string * String.string)) :
  load_matches_from_csv strip rows winner_col loser_col has_header = Ok matches ->
  (forall winner loser, In (winner, loser) matches ->
     nonempty winner = true /\ nonempty loser = true
     /\ exists row cw cl,
          In row rows /\ In cw row /\ In cl row
          /\ winner = strip cw /\ loser = strip cl)
  /\ (length matches <= length rows - (if has_header then 1 else 0))%nat.
Proof.
  unfold load_matches_from_csv. intros H.
  destruct rows as [|header data_rows].
  - injection H as <-. split; [intros ? ? []|simpl; lia].
  - destruct has_header.
    + destruct (match winner_col with
                | ColName name => list_index name header
                | ColIndex k => Ok k
                end) as [wi|]; [|discriminate].
      destruct (match loser_col with
                | ColName name => list_index name header
                | ColIndex k => Ok k
                end) as [li|]; [|discriminate].
      cbn [bind] in H. injection H as <-. split.
      * intros winner loser Hin.
        destruct (collect_matches_sound _ _ _ _ _ Hin)
          as (Hw & Hl & row & cw & cl & Hrow & Hrest).
        split; [exact Hw|]. split; [exact Hl|].
        exists row, cw, cl. split; [right; exact Hrow|exact Hrest].
      * pose proof (collect_matches_length data_rows wi li). simpl. lia.
    + injection H as <-. split.
      * intros winner loser Hin.
        apply (collect_matches_sound _ _ _ _ _ Hin).
      * rewrite Nat.sub_0_r. apply collect_matches_length.
Qed.

(** X15. With each column given by a name or by a non-negative index (the
    [column] type; a negative index, which Python counts from the end of a
    row and which can raise [IndexError], is outside it),
    [load_matches_from_csv] raises only [ValueError], and exactly when the
    file is not empty, a header is expected and a column is given by a name
    the header row does not hold; an empty file gives no matches. *)
Theorem loader_raises_iff (rows : list (list String.string))
  (winner_col loser_col : column) (has_header : bool) (e : exn) :
  load_matches_from_csv strip rows winner_col loser_col has_header = Raise e
  <-> e = ValueError /\ has_header = true
      /\ exists header data_rows,
           rows = header :: data_rows
           /\ (column_missing winner_col header
               \/ column_missing loser_col header).
Proof.
  unfold load_matches_from_csv. split.
  - intros H. destruct rows as [|header data_rows]; [discriminate|].
    destruct has_header; [|discriminate].
    destruct winner_col as [wname|wk].
    + destruct (list_index wname header) as [wi|e'] eqn:Ew.
      * cbn [bind] in H. destruct loser_col as [lname|lk]; [|discriminate].
        destruct (list_index lname header) as [li|e''] eqn:El; [discriminate|].
        cbn [bind] in H. injection H as <-.
        destruct (list_index_raises _ _ El) as [-> Hmiss].
        split; [reflexivity|]. split; [reflexivity|].
        exists header, data_rows. split; [reflexivity|right; exact Hmiss].
      * cbn [bind] in H. injection H as <-.
        destruct (list_index_raises _ _ Ew) as [-> Hmiss].
        split; [reflexivity|]. split; [reflexivity|].
        exists header, data_rows. split; [reflexivity|left; exact Hmiss].
    + cbn [bind] in H. destruct loser_col as [lname|lk]; [|discriminate].
      destruct (list_index lname header) as [li|e''] eqn:El; [discriminate|].
      cbn [bind] in H. injection H as <-.
      destruct (list_index_raises _ _ El) as [-> Hmiss].
      split; [reflexivity|]. split; [reflexivity|].
      exists header, data_rows. split; [reflexivity|right; exact Hmiss].
  - intros (-> & -> & header & data_rows & -> & Hmiss).
    destruct winner_col as [wname|wk].
    + destruct (in_dec String.string_dec wname header) as [Hin|Hout].
      * destruct (list_index_found _ _ Hin) as [wi [-> _]]. cbn [bind].
        destruct Hmiss as [Hmiss|Hmiss]; [contradiction|].
        destruct loser_col as [lname|lk]; [|destruct Hmiss].
        simpl in Hmiss. rewrite list_index_missing by exact Hmiss.
        reflexivity.
      * rewrite list_index_missing by exact Hout. reflexivity.
    + cbn [bind]. destruct Hmiss as [[]|Hmiss].
      destruct loser_col as [lname|lk]; [|destruct Hmiss].
      simpl in Hmiss. rewrite list_index_missing by exact Hmiss.
      reflexivity.
Qed.

(** X16. The upload handler accepts a file exactly when
    [load_matches_from_csv], reading the same rows with a header and the two
    column names, returns at least one match, and it goes on with the same
    list; it turns a missing column into a 400 response and lets no
    exception escape the parsing. *)
Theorem upload_accepts_what_loader_reads (rows : list (list String.string))
  (winner_col loser_col : String.string) :
  (forall matches,
     upload_matches strip rows winner_col loser_col = Parsed matches
     <-> load_matches_from_csv strip rows (ColName winner_col)
                               (ColName loser_col) true = Ok matches
         /\ matches <> [])
  /\ (forall e, upload_matches strip rows winner_col loser_col <> ServerError e)
  /\ (upload_matches strip rows winner_col loser_col = Rejected ColumnsNotFound
      <-> (2 <= length rows)%nat
          /\ load_matches_from_csv strip rows (ColName winner_col)
                                   (ColName loser_col) true
             = Raise ValueError).
Proof.
  unfold upload_matches, load_matches_from_csv.
  destruct rows as [|header data_rows].
  { cbn [length Nat.ltb Nat.leb]. split; [|split].
    - intros matches. split; [discriminate|]. intros [H Hne].
      injection H as <-. congruence.
    - discriminate.
    - split; [discriminate|]. intros [H _]. simpl in H. lia. }
  destruct data_rows as [|row data_rows].
  { cbn [length Nat.ltb Nat.leb]. split; [|split].
    - intros matches. split; [discriminate|]. intros [H Hne].
      destruct (list_index winner_col header); [|discriminate].
      destruct (list_index loser_col header); [|discriminate].
      cbn [bind] in H. injection H as <-. exfalso. apply Hne. reflexivity.
    - discriminate.
    - split; [discriminate|]. intros [H _]. simpl in H. lia. }
  change (Nat.ltb (length (header :: row :: data_rows)) 2) with false.
  cbv iota.
  destruct (list_index winner_col header) as [wi|e1] eqn:Ew.
  - destruct (list_index loser_col header) as [li|e2] eqn:El.
    + cbn [bind].
      destruct (collect_matches strip (row :: data_rows) wi li) as [|m ms].
      * split; [|split].
        -- intros matches. split; [discriminate|]. intros [H Hne].
           injection H as <-. congruence.
        -- discriminate.
        -- split; [discriminate|]. intros [_ H]. discriminate.
      * split; [|split].
        -- intros matches. split.
           ++ intros H. injection H as <-. split; [reflexivity|discriminate].
           ++ intros [H _]. injection H as <-. reflexivity.
        -- discriminate.
        -- split; [discriminate|]. intros [_ H]. discriminate.
    + cbn [bind]. destruct (list_index_raises _ _ El) as [-> _].
      split; [|split].
      * intros matches. split; [discriminate|]. intros [H _]. discriminate.
      * discriminate.
      * split; [intros _; split; [simpl; lia|reflexivity]|reflexivity].
  - cbn [bind]. destruct (list_index_raises _ _ Ew) as [-> _].
    split; [|split].
    + intros matches. split; [discriminate|]. intros [H _]. discriminate.
    + discriminate.
    + split; [intros _; split; [simpl; lia|reflexivity]|reflexivity].
Qed.

End LoaderFacts.

Lemma loaded_matches_well_formed_witness :
  load_matches_from_csv strip_blanks sample_rows
                        (ColName "winner"%string) (ColName "loser"%string) true
  = Ok [("ann", "bob"); ("cid", "ann")]%string
  /\ (length [("ann", "bob"); ("cid", "ann")]%string
      <= length sample_rows - 1)%nat.
Proof.
  split; [reflexivity|].
  apply (@loaded_matches_well_formed strip_blanks sample_rows
           (ColName "winner"%string) (ColName "loser"%string) true
           [("ann", "bob"); ("cid", "ann")]%string).
  reflexivity.
Defined.

(** ** The log-posterior *)

Lemma log_posterior_split (log_ratings : dict R)
  (wins matches : dict (dict nat)) (prior_std : R) :
  log_posterior log_ratings wins matches prior_std
  = (log_prob <- likelihood_part log_ratings wins matches ;;
     foldM (fun log_prob (e : player * R) =>
              let '(_, rating) := e in
              q <- pydiv rating prior_std ;;
              Ok (log_prob - (1 / 2) * q ^ 2))
           log_ratings log_prob).
Proof. reflexivity. Qed.

Lemma getitem_tabulate_notin {V : Type} (f : player -> V) l k :
  ~ In k l -> getitem (tabulate f l) k = Raise KeyError.
Proof.
  intros H. unfold getitem. rewrite lookup_notin_keys; [reflexivity|].
  rewrite keys_tabulate. exact H.
Qed.

Lemma Rmax_shift (a b c : R) : Rmax (a + c) (b + c) = Rmax a b + c.
Proof.
  unfold Rmax. destruct (Rle_dec (a + c) (b + c)), (Rle_dec a b); lra.
Qed.

Lemma likelihood_part_shift (r : player -> R) (P : list player)
  (wins matches : dict (dict nat)) (c : R) :
  likelihood_part (tabulate (fun i => r i + c) P) wins matches
  = likelihood_part (tabulate r P) wins matches.
Proof.
  unfold likelihood_part. apply foldM_ext. intros acc [i row] _.
  apply foldM_ext. intros acc' [j w_ij] _. cbv zeta.
  destruct (Nat.ltb 0 (get2 matches i j)); [|reflexivity].
  destruct (in_dec Nat.eq_dec i P) as [Hi|Hi].
  - rewrite !(getitem_tabulate _ _ _ Hi). cbn [bind].
    destruct (in_dec Nat.eq_dec j P) as [Hj|Hj].
    + rewrite !(getitem_tabulate _ _ _ Hj). cbn [bind].
      rewrite Rmax_shift.
      replace (r i + c - (Rmax (r i) (r j) + c)) with (r i - Rmax (r i) (r j))
        by lra.
      replace (r j + c - (Rmax (r i) (r j) + c)) with (r j - Rmax (r i) (r j))
        by lra.
      destruct (pylog (exp (r i - Rmax (r i) (r j))
                       + exp (r j - Rmax (r i) (r j)))) as [l|];
        [|reflexivity].
      cbn [bind]. f_equal. lra.
    + rewrite (@getitem_tabulate_notin _ (fun i => r i + c) P j Hj),
              (@getitem_tabulate_notin _ r P j Hj).
      reflexivity.
  - rewrite (@getitem_tabulate_notin _ (fun i => r i + c) P i Hi),
            (@getitem_tabulate_notin _ r P i Hi).
    reflexivity.
Qed.

(** X17. Adding one constant to every rating leaves the likelihood part of
    [log_posterior] unchanged; the value it returns moves by the change of
    the Gaussian prior alone. *)
Theorem log_posterior_shift (r : player -> R) (P : list player)
  (wins matches : dict (dict nat)) (prior_std c lp : R) :
  prior_std <> 0 ->
  log_posterior (tabulate r P) wins matches prior_std = Ok lp ->
  likelihood_part (tabulate (fun i => r i + c) P) wins matches
  = likelihood_part (tabulate r P) wins matches
  /\ log_posterior (tabulate (fun i => r i + c) P) wins matches prior_std
     = Ok (lp - gaussian_log_prior (tabulate r P) prior_std
           + gaussian_log_prior (tabulate (fun i => r i + c) P) prior_std).
Proof.
  intros Hstd Hrun. split; [apply likelihood_part_shift|].
  rewrite log_posterior_split in *. rewrite likelihood_part_shift.
  destruct (likelihood_part (tabulate r P) wins matches) as [L|];
    [|discriminate].
  cbn [bind] in *. rewrite prior_fold in * by exact Hstd.
  injection Hrun as <-. f_equal. lra.
Qed.

Lemma log_posterior_shift_witness :
  log_posterior (tabulate (fun i => 0 + 1) [0; 1]%nat) pair_wins pair_matches 2
  = Ok (pair_log_posterior 0 0
        - gaussian_log_prior (tabulate (fun i => 0) [0; 1]%nat) 2
        + gaussian_log_prior (tabulate (fun i => 0 + 1) [0; 1]%nat) 2).
Proof.
  apply (@log_posterior_shift (fun _ => 0) [0; 1]%nat pair_wins pair_matches
           2 1 (pair_log_posterior 0 0)).
  - lra.
  - apply pair_log_posterior_ok.
Defined.

(** X18. On a match list in which no two players have beaten each other
    (and nobody played itself) [log_posterior] returns the Bradley-Terry
    log-posterior: the log-probability of every recorded outcome at
    strengths [exp(rating)], plus the Gaussian log-prior. *)
Theorem log_posterior_matches_model (matches : list game) (r : player -> R)
  (prior_std : R) :
  no_reciprocated matches = true -> prior_std <> 0 ->
  log_posterior (tabulate r (fit_players matches))
                (w (aggregate_matches matches)) (n (aggregate_matches matches))
                prior_std
  = Ok (bt_log_likelihood matches
          (fun i => exp (get_dd 0 (tabulate r (fit_players matches)) i))
        + gaussian_log_prior (tabulate r (fit_players matches)) prior_std).
Proof.
  intros Hrec Hstd.
  exact (log_posterior_without_reciprocated matches r Hrec Hstd).
Qed.

Lemma log_posterior_matches_model_witness :
  let matches := [(0, 1); (1, 2); (0, 1)]%nat in
  let log_ratings := tabulate (fun i => INR i) (fit_players matches) in
  log_posterior log_ratings (w (aggregate_matches matches))
                (n (aggregate_matches matches)) 2
  = Ok (bt_log_likelihood matches (fun i => exp (get_dd 0 log_ratings i))
        + gaussian_log_prior log_ratings 2).
Proof.
  intros matches log_ratings.
  apply (@log_posterior_matches_model [(0, 1); (1, 2); (0, 1)]%nat
           (fun i => INR i) 2).
  - reflexivity.
  - lra.
Defined.

Lemma likelihood_part_total (f : player -> R) (P : list player)
  (wins matches : dict (dict nat)) :
  keys_within wins P ->
  exists L, likelihood_part (tabulate f P) wins matches = Ok L.
Proof.
  intros Hw.
  destruct (@log_posterior_total f P wins matches 1 Hw ltac:(lra)) as [lp Hlp].
  rewrite log_posterior_split in Hlp.
  destruct (likelihood_part (tabulate f P) wins matches) as [L|];
    [eauto|discriminate].
Qed.

(** X19. A prior standard deviation of zero makes [log_posterior] raise
    [ZeroDivisionError] on the tallies of any non-empty match list, and
    [mcmc_bradley_terry] raise it before it draws a single random number. *)
Theorem zero_prior_std_raises (matches_list : list game) :
  matches_list <> [] ->
  (forall r : player -> R,
     log_posterior (tabulate r (fit_players matches_list))
                   (w (aggregate_matches matches_list))
                   (n (aggregate_matches matches_list)) 0
     = Raise ZeroDivisionError)
  /\ (forall (G : Type) (np : numpy G) n_samples burn_in thin proposal_std g,
        mcmc_bradley_terry np matches_list n_samples burn_in thin
                           proposal_std 0 g
        = (Raise ZeroDivisionError, g)).
Proof.
  intros Hne.
  assert (Hlp : forall r : player -> R,
            log_posterior (tabulate r (fit_players matches_list))
                          (w (aggregate_matches matches_list))
                          (n (aggregate_matches matches_list)) 0
            = Raise ZeroDivisionError).
  { intros r. rewrite log_posterior_split.
    destruct (likelihood_part_total r (n (aggregate_matches matches_list))
                (wins_within matches_list)) as [L ->].
    cbn [bind]. pose proof (fit_players_nonempty Hne) as HP.
    destruct (fit_players matches_list) as [|i0 P0]; [contradiction|].
    cbn [tabulate map foldM]. unfold pydiv at 1.
    destruct (Req_dec_T 0 0); [reflexivity|congruence]. }
  split; [exact Hlp|].
  intros G np n_samples burn_in thin proposal_std g.
  unfold mcmc_bradley_terry. fold (fit_players matches_list).
  pose proof (fit_players_nonempty Hne) as HP.
  destruct (fit_players matches_list) as [|i0 P0] eqn:EP; [contradiction|].
  rewrite <- EP in *.
  unfold mcmc_chain. fold (fit_players matches_list).
  change (map (fun p => (p, 0)) (fit_players matches_list))
    with (tabulate (fun _ : player => 0) (fit_players matches_list)).
  unfold bindS at 1 2, liftS at 1. rewrite Hlp. reflexivity.
Qed.

Lemma zero_prior_std_raises_witness :
  mcmc_bradley_terry counting_numpy [(0, 1); (1, 2); (0, 1)]%nat 3 1 1 (1 / 2)
                     0 0%nat
  = (Raise ZeroDivisionError, 0%nat).
Proof.
  destruct (@zero_prior_std_raises [(0, 1); (1, 2); (0, 1)]%nat) as [_ H].
  - discriminate.
  - apply H.
Defined.

(** ** The sampler: retained samples and error cases *)

Lemma kept_count_succ (burn_in thin k : nat) :
  kept_count burn_in thin (S k)
  = (kept_count burn_in thin k
     + if keeps_sample burn_in thin k then 1 else 0)%nat.
Proof.
  unfold kept_count. rewrite seq_S, filter_app, length_app. cbn [filter Nat.add].
  destruct (keeps_sample burn_in thin k); reflexivity.
Qed.

Lemma kept_count_burn_in (burn_in thin k : nat) :
  (k <= burn_in)%nat -> kept_count burn_in thin k = 0%nat.
Proof.
  induction k as [|k IH]; intros Hk; [reflexivity|].
  rewrite kept_count_succ, IH by lia. unfold keeps_sample.
  destruct (Nat.leb_spec burn_in k) as [H|H]; [lia|reflexivity].
Qed.

Lemma ceil_div_succ (a thin : nat) :
  (1 <= thin)%nat ->
  ((S a + thin - 1) / thin
   = (a + thin - 1) / thin + if Nat.eqb (a mod thin) 0 then 1 else 0)%nat.
Proof.
  intros Hthin.
  pose proof (Nat.div_mod_eq a thin) as Hdm.
  pose proof (Nat.mod_upper_bound a thin ltac:(lia)) as Hr.
  set (q := (a / thin)%nat) in *. set (r := (a mod thin)%nat) in *.
  destruct (Nat.eqb_spec r 0) as [H0|H0].
  - assert (H1 : ((S a + thin - 1) / thin = q + 1)%nat).
    { symmetry. apply Nat.div_unique with (r := 0%nat); nia. }
    assert (H2 : ((a + thin - 1) / thin = q)%nat).
    { symmetry. apply Nat.div_unique with (r := (thin - 1)%nat); nia. }
    lia.
  - assert (H1 : ((S a + thin - 1) / thin = q + 1)%nat).
    { symmetry. apply Nat.div_unique with (r := r); nia. }
    assert (H2 : ((a + thin - 1) / thin = q + 1)%nat).
    { symmetry. apply Nat.div_unique with (r := (r - 1)%nat); nia. }
    lia.
Qed.

Lemma kept_count_closed (burn_in thin n_samples : nat) :
  (1 <= thin)%nat ->
  kept_count burn_in thin (n_samples + burn_in)
  = ((n_samples + thin - 1) / thin)%nat.
Proof.
  intros Hthin. induction n_samples as [|a IH].
  - rewrite kept_count_burn_in by (simpl; lia).
    symmetry. apply Nat.div_small. lia.
  - change (S a + burn_in)%nat with (S (a + burn_in)).
    rewrite kept_count_succ, IH, ceil_div_succ by exact Hthin.
    f_equal. unfold keeps_sample.
    destruct (Nat.leb_spec burn_in (a + burn_in)) as [_|H]; [|lia].
    cbn [andb]. replace (a + burn_in - burn_in)%nat with a by lia.
    reflexivity.
Qed.

Section SamplerCount.

Variable G : Type.
Variable np : numpy G.
Variable P : list player.
Variables wins matches : dict (dict nat).
Variables proposal_std prior_std : R.

Hypothesis P_nodup : NoDup P.
Hypothesis P_nonempty : P <> [].

Lemma store_sample_count (burn_in thin iteration : nat) (f : player -> R)
  (kept kept' : dict (list R)) (m : nat) :
  samples_count P kept m ->
  store_sample P burn_in thin iteration (tabulate f P) kept = Ok kept' ->
  samples_count P kept'
    (m + if keeps_sample burn_in thin iteration then 1 else 0).
Proof.
  intros [Sm [-> Hlen]] Hrun. unfold store_sample in Hrun.
  unfold keeps_sample.
  destruct (Nat.leb burn_in iteration).
  2:{ injection Hrun as <-. exists Sm. split; [reflexivity|].
      intros i Hi. rewrite (Hlen i Hi). simpl. lia. }
  destruct thin as [|t]; [discriminate|]. cbn [pymod bind andb] in *.
  destruct (Nat.eqb ((iteration - burn_in) mod S t) 0).
  - rewrite (foldM_ext _
               (fun d i => v <- getitem d i ;; Ok (setitem d i (v ++ [f i]))))
      in Hrun.
    2:{ intros a x Hx. destruct (getitem a x); cbn [bind]; [|reflexivity].
        rewrite getitem_tabulate by exact Hx. reflexivity. }
    rewrite (foldM_adjust (fun i l => l ++ [f i])) in Hrun by assumption.
    injection Hrun as <-. exists (fun i => Sm i ++ [f i]).
    split; [reflexivity|]. intros i Hi.
    rewrite length_app, (Hlen i Hi). reflexivity.
  - injection Hrun as <-. exists Sm. split; [reflexivity|].
    intros i Hi. rewrite (Hlen i Hi). lia.
Qed.

Lemma mcmc_iteration_count (burn_in thin iteration : nat)
  (st st' : chain * dict (list R)) (g g' : G) (m : nat) :
  shaped P (fst st) -> samples_count P (snd st) m ->
  mcmc_iteration np P wins matches burn_in thin proposal_std prior_std
                 st iteration g = (Ok st', g') ->
  shaped P (fst st')
  /\ samples_count P (snd st')
       (m + if keeps_sample burn_in thin iteration then 1 else 0).
Proof.
  intros Hshape Hkept Hrun. destruct st as [c kept].
  unfold mcmc_iteration in Hrun.
  apply bindS_ok in Hrun. destruct Hrun as [c1 [g1 [Hsweep Hrun]]].
  apply bindS_ok in Hrun. destruct Hrun as [c2 [g2 [Hrec Hrun]]].
  apply bindS_ok in Hrun. destruct Hrun as [kept2 [g3 [Hstore Hrun]]].
  apply retS_ok in Hrun. destruct Hrun as [-> _].
  apply liftS_ok in Hrec. destruct Hrec as [Hrec _].
  apply liftS_ok in Hstore. destruct Hstore as [Hstore _].
  cbn [fst snd] in *.
  assert (Hc1 : shaped P c1) by (eapply sweep_shaped; eassumption).
  destruct (@recenter_centered P wins matches prior_std P_nodup P_nonempty
              c1 c2 Hc1 Hrec) as [Hc2 _].
  split; [exact Hc2|].
  destruct Hc2 as [f Hf]. rewrite Hf in Hstore.
  eapply store_sample_count; eassumption.
Qed.

Lemma foldS_seq_inv {A : Type} (I : nat -> A -> Prop)
  (f : A -> nat -> sampler G A) (len start : nat) (a a' : A) (g g' : G) :
  (forall k a g a' g', I k a -> f a k g = (Ok a', g') -> I (S k) a') ->
  I start a -> foldS f (seq start len) a g = (Ok a', g') ->
  I (start + len)%nat a'.
Proof.
  intros Hstep. revert start a g.
  induction len as [|len IH]; intros start a g Ha Hrun.
  - apply retS_ok in Hrun. destruct Hrun as [-> _].
    rewrite Nat.add_0_r. exact Ha.
  - cbn [seq foldS] in Hrun. apply bindS_ok in Hrun.
    destruct Hrun as [a1 [g1 [H1 H2]]].
    rewrite <- Nat.add_succ_comm.
    apply (IH (S start) a1 g1); [|exact H2].
    exact (Hstep start a g a1 g1 Ha H1).
Qed.

End SamplerCount.

Lemma summarize_fields (G : Type) (np : numpy G) (P l : list player)
  (Sm : player -> list R) (s0 : summary) (done : list player) :
  NoDup l -> (forall i, In i l -> In i P) ->
  (forall i, In i l -> ~ In i done) ->
  keys (mean s0) = done -> keys (median s0) = done -> keys (std s0) = done ->
  keys (ci_lower s0) = done -> keys (ci_upper s0) = done ->
  keys (samples s0) = done ->
  exists s,
    foldM (fun (s : summary) p =>
             arr <- getitem (tabulate Sm P) p ;;
             Ok (mkSummary (setitem (mean s) p (np_mean np arr))
                           (setitem (median s) p (np_median np arr))
                           (setitem (std s) p (np_std np arr))
                           (setitem (ci_lower s) p (np_percentile np arr (5 / 2)))
                           (setitem (ci_upper s) p (np_percentile np arr (195 / 2)))
                           (setitem (samples s) p arr)))
          l s0 = Ok s
    /\ mean s = mean s0 ++ tabulate (fun i => np_mean np (Sm i)) l
    /\ median s = median s0 ++ tabulate (fun i => np_median np (Sm i)) l
    /\ std s = std s0 ++ tabulate (fun i => np_std np (Sm i)) l
    /\ ci_lower s
       = ci_lower s0 ++ tabulate (fun i => np_percentile np (Sm i) (5 / 2)) l
    /\ ci_upper s
       = ci_upper s0 ++ tabulate (fun i => np_percentile np (Sm i) (195 / 2)) l
    /\ samples s = samples s0 ++ tabulate Sm l.
Proof.
  revert s0 done. induction l as [|i l IH];
    intros s0 done Hnd Hsub Hfresh H1 H2 H3 H4 H5 H6.
  - exists s0. split; [reflexivity|]. cbn [tabulate map].
    rewrite !app_nil_r. repeat split; reflexivity.
  - inversion Hnd as [|? ? Hi Hnd']; subst. cbn [foldM].
    rewrite getitem_tabulate by (apply Hsub; left; reflexivity). cbn [bind].
    assert (Hi0 : ~ In i (keys (mean s0))) by (apply Hfresh; left; reflexivity).
    assert (Hset : forall (V : Type) (d : dict V) (v : V),
              keys d = keys (mean s0) ->
              keys (setitem d i v) = keys (mean s0) ++ [i]
              /\ setitem d i v = d ++ [(i, v)]).
    { intros V d v Hd. rewrite <- Hd in Hi0. split.
      - rewrite keys_setitem_notin by exact Hi0. rewrite Hd. reflexivity.
      - rewrite <- (app_nil_r d) at 1.
        rewrite setitem_app_notin by exact Hi0. reflexivity. }
    match goal with
    | |- exists s, foldM _ l ?s1 = _ /\ _ =>
        destruct (IH s1 (keys (mean s0) ++ [i])) as [s [Hrun Hs]]
    end.
    + exact Hnd'.
    + intros j Hj. apply Hsub. right. exact Hj.
    + intros j Hj Hin. apply in_app_or in Hin. destruct Hin as [Hin|[Hin|[]]].
      * exact (Hfresh j (or_intror Hj) Hin).
      * subst j. contradiction.
    + cbn [mean]. apply Hset. reflexivity.
    + cbn [median]. apply Hset. exact H2.
    + cbn [std]. apply Hset. exact H3.
    + cbn [ci_lower]. apply Hset. exact H4.
    + cbn [ci_upper]. apply Hset. exact H5.
    + cbn [samples]. apply Hset. exact H6.
    + exists s. split; [exact Hrun|].
      destruct Hs as (E1 & E2 & E3 & E4 & E5 & E6).
      rewrite E1, E2, E3, E4, E5, E6.
      cbn [mean median std ci_lower ci_upper samples].
      rewrite !(proj2 (Hset _ _ _ eq_refl)).
      rewrite (proj2 (Hset _ (median s0) _ H2)),
              (proj2 (Hset _ (std s0) _ H3)),
              (proj2 (Hset _ (ci_lower s0) _ H4)),
              (proj2 (Hset _ (ci_upper s0) _ H5)),
              (proj2 (Hset _ (samples s0) _ H6)).
      cbn [tabulate map]. rewrite <- !app_assoc. repeat split; reflexivity.
Qed.

Section SamplerOutput.

Variable G : Type.
Variable np : numpy G.
Variable matches_list : list game.
Variables n_samples burn_in thin : nat.
Variables proposal_std prior_std : R.

Lemma mcmc_run_inv (g g' : G) (s : summary) :
  mcmc_bradley_terry np matches_list n_samples burn_in thin
                     proposal_std prior_std g = (Ok (Results s), g') ->
  matches_list <> []
  /\ exists c kept g1,
       mcmc_chain np matches_list n_samples burn_in thin
                  proposal_std prior_std g = (Ok (c, kept), g1)
       /\ summarize np (fit_players matches_list) kept = Ok s.
Proof.
  intros Hrun. unfold mcmc_bradley_terry in Hrun.
  fold (fit_players matches_list) in Hrun.
  destruct (fit_players matches_list) as [|i0 P0] eqn:EP.
  { apply retS_ok in Hrun. destruct Hrun as [Hrun _]. discriminate. }
  rewrite <- EP in *.
  split; [intros ->; rewrite fit_players_nil in EP; discriminate|].
  apply bindS_ok in Hrun. destruct Hrun as [[c kept] [g1 [Hchain Hrun]]].
  apply bindS_ok in Hrun. destruct Hrun as [s1 [g2 [Hsum Hrun]]].
  apply retS_ok in Hrun. destruct Hrun as [Hs _]. inversion Hs. subst s1.
  apply liftS_ok in Hsum. destruct Hsum as [Hsum _]. cbn [snd] in Hsum.
  exists c, kept, g1. split; [exact Hchain|exact Hsum].
Qed.

Lemma mcmc_chain_count (g g' : G) (c : chain) (kept : dict (list R)) :
  matches_list <> [] ->
  mcmc_chain np matches_list n_samples burn_in thin proposal_std prior_std g
  = (Ok (c, kept), g') ->
  samples_count (fit_players matches_list) kept
                (kept_count burn_in thin (n_samples + burn_in)).
Proof.
  intros Hne Hrun. unfold mcmc_chain in Hrun.
  fold (fit_players matches_list) in Hrun.
  apply bindS_ok in Hrun. destruct Hrun as [lp [g1 [_ Hrun]]].
  pose (I := fun (k : nat) (st : chain * dict (list R)) =>
               shaped (fit_players matches_list) (fst st)
               /\ samples_count (fit_players matches_list) (snd st)
                                (kept_count burn_in thin k)).
  assert (H : I (0 + (n_samples + burn_in))%nat (c, kept)).
  { eapply (foldS_seq_inv I); [| |exact Hrun].
    - intros k a g0 a' g0' [Ha1 Ha2] Hstep. unfold I.
      rewrite kept_count_succ.
      eapply mcmc_iteration_count; try eassumption.
      + apply fit_players_nodup.
      + apply fit_players_nonempty, Hne.
    - unfold I. cbn [fst snd]. split.
      + exists (fun _ => 0). reflexivity.
      + exists (fun _ => []). split; [reflexivity|]. intros i _. reflexivity. }
  exact (proj2 H).
Qed.

Lemma mcmc_summary (g g' : G) (s : summary) :
  mcmc_bradley_terry np matches_list n_samples burn_in thin
                     proposal_std prior_std g = (Ok (Results s), g') ->
  exists Sm : player -> list R,
    (forall i, In i (fit_players matches_list) ->
       length (Sm i) = kept_count burn_in thin (n_samples + burn_in))
    /\ mean s = tabulate (fun i => np_mean np (Sm i)) (fit_players matches_list)
    /\ median s
       = tabulate (fun i => np_median np (Sm i)) (fit_players matches_list)
    /\ std s = tabulate (fun i => np_std np (Sm i)) (fit_players matches_list)
    /\ ci_lower s = tabulate (fun i => np_percentile np (Sm i) (5 / 2))
                             (fit_players matches_list)
    /\ ci_upper s = tabulate (fun i => np_percentile np (Sm i) (195 / 2))
                             (fit_players matches_list)
    /\ samples s = tabulate Sm (fit_players matches_list).
Proof.
  intros Hrun. destruct (mcmc_run_inv _ Hrun) as (Hne & c & kept & g1 & Hchain & Hsum).
  destruct (mcmc_chain_count _ Hne Hchain) as [Sm [-> Hlen]].
  destruct (@summarize_fields G np (fit_players matches_list)
              (fit_players matches_list) Sm (mkSummary [] [] [] [] [] []) []
              (fit_players_nodup matches_list) (fun i H => H)
              (fun i _ (H : In i []) => H)
              eq_refl eq_refl eq_refl eq_refl eq_refl eq_refl)
    as (s2 & Hrun2 & E1 & E2 & E3 & E4 & E5 & E6).
  unfold summarize in Hsum. rewrite Hrun2 in Hsum. injection Hsum as <-.
  exists Sm. split; [exact Hlen|]. cbn [mean median std ci_lower ci_upper samples app] in *.
  repeat split; assumption.
Qed.

End SamplerOutput.

(** X20. [mcmc_bradley_terry] keeps one sample every [thin] iterations
    after the burn-in: whenever it returns its results, each player's sample
    list has [ceil(n_samples / thin)] entries, not [n_samples]. *)
Theorem retained_sample_count (G : Type) (np : numpy G)
  (matches_list : list game) (n_samples burn_in thin : nat)
  (proposal_std prior_std : R) (g g' : G) (s : summary) :
  (1 <= thin)%nat ->
  mcmc_bradley_terry np matches_list n_samples burn_in thin
                     proposal_std prior_std g = (Ok (Results s), g') ->
  forall i, In i (keys (samples s)) ->
    length (get_dd [] (samples s) i) = ((n_samples + thin - 1) / thin)%nat.
Proof.
  intros Hthin Hrun i Hi.
  destruct (mcmc_summary _ _ _ _ _ _ _ _ Hrun)
    as (Sm & Hlen & _ & _ & _ & _ & _ & Hs).
  rewrite Hs in *. rewrite keys_tabulate in Hi.
  rewrite get_dd_tabulate by exact Hi.
  rewrite (Hlen i Hi). apply kept_count_closed. exact Hthin.
Qed.

Lemma retained_sample_count_witness :
  exists s g',
    mcmc_bradley_terry counting_numpy [(0, 1); (1, 2); (0, 1)]%nat 5 1 2
                       (1 / 2) 2 0%nat = (Ok (Results s), g')
    /\ forall i, In i (keys (samples s)) ->
         length (get_dd [] (samples s) i) = 3%nat.
Proof.
  destruct (@mcmc_bradley_terry_total nat counting_numpy
              [(0, 1); (1, 2); (0, 1)]%nat 5 1 2 (1 / 2) 2)
    with (g := 0%nat) as (s & g' & Hrun).
  - discriminate.
  - lra.
  - lia.
  - apply counting_draws_positive.
  - exists s, g'. split; [exact Hrun|].
    apply (@retained_sample_count nat counting_numpy
             [(0, 1); (1, 2); (0, 1)]%nat 5 1 2 (1 / 2) 2 0%nat g' s);
      [lia|exact Hrun].
Defined.



Section SamplerErrors.

Variable G : Type.
Variable np : numpy G.

Lemma bindS_raise {A B : Type} (c : sampler G A) (k : A -> sampler G B)
  (g g' : G) (e : exn) :
  c g = (Raise e, g') -> bindS c k g = (Raise e, g').
Proof. intros H. unfold bindS. rewrite H. reflexivity. Qed.

Lemma bindS_run {A B : Type} (c : sampler G A) (k : A -> sampler G B)
  (g g' : G) (a : A) :
  c g = (Ok a, g') -> bindS c k g = k a g'.
Proof. intros H. unfold bindS. rewrite H. reflexivity. Qed.


Lemma propose_nonpositive_draw (wins matches : dict (dict nat))
  (proposal_std prior_std : R) (st : chain) (i : player) (g g1 g2 : G)
  (r_i z u lp' : R) :
  lookup (current_ratings st) i = Some r_i ->
  random_normal np 0 proposal_std g = (z, g1) ->
  log_posterior (setitem (current_ratings st) i (r_i + z)) wins matches
                prior_std = Ok lp' ->
  random_random np g1 = (u, g2) ->
  u <= 0 ->
  propose np wins matches proposal_std prior_std st i g
  = (Raise ValueError, g2).
Proof.
  intros Hl Hz Hlp Hu Hle.
  unfold propose, bindS, liftS, getitem, draw_normal, draw_random.
  rewrite Hl, Hz, Hlp, Hu. unfold pylog.
  destruct (Rlt_dec 0 u); [lra|reflexivity].
Qed.

Variable matches_list : list game.
Variables n_samples burn_in : nat.
Variables proposal_std prior_std : R.

Hypothesis matches_nonempty : matches_list <> [].
Hypothesis prior_std_nonzero : prior_std <> 0.

Lemma mcmc_first_draw_nonpositive (thin : nat) (g : G) :
  (1 <= n_samples + burn_in)%nat ->
  fst (random_random np (snd (random_normal np 0 proposal_std g))) <= 0 ->
  mcmc_bradley_terry np matches_list n_samples burn_in thin
                     proposal_std prior_std g
  = (Raise ValueError,
     snd (random_random np (snd (random_normal np 0 proposal_std g)))).
Proof.
  intros Hiter Hu.
  set (P := fit_players matches_list).
  set (W := w (aggregate_matches matches_list)).
  set (N := n (aggregate_matches matches_list)).
  assert (Hnd : NoDup P) by apply fit_players_nodup.
  assert (Hne : P <> []) by (apply fit_players_nonempty, matches_nonempty).
  assert (Hw : keys_within W P) by apply wins_within.
  destruct (random_normal np 0 proposal_std g) as [z g1] eqn:Hz.
  cbn [snd] in *.
  destruct (random_random np g1) as [u g2] eqn:Hdraw.
  cbn [fst snd] in *.
  destruct (log_posterior_total (fun _ => 0) N Hw prior_std_nonzero)
    as [lp Hlp].
  assert (Hsweep : forall acc prop,
            sweep np P W N proposal_std prior_std
                  (mkChain (tabulate (fun _ => 0) P) lp acc prop) g
            = (Raise ValueError, g2)).
  { intros acc prop. unfold sweep.
    destruct P as [|i0 P0] eqn:EP; [contradiction|]. rewrite <- EP in *.
    assert (Hi0 : In i0 P) by (rewrite EP; left; reflexivity).
    rewrite EP at 1. cbn [foldS]. apply bindS_raise.
    destruct (log_posterior_total
                (fun i => if Nat.eqb i i0 then 0 + z else 0) N Hw
                prior_std_nonzero) as [lp' Hlp'].
    eapply propose_nonpositive_draw with (r_i := 0); cbn [current_ratings].
    - exact (lookup_tabulate (fun _ : player => 0) P i0 Hi0).
    - exact Hz.
    - rewrite setitem_tabulate by assumption. exact Hlp'.
    - exact Hdraw.
    - exact Hu. }
  unfold mcmc_bradley_terry.
  change (sorted (players (aggregate_matches matches_list))) with P.
  destruct P as [|i0 P0] eqn:EP; [contradiction|]. rewrite <- EP in *.
  apply bindS_raise.
  unfold mcmc_chain.
  change (sorted (players (aggregate_matches matches_list))) with P.
  fold W N.
  change (map (fun p => (p, 0)) P) with (tabulate (fun _ : player => 0) P).
  rewrite (@bindS_run _ _ _ _ g g lp) by (unfold liftS; rewrite Hlp; reflexivity).
  destruct (n_samples + burn_in)%nat as [|k]; [lia|].
  cbn [seq foldS]. apply bindS_raise.
  unfold mcmc_iteration. apply bindS_raise. apply Hsweep.
Qed.

Hypothesis draws_positive : forall g, 0 < fst (random_random np g).


End SamplerErrors.

(** X22. [np.random.random] can return [0.0]; when the first uniform draw
    of a run is not positive, [math.log] raises [ValueError] and
    [mcmc_bradley_terry] stops there, two draws into the first sweep. *)
Theorem nonpositive_uniform_draw_raises (G : Type) (np : numpy G)
  (matches_list : list game) (n_samples burn_in thin : nat)
  (proposal_std prior_std : R) (g : G) :
  matches_list <> [] -> prior_std <> 0 -> (1 <= n_samples + burn_in)%nat ->
  fst (random_random np (snd (random_normal np 0 proposal_std g))) <= 0 ->
  mcmc_bradley_terry np matches_list n_samples burn_in thin
                     proposal_std prior_std g
  = (Raise ValueError,
     snd (random_random np (snd (random_normal np 0 proposal_std g)))).
Proof.
  intros Hne Hstd Hiter Hu. apply mcmc_first_draw_nonpositive; assumption.
Qed.

Lemma nonpositive_uniform_draw_raises_witness :
  mcmc_bradley_terry stalled_numpy [(0, 1); (1, 2); (0, 1)]%nat 3 1 1 (1 / 2)
                     2 0%nat
  = (Raise ValueError, 2%nat).
Proof.
  apply (@nonpositive_uniform_draw_raises nat stalled_numpy
           [(0, 1); (1, 2); (0, 1)]%nat 3 1 1 (1 / 2) 2 0%nat).
  - discriminate.
  - lra.
  - lia.
  - simpl. lra.
Defined.



(** ** The MM update on aggregated tallies *)

Lemma fit_denominator_pos (matches : list game) (q : player -> R) (i : player) :
  (forall j, 0 < q j) -> In i (fit_players matches) ->
  0 < denom_of (n (aggregate_matches matches)) q i.
Proof.
  intros Hq Hi. unfold denom_of. rewrite wsum_n. apply opponent_sum_pos.
  - intros j. apply Rinv_0_lt_compat. pose proof (Hq i). pose proof (Hq j). lra.
  - apply fit_players_in. exact Hi.
Qed.

Lemma tabulate_inj {V : Type} (f g : player -> V) (l : list player) :
  tabulate f l = tabulate g l -> forall i, In i l -> f i = g i.
Proof.
  induction l as [|x l IH]; intros H i Hi; [destruct Hi|].
  cbn [tabulate map] in H. injection H as Hx Hl.
  destruct Hi as [<-|Hi]; [exact Hx|exact (IH Hl i Hi)].
Qed.

Lemma opponent_sum_scal (c : R) (g : player -> R) (ms : list game) (i : player) :
  opponent_sum (fun j => c * g j) ms i = c * opponent_sum g ms i.
Proof.
  unfold opponent_sum.
  rewrite <- (Rsum_map_scal c
                (fun m : game =>
                   (if Nat.eqb (fst m) i then g (snd m) else 0)
                   + (if Nat.eqb (snd m) i then g (fst m) else 0))).
  apply Rsum_map_ext. intros m _.
  destruct (Nat.eqb (fst m) i), (Nat.eqb (snd m) i); lra.
Qed.

(** X25. A strength vector that one MM iteration leaves unchanged, with no
    update below the floor [epsilon], solves the likelihood equations of the
    Bradley-Terry model: every player's number of wins equals the number the
    model expects, the sum over its matches of [p_i / (p_i + p_opponent)]. *)
Theorem stationary_strengths_balance_wins (matches : list game)
  (q : player -> R) (max_rel_change : R) :
  matches <> [] -> (forall j, 0 < q j) ->
  let agg := aggregate_matches matches in
  let P := sorted (players agg) in
  mm_iteration P (total_wins P (w agg)) (n agg) (tabulate q P)
  = Ok (tabulate q P, max_rel_change) ->
  (forall i, In i P ->
     epsilon <= INR (wins_of matches i)
                / opponent_sum (fun j => / (q i + q j)) matches i) ->
  forall i, In i P ->
    INR (wins_of matches i)
    = opponent_sum (fun j => q i / (q i + q j)) matches i.
Proof.
  intros Hne Hq agg P Hrun Hfloor i Hi.
  change P with (fit_players matches) in *.
  set (tw := fit_wins matches) in *. set (N := n agg) in *.
  change (total_wins (fit_players matches) (w agg))
    with (tabulate tw (fit_players matches)) in Hrun.
  rewrite mm_iteration_ok in Hrun;
    [|apply fit_players_nodup|intros; apply Hq|apply fit_rows_closed
     |apply fit_players_nonempty; exact Hne].
  injection Hrun as Hfix _.
  pose proof (tabulate_inj _ _ _ Hfix) as Hnext. clear Hfix.
  assert (Htw : forall k, tw k = wins_of matches k)
    by (intros k; unfold tw, fit_wins; apply total_wins_count).
  assert (Hden : forall k, denom_of N q k
                           = opponent_sum (fun j => / (q k + q j)) matches k)
    by (intros k; unfold denom_of, N, agg; apply wsum_n).
  assert (Hdpos : forall k, In k (fit_players matches) -> 0 < denom_of N q k)
    by (intros k Hk; apply fit_denominator_pos; assumption).
  set (f := factor_of (fit_players matches) (clamped_of tw N q)) in *.
  assert (Hstep : forall k, In k (fit_players matches) ->
            q k * denom_of N q k = INR (tw k) * f).
  { intros k Hk. pose proof (Hnext k Hk) as Hk1. pose proof (Hdpos k Hk) as Hd.
    unfold next_of in Hk1. fold f in Hk1.
    assert (Hc : clamped_of tw N q k = INR (tw k) / denom_of N q k).
    { unfold clamped_of, update_of.
      destruct (Rlt_dec 0 (denom_of N q k)); [|contradiction].
      apply Rmax_left. rewrite Htw, Hden. apply Hfloor. exact Hk. }
    rewrite Hc in Hk1. rewrite <- Hk1. field. lra. }
  assert (Hf : f = 1).
  { pose proof (player_sum_denoms matches q q) as Hsum.
    fold agg N in Hsum.
    rewrite (Rsum_map_ext _ (fun k => f * (INR (tw k) * 1))) in Hsum
      by (intros k Hk; rewrite (Hstep k Hk); lra).
    rewrite Rsum_map_scal in Hsum.
    pose proof (player_sum_wins matches (fun _ => 1)) as Hwins.
    fold tw in Hwins. cbv beta in Hwins. rewrite Hwins in Hsum.
    rewrite Rsum_map_const in Hsum.
    rewrite (Rsum_map_ext _ (fun _ : game => 1)) in Hsum.
    2:{ intros m _. pose proof (Hq (fst m)). pose proof (Hq (snd m)).
        field. lra. }
    rewrite Rsum_map_const in Hsum.
    assert (Hlen : 0 < INR (length matches)).
    { apply lt_0_INR. destruct matches; [congruence|simpl; lia]. }
    nra. }
  rewrite <- Htw. pose proof (Hstep i Hi) as H. rewrite Hf, Hden in H.
  unfold Rdiv. rewrite opponent_sum_scal. lra.
Qed.

Lemma exchange_denominator (i : player) :
  In i [0; 1]%nat ->
  opponent_sum (fun j => / (1 + 1)) [(0, 1); (1, 0)]%nat i = 1.
Proof.
  intros [<-|[<-|[]]]; unfold opponent_sum; cbn; lra.
Qed.

Lemma exchange_clamped (i : player) :
  In i [0; 1]%nat ->
  clamped_of (fit_wins [(0, 1); (1, 0)]%nat)
             (n (aggregate_matches [(0, 1); (1, 0)]%nat)) (fun _ => 1) i = 1.
Proof.
  intros Hi. unfold clamped_of, update_of, denom_of.
  rewrite wsum_n, (exchange_denominator Hi).
  destruct (Rlt_dec 0 1); [|lra].
  replace (INR (fit_wins [(0, 1); (1, 0)]%nat i)) with 1
    by (destruct Hi as [<-|[<-|[]]]; reflexivity).
  unfold Rdiv. rewrite Rinv_1, Rmult_1_r.
  apply Rmax_left. apply epsilon_le_1.
Qed.

Lemma stationary_strengths_balance_wins_witness :
  INR (wins_of [(0, 1); (1, 0)]%nat 0%nat)
  = opponent_sum (fun j => 1 / (1 + 1)) [(0, 1); (1, 0)]%nat 0%nat.
Proof.
  apply (@stationary_strengths_balance_wins [(0, 1); (1, 0)]%nat (fun _ => 1)
           (max_rel_change_of [0; 1]%nat (fun _ => 1)
              (next_of [0; 1]%nat (fit_wins [(0, 1); (1, 0)]%nat)
                       (n (aggregate_matches [(0, 1); (1, 0)]%nat))
                       (fun _ => 1)))).
  - discriminate.
  - intros _. lra.
  - change (sorted (players (aggregate_matches [(0, 1); (1, 0)]%nat)))
      with [0; 1]%nat.
    change (total_wins [0; 1]%nat (w (aggregate_matches [(0, 1); (1, 0)]%nat)))
      with (tabulate (fit_wins [(0, 1); (1, 0)]%nat) [0; 1]%nat).
    rewrite mm_iteration_ok.
    + f_equal. f_equal. apply tabulate_ext. intros i Hi.
      unfold next_of, factor_of.
      rewrite (exchange_clamped Hi).
      rewrite (Rsum_map_ext _ (fun _ : player => 0))
        by (intros k Hk; rewrite (exchange_clamped Hk); apply ln_1).
      rewrite Rsum_map_const. rewrite Rmult_0_r.
      unfold Rdiv. rewrite Rmult_0_l, Ropp_0, exp_0. lra.
    + repeat constructor; simpl; intuition lia.
    + intros _ _. lra.
    + intros i j Hi Hj.
      apply (@fit_rows_closed [(0, 1); (1, 0)]%nat i j Hi Hj).
    + discriminate.
  - change (sorted (players (aggregate_matches [(0, 1); (1, 0)]%nat)))
      with [0; 1]%nat.
    intros i Hi. rewrite (exchange_denominator Hi).
    replace (INR (wins_of [(0, 1); (1, 0)]%nat i)) with 1
      by (destruct Hi as [<-|[<-|[]]]; reflexivity).
    unfold Rdiv. rewrite Rinv_1, Rmult_1_r. apply epsilon_le_1.
  - simpl. auto.
Defined.

Lemma positive_total_in_row (row : dict nat) (j : player) :
  (0 < get_dd 0%nat row j)%nat ->
  existsb (fun c => negb (Nat.eqb c 0)) (values row) = true.
Proof.
  intros H. apply existsb_exists. exists (get_dd 0%nat row j). split.
  - destruct (get_dd_cases 0%nat row j) as [H0|Hin]; [lia|].
    unfold values. apply in_map_iff. exists (j, get_dd 0%nat row j). auto.
  - destruct (Nat.eqb_spec (get_dd 0%nat row j) 0); [lia|reflexivity].
Qed.

(** X26. The list of isolated players [fit_bradley_terry] computes before
    iterating is always empty: every player [aggregate_matches] returns has
    played a match, so the warning about isolated players is never
    printed. *)
Theorem no_isolated_players (matches : list game) :
  let agg := aggregate_matches matches in
  let P := sorted (players agg) in
  isolated_players P (total_wins P (w agg)) (n agg) = Ok [].
Proof.
  intros agg P. unfold isolated_players.
  change (total_wins P (w agg)) with (tabulate (fit_wins matches) P).
  assert (Hstep : forall i, In i P ->
            existsb (fun c => negb (Nat.eqb c 0))
                    (values (get_dd [] (n agg) i)) = true).
  { intros i Hi. unfold P in Hi. apply (proj1 (sorted_in _ _)) in Hi.
    apply (proj1 (players_in _ _)) in Hi.
    destruct Hi as [[a b] [Hm Hx]]. simpl in Hx.
    assert (Hpos : exists j, (0 < get2 (n agg) i j)%nat).
    { unfold agg. destruct Hx as [->| ->].
      - exists b. rewrite get2_n_count. apply games_won_positive in Hm. lia.
      - exists a. rewrite get2_n_count. apply games_won_positive in Hm. lia. }
    destruct Hpos as [j Hj]. apply positive_total_in_row with j. exact Hj. }
  assert (Hgen : forall l, (forall i, In i l -> In i P) ->
            foldM (fun isolated i =>
                     t_i <- getitem (tabulate (fit_wins matches) P) i ;;
                     if Nat.eqb t_i 0
                        && negb (existsb (fun c => negb (Nat.eqb c 0))
                                         (values (get_dd [] (n agg) i)))
                     then Ok (isolated ++ [i])
                     else Ok isolated) l [] = Ok []).
  { induction l as [|i l IH]; intros Hsub; [reflexivity|].
    cbn [foldM].
    rewrite getitem_tabulate by (apply Hsub; left; reflexivity).
    cbn [bind]. rewrite (Hstep i (Hsub i (or_introl eq_refl))).
    rewrite andb_false_r. cbn [bind].
    apply IH. intros k Hk. apply Hsub. right. exact Hk. }
  apply Hgen. auto.
Qed.

(** ** What the fit reads from the matches *)

(** X28. What [fit_bradley_terry] reads from its input depends only on the
    multiset of matches: two lists that are permutations of each other give
    the same sorted players, the same win totals [t] and the same counts
    [w[i][j]] and [n[i][j]]; the counts are the numbers of matches of the
    list ([w[i][j]] those [i] won against [j], [n[i][j]] those between the
    two), and the counts of two batches put together are the sums of the
    counts of the batches. *)
Theorem tallies_depend_on_multiset (ms ms' : list game) :
  Permutation ms ms' ->
  let agg := aggregate_matches ms in
  let agg' := aggregate_matches ms' in
  sorted (players agg) = sorted (players agg')
  /\ total_wins (sorted (players agg)) (w agg)
     = total_wins (sorted (players agg')) (w agg')
  /\ (forall i j,
        get2 (w agg) i j = get2 (w agg') i j
        /\ get2 (n agg) i j = get2 (n agg') i j)
  /\ (forall i j,
        get2 (w agg) i j = games_won ms i j
        /\ get2 (n agg) i j = (games_won ms i j + games_won ms j i)%nat)
  /\ (forall batch1 batch2 i j,
        get2 (w (aggregate_matches (batch1 ++ batch2))) i j
        = (get2 (w (aggregate_matches batch1)) i j
           + get2 (w (aggregate_matches batch2)) i j)%nat
        /\ get2 (n (aggregate_matches (batch1 ++ batch2))) i j
           = (get2 (n (aggregate_matches batch1)) i j
              + get2 (n (aggregate_matches batch2)) i j)%nat).
Proof.
  intros H agg agg'.
  assert (HP : sorted (players agg) = sorted (players agg'))
    by exact (fit_players_perm H).
  split; [exact HP|]. split; [|split; [|split]].
  - rewrite <- HP.
    change (total_wins (sorted (players agg)) (w agg))
      with (tabulate (fit_wins ms) (sorted (players agg))).
    change (total_wins (sorted (players agg)) (w agg'))
      with (tabulate (fit_wins ms') (sorted (players agg))).
    apply tabulate_ext. intros i _. unfold fit_wins.
    rewrite !total_wins_count. apply wins_of_perm, H.
  - intros i j. unfold agg, agg'. rewrite !get2_n_count, !get2_w_count.
    rewrite (games_won_perm i j H), (games_won_perm j i H). auto.
  - intros i j. unfold agg. rewrite get2_n_count, get2_w_count. auto.
  - intros b1 b2 i j. rewrite !get2_n_count, !get2_w_count, !games_won_app.
    split; lia.
Qed.

Lemma tallies_depend_on_multiset_witness :
  let agg := aggregate_matches [(0, 1); (1, 2); (0, 1)]%nat in
  let agg' := aggregate_matches [(1, 2); (0, 1); (0, 1)]%nat in
  sorted (players agg) = sorted (players agg')
  /\ total_wins (sorted (players agg)) (w agg)
     = total_wins (sorted (players agg')) (w agg').
Proof.
  intros agg agg'.
  destruct (@tallies_depend_on_multiset [(0, 1); (1, 2); (0, 1)]%nat
              [(1, 2); (0, 1); (0, 1)]%nat (perm_swap _ _ _))
    as (H1 & H2 & _).
  split; [exact H1|exact H2].
Defined.

(** ** Recentering in the sampler *)

(** X27. In [mcmc_bradley_terry] the recentering of lines 112-115 leaves
    current ratings keyed by the players and of sum, hence mean, zero; and
    when the sampler returns its results, the samples are keyed by the
    players, every player has the same number of them, and each retained
    sample vector (the [k]-th sample of every player) has one entry per
    player and sum, hence mean, zero. *)
Theorem sampler_ratings_centred (matches : list game) :
  matches <> [] ->
  let agg := aggregate_matches matches in
  let P := sorted (players agg) in
  (forall prior_std st st',
     shaped P st ->
     recenter P (w agg) (n agg) prior_std st = Ok st' ->
     keys (current_ratings st') = P
     /\ Rsum (values (current_ratings st')) = 0
     /\ mean_of (current_ratings st') = 0)
  /\ (forall (G : Type) (np : numpy G) n_samples burn_in thin
             proposal_std prior_std g g' s,
        mcmc_bradley_terry np matches n_samples burn_in thin
                           proposal_std prior_std g = (Ok (Results s), g') ->
        keys (samples s) = P
        /\ exists m,
             (forall i, In i P -> length (get_dd [] (samples s) i) = m)
             /\ forall k, (k < m)%nat ->
                  length (sample_vector P (samples s) k) = length P
                  /\ Rsum (sample_vector P (samples s) k) = 0
                  /\ mean_list (sample_vector P (samples s) k) = 0).
Proof.
  intros Hne agg P. change P with (fit_players matches). split.
  - intros prior_std st st' Hst Hrun.
    eapply recenter_centered in Hrun; try eassumption.
    + destruct Hrun as [[f Hf] Hzero]. split; [|split].
      * rewrite Hf. apply keys_tabulate.
      * exact Hzero.
      * unfold mean_of. rewrite Hzero. unfold Rdiv. apply Rmult_0_l.
    + apply fit_players_nodup.
    + apply fit_players_nonempty, Hne.
  - intros G np n_samples burn_in thin proposal_std prior_std g g' s Hrun.
    apply mcmc_samples_centered in Hrun; [|exact Hne].
    destruct Hrun as [S [m [Hs [Hlen Hzero]]]].
    split; [rewrite Hs; apply keys_tabulate|].
    exists m. split.
    + intros i Hi. rewrite Hs, get_dd_tabulate by exact Hi. apply Hlen, Hi.
    + intros k _.
      assert (Hvec : Rsum (sample_vector (fit_players matches) (samples s) k)
                     = 0).
      { unfold sample_vector.
        rewrite (Rsum_map_ext _ (fun i => nth k (S i) 0)); [apply Hzero|].
        intros i Hi. rewrite Hs, get_dd_tabulate by exact Hi. reflexivity. }
      split; [apply length_map|]. split; [exact Hvec|].
      unfold mean_list. rewrite Hvec. unfold Rdiv. apply Rmult_0_l.
Qed.

Lemma sampler_ratings_centred_witness :
  exists s g' m,
    mcmc_bradley_terry counting_numpy [(0, 1); (1, 2); (0, 1)]%nat
                       3 1 1 (1 / 2) 2 0%nat = (Ok (Results s), g')
    /\ keys (samples s) = [0; 1; 2]%nat
    /\ forall k, (k < m)%nat ->
         Rsum (sample_vector [0; 1; 2]%nat (samples s) k) = 0.
Proof.
  assert (Hne : [(0, 1); (1, 2); (0, 1)]%nat <> @nil game) by discriminate.
  destruct (sampler_ratings_centred Hne) as [_ Hmcmc].
  assert (Hstd : (2 : R) <> 0) by lra.
  assert (Hthin : 1%nat <> 0%nat) by discriminate.
  destruct (mcmc_bradley_terry_total counting_numpy 3 1
              (1 / 2) Hne Hstd Hthin counting_draws_positive 0%nat)
    as [s [g' Hrun]].
  destruct (Hmcmc _ _ _ _ _ _ _ _ _ _ Hrun) as [Hk [m [_ Hm]]].
  exists s, g', m. split; [exact Hrun|]. split; [exact Hk|].
  intros k Hlt. exact (proj1 (proj2 (Hm k Hlt))).
Defined.
